(** * The workflow execution engine of DTAMind-Agentflow

    A shallow embedding of [server/services/workflow-engine.ts] (the class
    [WorkflowEngine]), of the in-memory storage it records executions in (the
    class [MemStorage], found with [server/config/storage.ts]), of the
    services behind three of its handlers and of the route that executes a
    workflow, followed by the properties of the engine's specification that
    hold of it, and the inputs at which the others fail.

    Layout: JavaScript values and the heap, template interpolation, the
    handler monad and the external services, the node handlers and their
    dispatch, the graph traversal, the storage and [executeWorkflow]; then
    the theorems. *)

From stdpp Require Import gmap strings list pretty sorting.
From Stdlib Require Import Ascii String.

#[local] Set Warnings "-register-all".
Local Open Scope string_scope.
Local Open Scope list_scope.

(** ** JavaScript values *)

Module Js.

(** Objects and arrays are held by reference: a value names the location of
    the object, and the heap has its content.  Two references to one location
    are two names of one object: what is written through one is read through
    the other. *)
Definition loc : Type := nat.

(** The values that flow through the engine ([any] in the source): what
    JSON holds, with [undefined].  A number is carried by its canonical
    rendering ([Number.prototype.toString]), which identifies it up to the
    sign of zero: [JNum "0.7"], [JNum "0"], [JNum "NaN"].  Functions, symbols
    and objects with a prototype of their own are not among the values: a
    script is taken to return and to store values of this kind. *)
Inductive JsValue : Type :=
  | JUndefined
  | JNull
  | JBool (b : bool)
  | JNum (repr : string)
  | JStr (s : string)
  | JObject (l : loc)
  | JArray (l : loc).

#[global] Instance JsValue_eq_dec : EqDecision JsValue.
Proof. solve_decision. Defined.

(** The heap: the own properties of every plain object, the elements of
    every array, and the next location to be given out.  A location that was
    never written holds an object without properties, or an empty array. *)
Record Heap : Type := {
  objects : gmap loc (gmap string JsValue);
  arrays : gmap loc (list JsValue);
  fresh : loc
}.

Definition props (h : Heap) (l : loc) : gmap string JsValue :=
  default ∅ (objects h !! l).

Definition items (h : Heap) (l : loc) : list JsValue :=
  default [] (arrays h !! l).

(** An object literal [{ ... }]: a new object. *)
Definition alloc_object (m : gmap string JsValue) (h : Heap) : JsValue * Heap :=
  (JObject (fresh h),
   {| objects := <[fresh h := m]> (objects h);
      arrays := arrays h;
      fresh := S (fresh h) |}).

(** An array literal [[ ... ]]: a new array. *)
Definition alloc_array (l : list JsValue) (h : Heap) : JsValue * Heap :=
  (JArray (fresh h),
   {| objects := objects h;
      arrays := <[fresh h := l]> (arrays h);
      fresh := S (fresh h) |}).

(** [o[k] = v] on the plain object at [l]. *)
Definition set_property (l : loc) (k : string) (v : JsValue) (h : Heap) : Heap :=
  {| objects := <[l := <[k := v]> (props h l)]> (objects h);
     arrays := arrays h;
     fresh := fresh h |}.

(** [!!v]: everything is truthy but [undefined], [null], [false], [0], [NaN]
    and the empty string. *)
Definition truthy (v : JsValue) : bool :=
  match v with
  | JUndefined | JNull => false
  | JBool b => b
  | JNum r => negb (String.eqb r "0" || String.eqb r "NaN")
  | JStr s => negb (String.eqb s "")
  | JObject _ | JArray _ => true
  end.

(** [a || b] *)
Definition or (a b : JsValue) : JsValue := if truthy a then a else b.

(** [v === s] for a string literal [s]. *)
Definition is_str (v : JsValue) (s : string) : bool :=
  match v with
  | JStr s' => String.eqb s' s
  | _ => false
  end.

(** A thrown value: an [Error] with its message, or anything else. *)
Inductive Thrown : Type :=
  | ThrowError (message : string)
  | ThrowOther (v : JsValue).

(** [error instanceof Error ? error.message : fallback] *)
Definition error_message (t : Thrown) (fallback : string) : string :=
  match t with
  | ThrowError m => m
  | ThrowOther _ => fallback
  end.

(** An expression either has a value or throws. *)
Inductive Exc (A : Type) : Type :=
  | Ok (a : A)
  | Throw (t : Thrown).
Arguments Ok {A} a.
Arguments Throw {A} t.

Definition exc_bind {A B : Type} (e : Exc A) (k : A -> Exc B) : Exc B :=
  match e with
  | Ok a => k a
  | Throw t => Throw t
  end.

(** *** Strings

    A string of the model is the UTF-8 text of a JavaScript string, whose
    units are UTF-16: a character outside the basic plane is four bytes here
    and two units (a surrogate pair) there.  [length], indexing and
    [substring] count units; half a pair is written as the three bytes that
    the same encoding gives a surrogate. *)

(** The number of bytes of the character that begins with [c]. *)
Definition utf8_width (c : ascii) : nat :=
  let n := N_of_ascii c in
  if (n <? 192)%N then 1 else if (n <? 224)%N then 2 else if (n <? 240)%N then 3 else 4.

Fixpoint split_at (n : nat) (s : string) : string * string :=
  match n, s with
  | S n', String c s' => let (a, b) := split_at n' s' in (String c a, b)
  | _, _ => ("", s)
  end.

Fixpoint code_points_fuel (fuel : nat) (s : string) : list string :=
  match fuel, s with
  | S fuel', String c _ =>
      let (cp, rest) := split_at (utf8_width c) s in
      cp :: code_points_fuel fuel' rest
  | _, _ => []
  end.

(** The characters of a string, each with its bytes. *)
Definition code_points (s : string) : list string :=
  code_points_fuel (String.length s) s.

(** The scalar value of a character of four bytes. *)
Definition scalar (cp : string) : N :=
  match cp with
  | String a (String b (String c (String d _))) =>
      N.lor (N.shiftl (N.land (N_of_ascii a) 7) 18)
        (N.lor (N.shiftl (N.land (N_of_ascii b) 63) 12)
           (N.lor (N.shiftl (N.land (N_of_ascii c) 63) 6)
              (N.land (N_of_ascii d) 63)))
  | _ => 0
  end.

(** A unit between [0x0800] and [0xFFFF] in three bytes. *)
Definition three_bytes (u : N) : string :=
  String (ascii_of_N (N.lor 224 (N.shiftr u 12)))
    (String (ascii_of_N (N.lor 128 (N.land (N.shiftr u 6) 63)))
       (String (ascii_of_N (N.lor 128 (N.land u 63))) "")).

(** The UTF-16 units of a character: itself, or its two surrogates. *)
Definition units_of (cp : string) : list string :=
  if (String.length cp =? 4)%nat
  then let c := (scalar cp - 65536)%N in
       [three_bytes (55296 + N.shiftr c 10); three_bytes (56320 + N.land c 1023)]
  else [cp].

Definition utf16_units (s : string) : list string :=
  List.concat (map units_of (code_points s)).

(** [s.length] *)
Definition utf16_length (s : string) : nat := List.length (utf16_units s).

Fixpoint take_units (n : nat) (cps : list string) : string :=
  match n, cps with
  | S n', cp :: rest =>
      match units_of cp, n' with
      | [high; _], O => high
      | [_; _], S n'' => cp +:+ take_units n'' rest
      | _, _ => cp +:+ take_units n' rest
      end
  | _, _ => ""
  end.

(** [s.substring(0, n)] *)
Definition substring0 (n : nat) (s : string) : string :=
  take_units n (code_points s).

(** *** Properties *)

(** The elements of an array under their index. *)
Definition indexed (l : list JsValue) : gmap string JsValue :=
  list_to_map (imap (fun i x => (pretty i, x)) l).

(** The own properties of an array or of a string: its elements, or its
    units, under their index, and [length]. *)
Definition array_props (l : list JsValue) : gmap string JsValue :=
  <["length" := JNum (pretty (List.length l))]> (indexed l).

(** The own property [k] of [v], if it has one. *)
Definition own (h : Heap) (v : JsValue) (k : string) : option JsValue :=
  match v with
  | JObject l => props h l !! k
  | JArray l => array_props (items h l) !! k
  | JStr s => array_props (JStr <$> utf16_units s) !! k
  | _ => None
  end.

(** What a property access gives: a value of the model, or a function or
    object that is built into the engine and reached through a prototype
    ([constructor], [toString], [__proto__], ...).  A built-in is truthy and
    is known by the text that its conversion to a string gives. *)
Inductive Member : Type :=
  | Data (v : JsValue)
  | Native (text : string).

Definition truthy_member (m : Member) : bool :=
  match m with
  | Data v => truthy v
  | Native _ => true
  end.

(** The prototype that [v.k] goes to when [v] has no own property [k]. *)
Inductive Kind : Type := KObject | KArray | KString | KNumber | KBoolean.

Definition kind_of (v : JsValue) : Kind :=
  match v with
  | JArray _ => KArray
  | JStr _ => KString
  | JNum _ => KNumber
  | JBool _ => KBoolean
  | _ => KObject
  end.

(** The realm the engine runs in, as far as the engine depends on it: the
    members that a value of each kind inherits, through its whole prototype
    chain.  They vary with the version of the JavaScript engine, and are a
    parameter of the development. *)
Record Realm : Type := {
  inherited : Kind -> string -> option Member
}.

Definition read_error (base k : string) : Thrown :=
  ThrowError ("Cannot read properties of " +:+ base +:+ " (reading '" +:+ k +:+ "')").

(** [v[k]] for a string key: the own property, else the inherited member,
    else [undefined]; reading a property of [null] or [undefined] throws. *)
Definition get (realm : Realm) (h : Heap) (v : JsValue) (k : string) : Exc Member :=
  match v with
  | JUndefined => Throw (read_error "undefined" k)
  | JNull => Throw (read_error "null" k)
  | _ =>
      Ok match own h v k with
         | Some x => Data x
         | None => default (Data JUndefined) (inherited realm (kind_of v) k)
         end
  end.

(** [v.k] where [k] is one of the fixed names that the handlers and the
    services read ([config.url], [result.success], [msg.content], ...).  No
    prototype of ECMAScript defines one of these names, so the access gives
    the own property or [undefined]. *)
Definition prop (h : Heap) (v : JsValue) (k : string) : Exc JsValue :=
  match v with
  | JUndefined => Throw (read_error "undefined" k)
  | JNull => Throw (read_error "null" k)
  | _ => Ok (default JUndefined (own h v k))
  end.

(** *** Conversion to a string *)

(** [l.join(",")] on elements already converted, left to right. *)
Fixpoint join (l : list (Exc string)) : Exc string :=
  match l with
  | [] => Ok ""
  | [x] => x
  | x :: l' =>
      exc_bind x (fun a => exc_bind (join l') (fun b => Ok (a +:+ "," +:+ b)))
  end.

Definition not_primitive : Thrown :=
  ThrowError "Cannot convert object to primitive value".

(** [ToString(v)], as applied to a template-literal hole, to the value a
    [replace] callback returns and to a property key.

    A plain object is converted by its [toString] method, then by its
    [valueOf].  The inherited [toString] gives [[object Object]]; an own
    property [toString] is a value of the model, so it is not callable, and
    then neither an own [valueOf] (not callable) nor the inherited one
    (which returns the object) gives a primitive: the conversion throws.

    An array is joined with commas, [null] and [undefined] elements giving
    the empty string; an array met again inside itself gives the empty
    string.  [stack] holds the arrays being joined, and [fuel] bounds their
    number. *)
Fixpoint to_string_fuel (fuel : nat) (h : Heap) (stack : list loc) (v : JsValue)
    : Exc string :=
  match v with
  | JUndefined => Ok "undefined"
  | JNull => Ok "null"
  | JBool true => Ok "true"
  | JBool false => Ok "false"
  | JNum r => Ok r
  | JStr s => Ok s
  | JObject l =>
      if bool_decide (is_Some (props h l !! "toString"))
      then Throw not_primitive
      else Ok "[object Object]"
  | JArray l =>
      if bool_decide (l ∈ stack) then Ok ""
      else match fuel with
           | O => Ok ""
           | S fuel' =>
               join (map (fun x => match x with
                                   | JUndefined | JNull => Ok ""
                                   | _ => to_string_fuel fuel' h (l :: stack) x
                                   end) (items h l))
           end
  end.

(** Every array that is being joined is one of the arrays of the heap that
    have elements, so one step of fuel for each of them is enough. *)
Definition to_string (h : Heap) (v : JsValue) : Exc string :=
  to_string_fuel (S (size (arrays h))) h [] v.

Definition member_string (h : Heap) (m : Member) : Exc string :=
  match m with
  | Data v => to_string h v
  | Native text => Ok text
  end.

(** The own enumerable properties an object spread [{...v}] copies. *)
Definition spread (h : Heap) (v : JsValue) : gmap string JsValue :=
  match v with
  | JObject l => props h l
  | JArray l => indexed (items h l)
  | JStr s => indexed (JStr <$> utf16_units s)
  | _ => ∅
  end.

End Js.

Import Js.

Arguments Js.get : simpl never.
Arguments Js.prop : simpl never.
Arguments Js.to_string : simpl never.

Declare Scope exc_scope.
Delimit Scope exc_scope with exc.
Notation "x <- e ;; k" := (exc_bind e (fun x => k))
  (at level 100, e at next level, right associativity) : exc_scope.


(** ** Template interpolation *)

(** [WorkflowContext].  [variables] is [input || {}], whatever value the
    caller passed; [previousResults] is the object the traversal fills, keyed
    by node id, named by its location. *)
Record WorkflowContext : Type := {
  executionId : string;
  variables : JsValue;
  previousResults : loc
}.

(** [\w]: an ASCII letter, digit or underscore. *)
Definition is_word_char (c : ascii) : bool :=
  let n := nat_of_ascii c in
  (((48 <=? n) && (n <=? 57)) || ((65 <=? n) && (n <=? 90))
   || ((97 <=? n) && (n <=? 122)) || (n =? 95))%nat.

(** [\w*] at the head of [s], greedily: the word and what follows it. *)
Fixpoint take_word (s : string) : string * string :=
  match s with
  | String c s' =>
      if is_word_char c
      then let (w, r) := take_word s' in (String c w, r)
      else ("", s)
  | EmptyString => ("", "")
  end.

(** One attempt of [/\{\{(\w+)\}\}/] at the head of [s]: the captured key and
    the text after the match.  The word is taken greedily; a shorter word
    would be followed by a word character, never by a brace, so backtracking
    finds nothing more. *)
Definition match_token (s : string) : option (string * string) :=
  match s with
  | String "{" (String "{" s1) =>
      match take_word s1 with
      | (String c w, String "}" (String "}" rest)) => Some (String c w, rest)
      | _ => None
      end
  | _ => None
  end.

(** The text of the match for a captured key. *)
Definition token (key : string) : string := "{{" +:+ key +:+ "}}".

(** [s.replace(/\{\{(\w+)\}\}/g, f)]: left to right, every match is replaced
    by the string of the callback's result and the scan resumes after the
    match; where no match starts, the character is copied.  The first
    callback that throws ends the call.  Each step consumes at least one
    character, so [S (length s)] steps of fuel scan all of [s]. *)
Fixpoint replace_tokens (fuel : nat) (f : string -> string -> Exc string)
    (s : string) : Exc string :=
  match fuel with
  | O => Ok s
  | S fuel' =>
      match match_token s with
      | Some (key, rest) =>
          (r <- f (token key) key ;;
           out <- replace_tokens fuel' f rest ;;
           Ok (r +:+ out))%exc
      | None =>
          match s with
          | EmptyString => Ok ""
          | String c s' =>
              (out <- replace_tokens fuel' f s' ;; Ok (String c out))%exc
          end
      end
  end.

Definition replace_all (f : string -> string -> Exc string) (s : string) : Exc string :=
  replace_tokens (S (String.length s)) f s.

(** The callback of [interpolateTemplate]:
    [context.variables[key] || context.previousResults[key] || match]. *)
Definition lookup_key (realm : Realm) (h : Heap) (context : WorkflowContext)
    (matched key : string) : Exc Member :=
  (a <- Js.get realm h (variables context) key ;;
   if truthy_member a then Ok a
   else b <- Js.get realm h (JObject (previousResults context)) key ;;
        if truthy_member b then Ok b else Ok (Data (JStr matched)))%exc.

(** [interpolateTemplate(template, context)] on a string, as its signature
    declares. *)
Definition interpolateTemplate (realm : Realm) (h : Heap) (template : string)
    (context : WorkflowContext) : Exc string :=
  if String.eqb template "" then Ok ""
  else replace_all
         (fun matched key =>
            (v <- lookup_key realm h context matched key ;; member_string h v)%exc)
         template.

(** [interpolateTemplate] at a call site whose argument is an untyped field
    of [node.data]: a falsy value gives the empty string, a string is
    interpolated, and any other value has no [replace] method, so the call
    throws (the message is the one Node.js gives). *)
Definition interpolate_value (realm : Realm) (h : Heap) (template : JsValue)
    (context : WorkflowContext) : Exc string :=
  if negb (truthy template) then Ok ""
  else match template with
       | JStr t => interpolateTemplate realm h t context
       | _ => Throw (ThrowError "template.replace is not a function")
       end.

(** ** The handler monad and the external services *)

(** What a computation of the engine works on: the heap, and the world
    outside the engine (network services, the clock). *)
Record Machine (World : Type) : Type := {
  heap : Heap;
  world : World
}.
Arguments heap {World}.
Arguments world {World}.

(** A call that settles: it returns or throws. *)
Definition T (World A : Type) : Type := Machine World -> Exc A * Machine World.

(** An awaited computation: it returns, it throws, or it never comes back
    ([None]).  The engine awaits every call before it goes on, so calls run
    one after another. *)
Definition M (World A : Type) : Type := Machine World -> option (Exc A) * Machine World.

Definition ret {World A} (a : A) : M World A := fun m => (Some (Ok a), m).

Definition throw {World A} (t : Thrown) : M World A := fun m => (Some (Throw t), m).

Definition bind {World A B} (c : M World A) (k : A -> M World B) : M World B :=
  fun m =>
    match c m with
    | (Some (Ok a), m') => k a m'
    | (Some (Throw t), m') => (Some (Throw t), m')
    | (None, m') => (None, m')
    end.

(** [try { c } catch (error) { h error }] *)
Definition try_catch {World A} (c : M World A) (h : Thrown -> M World A) : M World A :=
  fun m =>
    match c m with
    | (Some (Throw t), m') => h t m'
    | r => r
    end.

(** [await] of a call that settles. *)
Definition await {World A} (c : T World A) : M World A :=
  fun m => let (r, m') := c m in (Some r, m').

(** An expression evaluated on the heap as it is. *)
Definition eval {World A} (e : Heap -> Exc A) : M World A :=
  fun m => (Some (e (heap m)), m).

Declare Scope engine_scope.
Delimit Scope engine_scope with engine.
Notation "x <- c ;; k" := (bind c (fun x => k))
  (at level 100, c at next level, right associativity) : engine_scope.

Fixpoint mapM {World A B} (f : A -> M World B) (l : list A) : M World (list B) :=
  match l with
  | [] => ret []
  | x :: l' => (y <- f x ;; ys <- mapM f l' ;; ret (y :: ys))%engine
  end.

(** An object literal. *)
Definition new_object {World} (l : list (string * JsValue)) : M World JsValue :=
  fun m =>
    let (v, h) := alloc_object (list_to_map l) (heap m) in
    (Some (Ok v), {| heap := h; world := world m |}).

(** An array literal. *)
Definition new_array {World} (l : list JsValue) : M World JsValue :=
  fun m =>
    let (v, h) := alloc_array l (heap m) in
    (Some (Ok v), {| heap := h; world := world m |}).

(** [v || {}] *)
Definition or_new_object {World} (v : JsValue) : M World JsValue :=
  if truthy v then ret v else new_object [].

(** [v.k] *)
Definition read {World} (v : JsValue) (k : string) : M World JsValue :=
  eval (fun h => prop h v k).

(** The collaborators the engine imports: [openaiService], [llmService],
    [langChainService], the [Function] constructor that runs the script of a
    code or condition node, the clock and the id generator.  Each is a
    parameter of the development.

    A service is given its arguments and the machine: it may read and write
    the objects of the heap and make new ones, and its call settles.  A
    script is given the variables and the results of the earlier nodes, the
    objects themselves; it may do as a service does, and it may also never
    return. *)
Record Services (World : Type) : Type := {
  openai_chat : JsValue -> T World string;
  llm_generateResponse : JsValue -> JsValue -> string -> JsValue -> T World string;
  lc_processPDF : string -> JsValue -> T World JsValue;
  lc_processCSV : string -> JsValue -> T World JsValue;
  lc_scrapeURL : string -> JsValue -> T World JsValue;
  lc_createPineconeStore : string -> string -> string -> T World JsValue;
  lc_createWeaviateStore : string -> string -> T World JsValue;
  lc_chatWithOpenAI : JsValue -> JsValue -> JsValue -> JsValue -> T World JsValue;
  lc_chatWithAnthropic : JsValue -> JsValue -> JsValue -> T World JsValue;
  lc_createConversationMemory : string -> JsValue -> T World JsValue;
  lc_webSearch : string -> JsValue -> JsValue -> T World JsValue;
  lc_executeCode : string -> JsValue -> JsValue -> T World JsValue;
  (** [new Function('context', 'previousResults', body)(variables, previousResults)] *)
  run_function : string -> JsValue -> JsValue -> M World JsValue;
  (** [new Date()], as its ISO rendering *)
  now : World -> string * World;
  randomUUID : World -> string * World
}.
Arguments openai_chat {World}.
Arguments llm_generateResponse {World}.
Arguments lc_processPDF {World}.
Arguments lc_processCSV {World}.
Arguments lc_scrapeURL {World}.
Arguments lc_createPineconeStore {World}.
Arguments lc_createWeaviateStore {World}.
Arguments lc_chatWithOpenAI {World}.
Arguments lc_chatWithAnthropic {World}.
Arguments lc_createConversationMemory {World}.
Arguments lc_webSearch {World}.
Arguments lc_executeCode {World}.
Arguments run_function {World}.
Arguments now {World}.
Arguments randomUUID {World}.

(** ** Nodes, edges and handler results *)

(** [WorkflowNode]; [position] is cosmetic and never read by the engine.
    [data] is an object of its own, which no script is handed: the model
    holds its properties; the values of the properties are values like any
    other. *)
Record WorkflowNode : Type := {
  node_id : string;
  node_type : string;
  node_data : gmap string JsValue
}.

Record WorkflowEdge : Type := {
  edge_id : string;
  edge_source : string;
  edge_target : string;
  sourceHandle : option string;
  targetHandle : option string
}.

(** [NodeExecutionResult]; an absent [data] is [undefined], an absent
    [error] is [None]. *)
Record NodeExecutionResult : Type := {
  success : bool;
  data : JsValue;
  error : option string
}.

Definition succeeded (d : JsValue) : NodeExecutionResult :=
  {| success := true; data := d; error := None |}.

Definition failure (e : string) : NodeExecutionResult :=
  {| success := false; data := JUndefined; error := Some e |}.

(** [NodeTypeEnum] of the shared schema: the types [executeNode] switches
    on. *)
Definition NodeTypeEnum : list string :=
  ["webhook"; "manual"; "schedule"; "openai"; "agent"; "vector";
   "code"; "condition"; "merge"; "email"; "webhook-response"].

(** [node.data.k] *)
Definition field (node : WorkflowNode) (k : string) : JsValue :=
  default JUndefined (node_data node !! k).

(** A destructuring default [{ k = d }]: it applies to [undefined] only. *)
Definition default_to (v d : JsValue) : JsValue :=
  match v with
  | JUndefined => d
  | _ => v
  end.

(** The [error] of a service result, a string when there is one. *)
Definition error_of (v : JsValue) : option string :=
  match v with
  | JStr e => Some e
  | _ => None
  end.

(** ** Node handlers *)

Section Handlers.

Context (realm : Realm) {World : Type} (sv : Services World).

Local Open Scope engine_scope.

Definition interpolateTemplate_any (template : JsValue) (context : WorkflowContext)
    : M World string :=
  eval (fun h => interpolate_value realm h template context).

(** [ToString(v)] *)
Definition text_of (v : JsValue) : M World string :=
  eval (fun h => to_string h v).

(** [new Date().toISOString()] *)
Definition clock : M World string :=
  fun m =>
    let (t, w) := now sv (world m) in
    (Some (Ok t), {| heap := heap m; world := w |}).

Definition executeManualTrigger (node : WorkflowNode) (context : WorkflowContext)
    : M World NodeExecutionResult :=
  ret (succeeded (variables context)).

Definition executeWebhook (node : WorkflowNode) (context : WorkflowContext)
    : M World NodeExecutionResult :=
  ret (succeeded (variables context)).

Definition executeSchedule (node : WorkflowNode) (context : WorkflowContext)
    : M World NodeExecutionResult :=
  t <- clock ;;
  d <- new_object [("timestamp", JStr t)] ;;
  ret (succeeded d).

Definition executeOpenAI (node : WorkflowNode) (context : WorkflowContext)
    : M World NodeExecutionResult :=
  try_catch
    (let userMessage := field node "userMessage" in
     messages <-
       (if truthy userMessage
        then content <- interpolateTemplate_any userMessage context ;;
             message <- new_object [("role", JStr "user"); ("content", JStr content)] ;;
             ret [message]
        else ret []) ;;
     systemPrompt <-
       interpolateTemplate_any (Js.or (field node "systemPrompt") (JStr "")) context ;;
     messages <- new_array messages ;;
     options <-
       new_object [("model", Js.or (field node "model") (JStr "gpt-4o"));
                   ("temperature", Js.or (field node "temperature") (JNum "0.7"));
                   ("maxTokens", Js.or (field node "maxTokens") (JNum "150"));
                   ("systemPrompt", JStr systemPrompt);
                   ("messages", messages)] ;;
     response <- await (openai_chat sv options) ;;
     d <- new_object [("response", JStr response); ("rawOutput", JStr response)] ;;
     ret (succeeded d))
    (fun e => ret (failure (error_message e "OpenAI execution failed"))).

(** The service is handed the [previousResults] object, and the [context]
    entry of the result is that object too. *)
Definition executeAgent (node : WorkflowNode) (context : WorkflowContext)
    : M World NodeExecutionResult :=
  try_catch
    (let provider := default_to (field node "provider") (JStr "openai") in
     let model := default_to (field node "model") (JStr "gpt-4o") in
     interpolatedPrompt <-
       interpolateTemplate_any (Js.or (field node "prompt") (JStr "")) context ;;
     response <-
       await (llm_generateResponse sv provider model interpolatedPrompt
                (JObject (previousResults context))) ;;
     d <- new_object [("response", JStr response);
                      ("context", JObject (previousResults context));
                      ("provider", provider); ("model", model)] ;;
     ret (succeeded d))
    (fun e => ret (failure (error_message e "Agent execution failed"))).

Definition executeVectorSearch (node : WorkflowNode) (context : WorkflowContext)
    : M World NodeExecutionResult :=
  results <- new_array [] ;;
  d <- new_object [("results", results); ("query", field node "query")] ;;
  ret (succeeded d).

(** The [Function] constructor takes the string of [code]; the script is
    called with the two objects of the context. *)
Definition executeCode (node : WorkflowNode) (context : WorkflowContext)
    : M World NodeExecutionResult :=
  try_catch
    (let code := field node "code" in
     let language := field node "language" in
     if is_str language "javascript"
     then body <- text_of code ;;
          result <-
            run_function sv body (variables context)
              (JObject (previousResults context)) ;;
          ret (succeeded result)
     else name <- text_of language ;;
          ret (failure ("Unsupported language: " +:+ name)))
    (fun e => ret (failure (error_message e "Code execution failed"))).

Definition executeCondition (node : WorkflowNode) (context : WorkflowContext)
    : M World NodeExecutionResult :=
  try_catch
    (let condition := field node "condition" in
     expression <- text_of condition ;;
     result <-
       run_function sv ("return " +:+ expression) (variables context)
         (JObject (previousResults context)) ;;
     d <- new_object [("condition", result); ("originalCondition", condition)] ;;
     ret (succeeded d))
    (fun e => ret (failure (error_message e "Condition evaluation failed"))).

(** [merged] is the [previousResults] object itself. *)
Definition executeMerge (node : WorkflowNode) (context : WorkflowContext)
    : M World NodeExecutionResult :=
  d <- new_object [("merged", JObject (previousResults context))] ;;
  ret (succeeded d).

(** The three interpolations are the arguments of the [console.log] that
    stands for the delivery. *)
Definition executeEmail (node : WorkflowNode) (context : WorkflowContext)
    : M World NodeExecutionResult :=
  let to := field node "to" in
  let subject := field node "subject" in
  let body := field node "body" in
  _ <- interpolateTemplate_any (Js.or to (JStr "")) context ;;
  _ <- interpolateTemplate_any (Js.or subject (JStr "")) context ;;
  _ <- interpolateTemplate_any (Js.or body (JStr "")) context ;;
  d <- new_object [("sent", JBool true); ("to", to); ("subject", subject)] ;;
  ret (succeeded d).

Definition executeWebhookResponse (node : WorkflowNode) (context : WorkflowContext)
    : M World NodeExecutionResult :=
  let responseData := field node "responseData" in
  response <- interpolateTemplate_any (Js.or responseData (JStr "{}")) context ;;
  ret (succeeded (JStr response)).

(** *** LangChain nodes *)

Definition langChainNodeTypes : list string :=
  ["pdf-loader"; "csv-loader"; "url-scraper"; "pinecone-store"; "weaviate-store";
   "openai-chat"; "anthropic-chat"; "conversation-memory"; "web-search";
   "code-executor"].

(** [langChainNodeTypes.includes(node.data.type)] *)
Definition isLangChainNode (node : WorkflowNode) : bool :=
  existsb (is_str (field node "type")) langChainNodeTypes.

(** The shape every LangChain handler gives a service result:
    [if (result.success) { success: true, data: { ... } } else
    { success: false, error: result.error }]. *)
Definition from_service (result : JsValue) (payload : M World (list (string * JsValue)))
    : M World NodeExecutionResult :=
  ok <- read result "success" ;;
  if truthy ok
  then fields <- payload ;;
       d <- new_object fields ;;
       ret (succeeded d)
  else e <- read result "error" ;;
       ret {| success := false; data := JUndefined; error := error_of e |}.

Definition executePDFLoader (node : WorkflowNode) (context : WorkflowContext)
    (config : JsValue) : M World NodeExecutionResult :=
  try_catch
    (filePath <- read config "filePath" ;;
     filePath <- interpolateTemplate_any (Js.or filePath (JStr "")) context ;;
     pages <- read config "pages" ;;
     result <- await (lc_processPDF sv filePath pages) ;;
     from_service result
       (content <- read result "content" ;;
        metadata <- read result "metadata" ;;
        ret [("content", content); ("metadata", metadata);
             ("nodeType", JStr "pdf-loader")]))
    (fun e => ret (failure (error_message e "PDF loader execution failed"))).

Definition executeCSVLoader (node : WorkflowNode) (context : WorkflowContext)
    (config : JsValue) : M World NodeExecutionResult :=
  try_catch
    (filePath <- read config "filePath" ;;
     filePath <- interpolateTemplate_any (Js.or filePath (JStr "")) context ;;
     delimiter <- read config "delimiter" ;;
     result <- await (lc_processCSV sv filePath (Js.or delimiter (JStr ","))) ;;
     from_service result
       (content <- read result "content" ;;
        metadata <- read result "metadata" ;;
        ret [("content", content); ("metadata", metadata);
             ("nodeType", JStr "csv-loader")]))
    (fun e => ret (failure (error_message e "CSV loader execution failed"))).

Definition executeURLScraper (node : WorkflowNode) (context : WorkflowContext)
    (config : JsValue) : M World NodeExecutionResult :=
  try_catch
    (url <- read config "url" ;;
     url <- interpolateTemplate_any (Js.or url (JStr "")) context ;;
     selector <- read config "selector" ;;
     result <- await (lc_scrapeURL sv url selector) ;;
     from_service result
       (content <- read result "content" ;;
        metadata <- read result "metadata" ;;
        ret [("content", content); ("metadata", metadata);
             ("nodeType", JStr "url-scraper")]))
    (fun e => ret (failure (error_message e "URL scraper execution failed"))).

Definition executePineconeStore (node : WorkflowNode) (context : WorkflowContext)
    (config : JsValue) : M World NodeExecutionResult :=
  try_catch
    (apiKey <- read config "apiKey" ;;
     apiKey <- interpolateTemplate_any (Js.or apiKey (JStr "")) context ;;
     environment <- read config "environment" ;;
     environment <- interpolateTemplate_any (Js.or environment (JStr "")) context ;;
     indexName <- read config "indexName" ;;
     indexName <- interpolateTemplate_any (Js.or indexName (JStr "")) context ;;
     result <- await (lc_createPineconeStore sv apiKey environment indexName) ;;
     from_service result
       (vectorId <- read result "vectorId" ;;
        ret [("vectorStoreId", vectorId); ("nodeType", JStr "pinecone-store")]))
    (fun e => ret (failure (error_message e "Pinecone store execution failed"))).

Definition executeWeaviateStore (node : WorkflowNode) (context : WorkflowContext)
    (config : JsValue) : M World NodeExecutionResult :=
  try_catch
    (url <- read config "url" ;;
     url <- interpolateTemplate_any (Js.or url (JStr "")) context ;;
     className <- read config "className" ;;
     className <- interpolateTemplate_any (Js.or className (JStr "")) context ;;
     result <- await (lc_createWeaviateStore sv url className) ;;
     from_service result
       (vectorId <- read result "vectorId" ;;
        ret [("vectorStoreId", vectorId); ("nodeType", JStr "weaviate-store")]))
    (fun e => ret (failure (error_message e "Weaviate store execution failed"))).

(** The callback of [messages.map]:
    [{...msg, content: interpolateTemplate(msg.content || '', context)}]. *)
Definition interpolate_message (context : WorkflowContext) (msg : JsValue)
    : M World JsValue :=
  content <- read msg "content" ;;
  content <- interpolateTemplate_any (Js.or content (JStr "")) context ;;
  fun m =>
    let (l, h) := alloc_object (<["content" := JStr content]> (spread (heap m) msg)) (heap m) in
    (Some (Ok l), {| heap := h; world := world m |}).

(** [(config.messages || []).map(...)]; only an array has [map]. *)
Definition interpolate_messages (context : WorkflowContext) (config : JsValue)
    : M World JsValue :=
  messages <- read config "messages" ;;
  messages <- (if truthy messages then ret messages else new_array []) ;;
  match messages with
  | JArray l =>
      elements <- eval (fun h => Ok (items h l)) ;;
      interpolated <- mapM (interpolate_message context) elements ;;
      new_array interpolated
  | _ => throw (ThrowError "messages.map is not a function")
  end.

Definition executeOpenAIChat (node : WorkflowNode) (context : WorkflowContext)
    (config : JsValue) : M World NodeExecutionResult :=
  try_catch
    (interpolatedMessages <- interpolate_messages context config ;;
     model <- read config "model" ;;
     temperature <- read config "temperature" ;;
     maxTokens <- read config "maxTokens" ;;
     result <-
       await (lc_chatWithOpenAI sv interpolatedMessages
                (Js.or model (JStr "gpt-4o")) (Js.or temperature (JNum "0.7"))
                (Js.or maxTokens (JNum "1000"))) ;;
     from_service result
       (response <- read result "response" ;;
        ret [("response", response); ("nodeType", JStr "openai-chat")]))
    (fun e => ret (failure (error_message e "OpenAI chat execution failed"))).

Definition executeAnthropicChat (node : WorkflowNode) (context : WorkflowContext)
    (config : JsValue) : M World NodeExecutionResult :=
  try_catch
    (interpolatedMessages <- interpolate_messages context config ;;
     model <- read config "model" ;;
     temperature <- read config "temperature" ;;
     result <-
       await (lc_chatWithAnthropic sv interpolatedMessages
                (Js.or model (JStr "claude-3-5-sonnet-20241022"))
                (Js.or temperature (JNum "0.7"))) ;;
     from_service result
       (response <- read result "response" ;;
        ret [("response", response); ("nodeType", JStr "anthropic-chat")]))
    (fun e => ret (failure (error_message e "Anthropic chat execution failed"))).

Definition executeConversationMemory (node : WorkflowNode) (context : WorkflowContext)
    (config : JsValue) : M World NodeExecutionResult :=
  try_catch
    (memoryKey <- read config "memoryKey" ;;
     memoryKey <- interpolateTemplate_any (Js.or memoryKey (JStr "conversation")) context ;;
     maxTokens <- read config "maxTokens" ;;
     result <-
       await (lc_createConversationMemory sv memoryKey (Js.or maxTokens (JNum "2000"))) ;;
     from_service result
       (memoryId <- read result "memoryId" ;;
        ret [("memoryId", memoryId); ("nodeType", JStr "conversation-memory")]))
    (fun e => ret (failure (error_message e "Conversation memory execution failed"))).

Definition executeWebSearch (node : WorkflowNode) (context : WorkflowContext)
    (config : JsValue) : M World NodeExecutionResult :=
  try_catch
    (query <- read config "query" ;;
     query <- interpolateTemplate_any (Js.or query (JStr "")) context ;;
     searchEngine <- read config "searchEngine" ;;
     let searchEngine := Js.or searchEngine (JStr "google") in
     maxResults <- read config "maxResults" ;;
     result <- await (lc_webSearch sv query searchEngine (Js.or maxResults (JNum "5"))) ;;
     from_service result
       (results <- read result "results" ;;
        ret [("results", results); ("query", JStr query);
             ("searchEngine", searchEngine); ("nodeType", JStr "web-search")]))
    (fun e => ret (failure (error_message e "Web search execution failed"))).

Definition executeCodeExecutor (node : WorkflowNode) (context : WorkflowContext)
    (config : JsValue) : M World NodeExecutionResult :=
  try_catch
    (code <- read config "code" ;;
     code <- interpolateTemplate_any (Js.or code (JStr "")) context ;;
     language <- read config "language" ;;
     let language := Js.or language (JStr "python") in
     timeout <- read config "timeout" ;;
     result <- await (lc_executeCode sv code language (Js.or timeout (JNum "30"))) ;;
     from_service result
       (result <- read result "result" ;;
        ret [("result", result); ("language", language);
             ("nodeType", JStr "code-executor")]))
    (fun e => ret (failure (error_message e "Code executor execution failed"))).

Definition executeLangChainNode (node : WorkflowNode) (context : WorkflowContext)
    : M World NodeExecutionResult :=
  try_catch
    (let nodeType := field node "type" in
     config <- or_new_object (field node "config") ;;
     if is_str nodeType "pdf-loader" then executePDFLoader node context config
     else if is_str nodeType "csv-loader" then executeCSVLoader node context config
     else if is_str nodeType "url-scraper" then executeURLScraper node context config
     else if is_str nodeType "pinecone-store" then executePineconeStore node context config
     else if is_str nodeType "weaviate-store" then executeWeaviateStore node context config
     else if is_str nodeType "openai-chat" then executeOpenAIChat node context config
     else if is_str nodeType "anthropic-chat" then executeAnthropicChat node context config
     else if is_str nodeType "conversation-memory"
          then executeConversationMemory node context config
     else if is_str nodeType "web-search" then executeWebSearch node context config
     else if is_str nodeType "code-executor" then executeCodeExecutor node context config
     else name <- text_of nodeType ;;
          ret (failure ("Unsupported LangChain node type: " +:+ name)))
    (fun e => ret (failure (error_message e "LangChain node execution failed"))).

(** *** Dispatch *)

Definition executeNode (node : WorkflowNode) (context : WorkflowContext)
    : M World NodeExecutionResult :=
  if isLangChainNode node then executeLangChainNode node context
  else
    let type := node_type node in
    if String.eqb type "manual" then executeManualTrigger node context
    else if String.eqb type "webhook" then executeWebhook node context
    else if String.eqb type "schedule" then executeSchedule node context
    else if String.eqb type "openai" then executeOpenAI node context
    else if String.eqb type "agent" then executeAgent node context
    else if String.eqb type "vector" then executeVectorSearch node context
    else if String.eqb type "code" then executeCode node context
    else if String.eqb type "condition" then executeCondition node context
    else if String.eqb type "merge" then executeMerge node context
    else if String.eqb type "email" then executeEmail node context
    else if String.eqb type "webhook-response" then executeWebhookResponse node context
    else ret (failure ("Unknown node type: " +:+ type)).

(** ** Graph traversal *)

(** The state a traversal works on: the context object, the machine, and
    the list of handler invocations so far, each with the result the
    traversal saw.  The list is not in the source: it is the spy by which the
    properties below observe which handlers ran. *)
Record Run : Type := {
  run_context : WorkflowContext;
  run_machine : Machine World;
  run_calls : list (string * NodeExecutionResult)
}.

(** [edges.filter(edge => edge.source === node.id)] *)
Definition nextEdges (node : WorkflowNode) (edges : list WorkflowEdge)
    : list WorkflowEdge :=
  List.filter (fun edge => String.eqb (edge_source edge) (node_id node)) edges.

(** [allNodes.find(n => n.id === edge.target)] *)
Definition find_node (allNodes : list WorkflowNode) (edge : WorkflowEdge)
    : option WorkflowNode :=
  List.find (fun n => String.eqb (node_id n) (edge_target edge)) allNodes.

(** The loop [for (const edge of nextEdges)] of [executeFromNode], given the
    recursive call [rec] and the result of the current node: the first
    failing branch is returned at once, and [result] after the last edge.
    [None] is a branch that has not returned. *)
Fixpoint follow_edges (rec : WorkflowNode -> Run -> option NodeExecutionResult * Run)
    (allNodes : list WorkflowNode) (result : NodeExecutionResult)
    (es : list WorkflowEdge) (st : Run) : option NodeExecutionResult * Run :=
  match es with
  | [] => (Some result, st)
  | edge :: es' =>
      match find_node allNodes edge with
      | Some nextNode =>
          match rec nextNode st with
          | (Some nextResult, st') =>
              if negb (success nextResult) then (Some nextResult, st')
              else follow_edges rec allNodes result es' st'
          | (None, st') => (None, st')
          end
      | None => follow_edges rec allNodes result es' st
      end
  end.

(** The state after [executeNode] has been awaited: the handler is on the
    list with the result the traversal goes on with. *)
Definition called (node : WorkflowNode) (result : NodeExecutionResult)
    (m : Machine World) (st : Run) : Run :=
  {| run_context := run_context st;
     run_machine := m;
     run_calls := (run_calls st ++ [(node_id node, result)])%list |}.

(** The state after [context.previousResults[node.id] = result.data]. *)
Definition stored (node : WorkflowNode) (result : NodeExecutionResult) (st : Run)
    : Run :=
  {| run_context := run_context st;
     run_machine :=
       {| heap :=
            set_property (previousResults (run_context st)) (node_id node)
              (data result) (heap (run_machine st));
          world := world (run_machine st) |};
     run_calls := run_calls st |}.

(** The state in which a handler that never returns leaves the traversal. *)
Definition stuck (m : Machine World) (st : Run) : Run :=
  {| run_context := run_context st;
     run_machine := m;
     run_calls := run_calls st |}.

(** [executeFromNode].  The loop over the outgoing edges returns [result]
    when there is none, as the source does before the loop.  The recursion
    of the source is unbounded (it does not end on a cyclic graph), so the
    model counts the depth it may still descend: with no fuel left the call
    has not returned, [None], and the state is the one reached so far.  A
    call whose handler never returns has not returned either, whatever the
    fuel. *)
Fixpoint executeFromNode (fuel : nat) (node : WorkflowNode)
    (allNodes : list WorkflowNode) (edges : list WorkflowEdge) (st : Run)
    : option NodeExecutionResult * Run :=
  match fuel with
  | O => (None, st)
  | S fuel' =>
      let (r, m) := executeNode node (run_context st) (run_machine st) in
      match r with
      | Some (Ok result) =>
          let st1 := called node result m st in
          if negb (success result) then (Some result, st1)
          else
            follow_edges (fun n s => executeFromNode fuel' n allNodes edges s)
              allNodes result (nextEdges node edges)
              (stored node result st1)
      | Some (Throw e) =>
          let result := failure (error_message e "Unknown error") in
          (Some result, called node result m st)
      | None => (None, stuck m st)
      end
  end.

End Handlers.

Arguments Run World : clear implicits.

(** ** Storage and the execution lifecycle *)

(** A row of [workflowExecutions]; [status] is a text column
    (['running'], ['completed'], ['failed'], ['cancelled']), a date is its
    ISO rendering, [null] is [None].  [input] and [output] are the values
    they were given: an object is the object itself, not a copy of it. *)
Record WorkflowExecution : Type := {
  exec_id : string;
  exec_workflowId : string;
  exec_status : string;
  exec_input : JsValue;
  exec_output : JsValue;
  exec_error : option string;
  exec_executionTime : string;
  exec_completedAt : option string
}.

Record InsertWorkflowExecution : Type := {
  insert_workflowId : string;
  insert_input : JsValue
}.

(** The [Partial<WorkflowExecution>] objects the engine passes to
    [updateWorkflowExecution]: [None] is a key the object does not have. *)
Record ExecutionUpdates : Type := {
  upd_status : option string;
  upd_output : option JsValue;
  upd_error : option string;
  upd_completedAt : option string
}.

(** What the engine asked of the storage, in order. *)
Inductive StorageCall : Type :=
  | CreateExecution (id : string)
  | UpdateExecution (id : string) (updates : ExecutionUpdates)
  | GetExecution (id : string).

(** [MemStorage], as far as executions are concerned: the map
    [workflowExecutions], and the calls received (kept for the properties
    below, not in the source). *)
Record MemStorage : Type := {
  workflowExecutions : gmap string WorkflowExecution;
  storage_calls : list StorageCall
}.

(** [{...execution, ...updates}] *)
Definition apply_updates (execution : WorkflowExecution) (updates : ExecutionUpdates)
    : WorkflowExecution :=
  {| exec_id := exec_id execution;
     exec_workflowId := exec_workflowId execution;
     exec_status := default (exec_status execution) (upd_status updates);
     exec_input := exec_input execution;
     exec_output := default (exec_output execution) (upd_output updates);
     exec_error :=
       match upd_error updates with
       | Some e => Some e
       | None => exec_error execution
       end;
     exec_executionTime := exec_executionTime execution;
     exec_completedAt :=
       match upd_completedAt updates with
       | Some t => Some t
       | None => exec_completedAt execution
       end |}.

(** The system [executeWorkflow] runs in. *)
Record Sys (World : Type) : Type := {
  sys_machine : Machine World;
  sys_storage : MemStorage
}.
Arguments sys_machine {World}.
Arguments sys_storage {World}.

(** How a call of [executeWorkflow] stands: it returned, it threw, or it has
    not come back. *)
Inductive Outcome : Type :=
  | Returned (execution : WorkflowExecution)
  | Threw (e : Thrown)
  | Pending.

(** What is observed of a call: its outcome, the system it leaves, the
    context it built and the handlers it invoked. *)
Record Observed (World : Type) : Type := {
  outcome : Outcome;
  final_sys : Sys World;
  final_context : WorkflowContext;
  handler_calls : list (string * NodeExecutionResult)
}.
Arguments outcome {World}.
Arguments final_sys {World}.
Arguments final_context {World}.
Arguments handler_calls {World}.

(** [v || {}] on a heap. *)
Definition or_object (v : JsValue) (h : Heap) : JsValue * Heap :=
  if truthy v then (v, h) else alloc_object ∅ h.

Section Lifecycle.

Context (realm : Realm) {World : Type} (sv : Services World).

Definition createWorkflowExecution (insertExecution : InsertWorkflowExecution)
    (s : Sys World) : WorkflowExecution * Sys World :=
  let (id, w1) := randomUUID sv (world (sys_machine s)) in
  let (input, h1) := or_object (insert_input insertExecution) (heap (sys_machine s)) in
  let (t, w2) := now sv w1 in
  let execution :=
    {| exec_id := id;
       exec_workflowId := insert_workflowId insertExecution;
       exec_input := input;
       exec_output := JNull;
       exec_status := "running";
       exec_error := None;
       exec_executionTime := t;
       exec_completedAt := None |} in
  (execution,
   {| sys_machine := {| heap := h1; world := w2 |};
      sys_storage :=
        {| workflowExecutions :=
             <[id := execution]> (workflowExecutions (sys_storage s));
           storage_calls :=
             (storage_calls (sys_storage s) ++ [CreateExecution id])%list |} |}).

Definition updateWorkflowExecution (id : string) (updates : ExecutionUpdates)
    (s : Sys World) : option WorkflowExecution * Sys World :=
  let calls := (storage_calls (sys_storage s) ++ [UpdateExecution id updates])%list in
  match workflowExecutions (sys_storage s) !! id with
  | None =>
      (None,
       {| sys_machine := sys_machine s;
          sys_storage :=
            {| workflowExecutions := workflowExecutions (sys_storage s);
               storage_calls := calls |} |})
  | Some execution =>
      let updatedExecution := apply_updates execution updates in
      (Some updatedExecution,
       {| sys_machine := sys_machine s;
          sys_storage :=
            {| workflowExecutions :=
                 <[id := updatedExecution]> (workflowExecutions (sys_storage s));
               storage_calls := calls |} |})
  end.

Definition getWorkflowExecution (id : string) (s : Sys World)
    : option WorkflowExecution * Sys World :=
  (workflowExecutions (sys_storage s) !! id,
   {| sys_machine := sys_machine s;
      sys_storage :=
        {| workflowExecutions := workflowExecutions (sys_storage s);
           storage_calls :=
             (storage_calls (sys_storage s) ++ [GetExecution id])%list |} |}).

(** [nodes.filter(node => !edges.some(edge => edge.target === node.id))] *)
Definition startNodes (nodes : list WorkflowNode) (edges : list WorkflowEdge)
    : list WorkflowNode :=
  List.filter
    (fun node =>
       negb (existsb (fun edge => String.eqb (edge_target edge) (node_id node)) edges))
    nodes.

(** [new Date()] between two steps of [executeWorkflow]. *)
Definition tick (m : Machine World) : string * Machine World :=
  let (t, w) := now sv (world m) in (t, {| heap := heap m; world := w |}).

(** The [catch] block of [executeWorkflow]: record the failure, rethrow. *)
Definition fail_execution (execution : WorkflowExecution) (e : Thrown)
    (context : WorkflowContext) (calls : list (string * NodeExecutionResult))
    (s : Sys World) : Observed World :=
  let (t, m) := tick (sys_machine s) in
  let (_, s') :=
    updateWorkflowExecution (exec_id execution)
      {| upd_status := Some "failed";
         upd_output := None;
         upd_error := Some (error_message e "Unknown error");
         upd_completedAt := Some t |}
      {| sys_machine := m; sys_storage := sys_storage s |} in
  {| outcome := Threw e; final_sys := s';
     final_context := context; handler_calls := calls |}.

(** The state in which [executeWorkflow] starts the traversal: the record
    is created with [input || {}], and the context is built with
    [input || {}] (the same object when [input] is truthy, another new
    object when it is not) and a new object for the results. *)
Definition create_run (workflowId : string) (input : JsValue) (s : Sys World)
    : WorkflowExecution * MemStorage * Run World :=
  let (input1, h1) := or_object input (heap (sys_machine s)) in
  let (execution, s1) :=
    createWorkflowExecution
      {| insert_workflowId := workflowId; insert_input := input1 |}
      {| sys_machine := {| heap := h1; world := world (sys_machine s) |};
         sys_storage := sys_storage s |} in
  let (vars, h2) := or_object input (heap (sys_machine s1)) in
  let (results, h3) := alloc_object ∅ h2 in
  (execution, sys_storage s1,
   {| run_context :=
        {| executionId := exec_id execution;
           variables := vars;
           previousResults := fresh h2 |};
      run_machine := {| heap := h3; world := world (sys_machine s1) |};
      run_calls := [] |}).

(** [executeWorkflow(workflowId, nodes, edges, input)]; [fuel] bounds the
    depth of the traversal as in [executeFromNode]. *)
Definition executeWorkflow (fuel : nat) (workflowId : string)
    (nodes : list WorkflowNode) (edges : list WorkflowEdge) (input : JsValue)
    (s : Sys World) : Observed World :=
  let '(execution, storage, run0) := create_run workflowId input s in
  match startNodes nodes edges with
  | [] =>
      fail_execution execution (ThrowError "No start node found in workflow")
        (run_context run0) []
        {| sys_machine := run_machine run0; sys_storage := storage |}
  | start :: _ =>
      match executeFromNode realm sv fuel start nodes edges run0 with
      | (None, run) =>
          {| outcome := Pending;
             final_sys := {| sys_machine := run_machine run; sys_storage := storage |};
             final_context := run_context run;
             handler_calls := run_calls run |}
      | (Some result, run) =>
          let (t, m) := tick (run_machine run) in
          let (_, s2) :=
            updateWorkflowExecution (exec_id execution)
              {| upd_status := Some "completed";
                 upd_output := Some (data result);
                 upd_error := None;
                 upd_completedAt := Some t |}
              {| sys_machine := m; sys_storage := storage |} in
          let (found, s3) := getWorkflowExecution (exec_id execution) s2 in
          {| outcome := Returned (default execution found);
             final_sys := s3;
             final_context := run_context run;
             handler_calls := run_calls run |}
      end
  end.

End Lifecycle.

(** ** A test bench *)

Module Bench.

(** The text that V8 gives a built-in function. *)
Definition native (name : string) : Member :=
  Native ("function " +:+ name +:+ "() { [native code] }").

(** The members of [Object.prototype]. *)
Definition object_members : list string :=
  ["constructor"; "__defineGetter__"; "__defineSetter__"; "hasOwnProperty";
   "__lookupGetter__"; "__lookupSetter__"; "isPrototypeOf";
   "propertyIsEnumerable"; "toString"; "valueOf"; "__proto__"; "toLocaleString"].

Definition array_members : list string :=
  ["at"; "concat"; "copyWithin"; "entries"; "every"; "fill"; "filter"; "find";
   "findIndex"; "findLast"; "findLastIndex"; "flat"; "flatMap"; "forEach";
   "includes"; "indexOf"; "join"; "keys"; "lastIndexOf"; "map"; "pop"; "push";
   "reduce"; "reduceRight"; "reverse"; "shift"; "slice"; "some"; "sort";
   "splice"; "toReversed"; "toSorted"; "toSpliced"; "unshift"; "values"; "with"].

Definition string_members : list string :=
  ["at"; "charAt"; "charCodeAt"; "codePointAt"; "concat"; "endsWith";
   "includes"; "indexOf"; "isWellFormed"; "lastIndexOf"; "localeCompare";
   "match"; "matchAll"; "normalize"; "padEnd"; "padStart"; "repeat"; "replace";
   "replaceAll"; "search"; "slice"; "split"; "startsWith"; "substr";
   "substring"; "toLocaleLowerCase"; "toLocaleUpperCase"; "toLowerCase";
   "toUpperCase"; "toWellFormed"; "trim"; "trimEnd"; "trimStart"; "anchor";
   "big"; "blink"; "bold"; "fixed"; "fontcolor"; "fontsize"; "italics"; "link";
   "small"; "strike"; "sub"; "sup"].

Definition number_members : list string :=
  ["toExponential"; "toFixed"; "toPrecision"].

(** The name of the constructor of a kind, and the text of its prototype,
    which is what [__proto__] gives. *)
Definition constructor_name (kind : Kind) : string :=
  match kind with
  | KObject => "Object"
  | KArray => "Array"
  | KString => "String"
  | KNumber => "Number"
  | KBoolean => "Boolean"
  end.

Definition prototype_text (kind : Kind) : string :=
  match kind with
  | KObject => "[object Object]"
  | KArray => ""
  | KString => ""
  | KNumber => "0"
  | KBoolean => "false"
  end.

Definition own_members (kind : Kind) : list string :=
  match kind with
  | KObject => []
  | KArray => array_members
  | KString => string_members
  | KNumber => number_members
  | KBoolean => []
  end.

Definition has_name (key : string) (names : list string) : bool :=
  existsb (String.eqb key) names.

(** The realm of Node.js 20, for string keys. *)
Definition realm : Realm :=
  {| inherited kind key :=
       if String.eqb key "constructor" then Some (native (constructor_name kind))
       else if String.eqb key "__proto__" then Some (Native (prototype_text kind))
       else if String.eqb key "trimLeft" && has_name "trimStart" (own_members kind)
       then Some (native "trimStart")
       else if String.eqb key "trimRight" && has_name "trimEnd" (own_members kind)
       then Some (native "trimEnd")
       else if has_name key (own_members kind) || has_name key object_members
       then Some (native key)
       else None |}.

(** A world with nothing in it, a clock stopped at one instant, one id, and
    services that answer as a test double would. *)
Definition clock : string := "2024-01-01T00:00:00.000Z".

(** A service that answers with a new object. *)
Definition answer (l : list (string * JsValue)) : T unit JsValue :=
  fun m =>
    let (v, h) := alloc_object (list_to_map l) (heap m) in
    (Ok v, {| heap := h; world := world m |}).

Definition services (chat : Exc string) : Services unit :=
  {| openai_chat := fun _ m => (chat, m);
     llm_generateResponse := fun _ _ _ _ m => (chat, m);
     lc_processPDF := fun _ _ => answer [("success", JBool false)];
     lc_processCSV := fun _ _ => answer [("success", JBool false)];
     lc_scrapeURL := fun _ _ => answer [("success", JBool false)];
     lc_createPineconeStore := fun _ _ _ => answer [("success", JBool false)];
     lc_createWeaviateStore := fun _ _ => answer [("success", JBool false)];
     lc_chatWithOpenAI := fun _ _ _ _ =>
       match chat with
       | Ok response => answer [("success", JBool true); ("response", JStr response)]
       | Throw e =>
           answer [("success", JBool false);
                   ("error", JStr (error_message e "Unknown error"))]
       end;
     lc_chatWithAnthropic := fun _ _ _ => answer [("success", JBool false)];
     lc_createConversationMemory := fun _ _ => answer [("success", JBool false)];
     lc_webSearch := fun _ _ _ => answer [("success", JBool false)];
     lc_executeCode := fun _ _ _ => answer [("success", JBool false)];
     run_function := fun _ _ _ => ret JUndefined;
     now := fun w => (clock, w);
     randomUUID := fun w => ("execution-1", w) |}.

(** [delete o.k] *)
Definition delete_property (v : JsValue) (k : string) (h : Heap) : Heap :=
  match v with
  | JObject l =>
      {| objects := <[l := delete k (props h l)]> (objects h);
         arrays := arrays h;
         fresh := fresh h |}
  | _ => h
  end.

(** [o.k = x] *)
Definition assign (v : JsValue) (k : string) (x : JsValue) (h : Heap) : Heap :=
  match v with
  | JObject l => set_property l k x h
  | _ => h
  end.

(** Three scripts, and what running them does. *)
Definition forgetful_script : string :=
  "delete previousResults.A; throw new Error('boom')".

Definition injecting_script : string := "context.injected = 1".

Definition endless_script : string := "while (true) {}".

Definition run_script (body : string) (variables previousResults : JsValue)
    : M unit JsValue :=
  fun m =>
    if String.eqb body forgetful_script
    then (Some (Throw (ThrowError "boom")),
          {| heap := delete_property previousResults "A" (heap m); world := world m |})
    else if String.eqb body injecting_script
    then (Some (Ok JUndefined),
          {| heap := assign variables "injected" (JNum "1") (heap m); world := world m |})
    else if String.eqb body endless_script
    then (None, m)
    else (Some (Ok JUndefined), m).

(** The services above, with a [Function] constructor that knows the three
    scripts. *)
Definition scripted : Services unit :=
  {| openai_chat := openai_chat (services (Ok ""));
     llm_generateResponse := llm_generateResponse (services (Ok ""));
     lc_processPDF := lc_processPDF (services (Ok ""));
     lc_processCSV := lc_processCSV (services (Ok ""));
     lc_scrapeURL := lc_scrapeURL (services (Ok ""));
     lc_createPineconeStore := lc_createPineconeStore (services (Ok ""));
     lc_createWeaviateStore := lc_createWeaviateStore (services (Ok ""));
     lc_chatWithOpenAI := lc_chatWithOpenAI (services (Ok ""));
     lc_chatWithAnthropic := lc_chatWithAnthropic (services (Ok ""));
     lc_createConversationMemory := lc_createConversationMemory (services (Ok ""));
     lc_webSearch := lc_webSearch (services (Ok ""));
     lc_executeCode := lc_executeCode (services (Ok ""));
     run_function := run_script;
     now := now (services (Ok ""));
     randomUUID := randomUUID (services (Ok "")) |}.

(** The objects of the bench: the input [{message: "hi"}] at 0; the
    [config] of the chat node of the scenario at 1, its [messages] at 2 and
    the message at 3; an object without properties at 4. *)
Definition bench_heap : Heap :=
  {| objects :=
       {[ 0 := {[ "message" := JStr "hi" ]};
          1 := {[ "messages" := JArray 2 ]};
          3 := {[ "role" := JStr "user"; "content" := JStr "{{message}}" ]};
          4 := ∅ ]};
     arrays := {[ 2 := [JObject 3] ]};
     fresh := 5 |}.

Definition machine : Machine unit := {| heap := bench_heap; world := tt |}.

Definition empty_sys : Sys unit :=
  {| sys_machine := machine;
     sys_storage := {| workflowExecutions := ∅; storage_calls := [] |} |}.

Definition node (id type : string) (d : list (string * JsValue)) : WorkflowNode :=
  {| node_id := id; node_type := type; node_data := list_to_map d |}.

Definition edge (source target : string) : WorkflowEdge :=
  {| edge_id := source +:+ "->" +:+ target;
     edge_source := source; edge_target := target;
     sourceHandle := None; targetHandle := None |}.

(** A linear chain A -> B -> C whose middle node is an [openai] node. *)
Definition chain_nodes : list WorkflowNode :=
  [node "A" "manual" []; node "B" "openai" []; node "C" "webhook-response" []].

Definition chain_edges : list WorkflowEdge := [edge "A" "B"; edge "B" "C"].

(** The same chain, whose middle node runs a script. *)
Definition script_chain (body : string) : list WorkflowNode :=
  [node "A" "manual" [];
   node "B" "code" [("language", JStr "javascript"); ("code", JStr body)];
   node "C" "webhook-response" []].

(** The scenario of the specification: a manual trigger, a LangChain
    [openai-chat] node, a webhook response that interpolates
    [{{response}}]. *)
Definition scenario_nodes : list WorkflowNode :=
  [node "manual-trigger" "manual" [];
   node "openai-chat" "langchain" [("type", JStr "openai-chat"); ("config", JObject 1)];
   node "webhook-response" "webhook-response" [("responseData", JStr "{{response}}")]].

Definition scenario_edges : list WorkflowEdge :=
  [edge "manual-trigger" "openai-chat"; edge "openai-chat" "webhook-response"].

Definition scenario_input : JsValue := JObject 0.

(** A diamond: A -> B -> D and A -> C -> D. *)
Definition diamond_nodes : list WorkflowNode :=
  [node "A" "manual" []; node "B" "manual" []; node "C" "manual" [];
   node "D" "manual" []].

Definition diamond_edges : list WorkflowEdge :=
  [edge "A" "B"; edge "A" "C"; edge "B" "D"; edge "C" "D"].

(** A start node followed by a node with an edge to itself. *)
Definition loop_nodes : list WorkflowNode :=
  [node "A" "manual" []; node "B" "manual" []].

Definition loop_edges : list WorkflowEdge := [edge "A" "B"; edge "B" "B"].

(** Two nodes, each the target of the other's edge. *)
Definition ring_nodes : list WorkflowNode :=
  [node "A" "manual" []; node "B" "manual" []].

Definition ring_edges : list WorkflowEdge := [edge "A" "B"; edge "B" "A"].

(** A context whose variables are the input of the bench and whose results
    are the object without properties. *)
Definition hi_context : WorkflowContext :=
  {| executionId := "execution-1";
     variables := scenario_input;
     previousResults := 4 |}.

(** A heap and a context in which [n] is bound to zero. *)
Definition zero_heap : Heap :=
  {| objects := {[ 0 := {[ "n" := JNum "0" ]}; 1 := ∅ ]};
     arrays := ∅;
     fresh := 2 |}.

Definition zero_context : WorkflowContext :=
  {| executionId := "execution-1";
     variables := JObject 0;
     previousResults := 1 |}.

End Bench.


(** ** What interpolation is specified to do *)

(** An identifier: one or more word characters. *)
Fixpoint all_word (s : string) : bool :=
  match s with
  | EmptyString => true
  | String c s' => is_word_char c && all_word s'
  end.

Definition is_identifier (key : string) : bool :=
  negb (String.eqb key "") && all_word key.

(** Two texts one after the other, and a character before a text, when the
    texts may have thrown: the first throw is the one that is seen. *)
Definition exc_app (a b : Exc string) : Exc string :=
  (x <- a ;; y <- b ;; Ok (x +:+ y))%exc.

Definition exc_cons (c : ascii) (r : Exc string) : Exc string :=
  (y <- r ;; Ok (String c y))%exc.

(** What a token becomes: the string of the first truthy value among
    [variables[key]] and [previousResults[key]], and the token itself when
    neither is truthy; a lookup or a conversion that throws makes the
    substitution throw. *)
Definition substitution (realm : Realm) (h : Heap) (context : WorkflowContext)
    (key : string) : Exc string :=
  (a <- Js.get realm h (variables context) key ;;
   if truthy_member a then member_string h a
   else b <- Js.get realm h (JObject (previousResults context)) key ;;
        if truthy_member b then member_string h b else Ok (token key))%exc.

(** [Renders sub template out]: [out] is [template] with every token, taken
    left to right, replaced by [sub] of its identifier and every other
    character copied; it is what the first substitution that throws has
    thrown, if one does. *)
Inductive Renders (sub : string -> Exc string) : string -> Exc string -> Prop :=
  | renders_end : Renders sub "" (Ok "")
  | renders_token key rest out :
      is_identifier key = true ->
      Renders sub rest out ->
      Renders sub (token key +:+ rest) (exc_app (sub key) out)
  | renders_char c rest out :
      (forall key rest', is_identifier key = true ->
         String c rest <> token key +:+ rest') ->
      Renders sub rest out ->
      Renders sub (String c rest) (exc_cons c out).

(** Interpolation as the specification words it: an identifier that is
    found in [variables], or else in [previousResults], is replaced by the
    string representation of what it is bound to; one found in neither is
    left as it is. *)
Definition found_substitution (h : Heap) (context : WorkflowContext) (key : string)
    : Exc string :=
  match Js.own h (variables context) key with
  | Some v => to_string h v
  | None =>
      match props h (previousResults context) !! key with
      | Some v => to_string h v
      | None => Ok (token key)
      end
  end.

Definition interpolate_as_specified (h : Heap) (template : string)
    (context : WorkflowContext) : Exc string :=
  replace_all (fun _ key => found_substitution h context key) template.

(** The identifiers of the tokens of a text, left to right. *)
Fixpoint tokens_fuel (fuel : nat) (s : string) : list string :=
  match fuel with
  | O => []
  | S fuel' =>
      match match_token s with
      | Some (key, rest) => key :: tokens_fuel fuel' rest
      | None =>
          match s with
          | EmptyString => []
          | String _ s' => tokens_fuel fuel' s'
          end
      end
  end.

Definition tokens (s : string) : list string := tokens_fuel (S (String.length s)) s.

(** An identifier that neither [variables] nor [previousResults] gives a
    truthy value, own or inherited. *)
Definition unbound (realm : Realm) (h : Heap) (context : WorkflowContext)
    (key : string) : Prop :=
  exists a b,
    Js.get realm h (variables context) key = Ok a /\ truthy_member a = false /\
    Js.get realm h (JObject (previousResults context)) key = Ok b /\
    truthy_member b = false.

(** No opening brace anywhere in the text. *)
Fixpoint no_open_brace (s : string) : bool :=
  match s with
  | EmptyString => true
  | String c s' => negb (Ascii.eqb c "{") && no_open_brace s'
  end.

(** ** Interpolation: proofs *)

Section StringFacts.

Lemma append_nil (b : string) : "" +:+ b = b.
Proof. reflexivity. Qed.

Lemma append_cons (x : ascii) (a b : string) :
  String x a +:+ b = String x (a +:+ b).
Proof. reflexivity. Qed.

Lemma append_nil_r (a : string) : a +:+ "" = a.
Proof.
  induction a as [|x a IH]; [reflexivity|]. now rewrite append_cons, IH.
Qed.

Lemma append_assoc (a b c : string) : (a +:+ b) +:+ c = a +:+ (b +:+ c).
Proof.
  induction a as [|x a IH]; [reflexivity|].
  rewrite !append_cons. f_equal. exact IH.
Qed.

Lemma length_append (a b : string) :
  String.length (a +:+ b) = String.length a + String.length b.
Proof.
  induction a as [|x a IH]; [reflexivity|].
  rewrite append_cons. simpl. f_equal. exact IH.
Qed.

Lemma token_unfold (key rest : string) :
  token key +:+ rest = String "{" (String "{" (key +:+ String "}" (String "}" rest))).
Proof.
  unfold token. rewrite !append_cons, append_nil. do 2 f_equal.
  rewrite append_assoc. reflexivity.
Qed.

Lemma exc_app_nil (b : Exc string) : exc_app (Ok "") b = b.
Proof. now destruct b. Qed.

Lemma exc_app_cons (c : ascii) (a b : Exc string) :
  exc_app (exc_cons c a) b = exc_cons c (exc_app a b).
Proof. destruct a as [x|e], b as [y|e']; reflexivity. Qed.

Lemma exc_app_assoc (a b c : Exc string) :
  exc_app (exc_app a b) c = exc_app a (exc_app b c).
Proof.
  destruct a as [x|e], b as [y|e'], c as [z|e'']; simpl; try reflexivity.
  now rewrite append_assoc.
Qed.

End StringFacts.

(** [take_word] splits its argument, and the first part is all word
    characters. *)
Lemma take_word_split (s w r : string) :
  take_word s = (w, r) -> s = w +:+ r /\ all_word w = true.
Proof.
  revert w r. induction s as [|c s IH]; intros w r; simpl.
  - intros [= <- <-]. split; reflexivity.
  - destruct (is_word_char c) eqn:Hc.
    + destruct (take_word s) as [w' r'] eqn:Hs. intros [= <- <-].
      destruct (IH _ _ eq_refl) as [-> Hw]. simpl. rewrite Hc, Hw. split; reflexivity.
    + intros [= <- <-]. split; reflexivity.
Qed.

(** The word stops at the first character that is not a word character. *)
Lemma take_word_stop (w r : string) :
  all_word w = true ->
  match r with
  | String c _ => is_word_char c = false
  | EmptyString => True
  end ->
  take_word (w +:+ r) = (w, r).
Proof.
  intros Hw Hr. induction w as [|x w IH].
  - rewrite append_nil. destruct r as [|c r]; [reflexivity|]. simpl. now rewrite Hr.
  - simpl in Hw. apply andb_true_iff in Hw as [Hx Hw].
    rewrite append_cons. simpl. now rewrite Hx, (IH Hw).
Qed.

(** A match is exactly a token at the head of the text. *)
Lemma match_token_Some (s key rest : string) :
  match_token s = Some (key, rest) <->
  is_identifier key = true /\ s = token key +:+ rest.
Proof.
  rewrite token_unfold. split.
  - unfold match_token.
    destruct s as [|a s]; [discriminate|].
    destruct (decide (a = "{"%char)) as [->|Ha];
      [|destruct a as [[] [] [] [] [] [] [] []]; try discriminate; now contradict Ha].
    destruct s as [|b s]; [discriminate|].
    destruct (decide (b = "{"%char)) as [->|Hb];
      [|destruct b as [[] [] [] [] [] [] [] []]; try discriminate; now contradict Hb].
    destruct (take_word s) as [w r] eqn:Hw.
    destruct (take_word_split _ _ _ Hw) as [-> Hall].
    destruct w as [|c w]; [discriminate|].
    destruct r as [|x r]; [discriminate|].
    destruct (decide (x = "}"%char)) as [->|Hx];
      [|destruct x as [[] [] [] [] [] [] [] []]; try discriminate; now contradict Hx].
    destruct r as [|y r]; [discriminate|].
    destruct (decide (y = "}"%char)) as [->|Hy];
      [|destruct y as [[] [] [] [] [] [] [] []]; try discriminate; now contradict Hy].
    intros [= <- <-]. split; [|reflexivity].
    unfold is_identifier. now rewrite Hall.
  - intros [Hid ->]. unfold is_identifier in Hid.
    apply andb_true_iff in Hid as [Hne Hall].
    unfold match_token.
    rewrite (take_word_stop key (String "}" (String "}" rest)) Hall); [|reflexivity].
    destruct key; [discriminate|reflexivity].
Qed.

Lemma match_token_shorter (s key rest : string) :
  match_token s = Some (key, rest) -> String.length rest < String.length s.
Proof.
  intros [_ ->]%match_token_Some. rewrite token_unfold. simpl.
  rewrite length_append. simpl. lia.
Qed.

(** Fuel beyond the length of the text changes nothing. *)
Lemma replace_tokens_fuel (f : string -> string -> Exc string) (n m : nat) (s : string) :
  String.length s < n -> String.length s < m ->
  replace_tokens n f s = replace_tokens m f s.
Proof.
  revert m s. induction n as [|n IH]; intros m s Hn Hm; [lia|].
  destruct m as [|m]; [lia|]. simpl.
  destruct (match_token s) as [[key rest]|] eqn:Hs.
  - apply match_token_shorter in Hs. rewrite (IH m rest) by lia. reflexivity.
  - destruct s as [|c s]; [reflexivity|]. simpl in Hn, Hm.
    rewrite (IH m s) by lia. reflexivity.
Qed.

(** One step of the scan. *)
Lemma replace_all_step (f : string -> string -> Exc string) (s : string) :
  replace_all f s =
  match match_token s with
  | Some (key, rest) => exc_app (f (token key) key) (replace_all f rest)
  | None =>
      match s with
      | EmptyString => Ok ""
      | String c s' => exc_cons c (replace_all f s')
      end
  end.
Proof.
  unfold replace_all at 1. simpl.
  destruct (match_token s) as [[key rest]|] eqn:Hs.
  - apply match_token_shorter in Hs. unfold exc_app, replace_all.
    rewrite (replace_tokens_fuel f (String.length s) (S (String.length rest))) by lia.
    reflexivity.
  - destruct s as [|c s]; reflexivity.
Qed.

Lemma replace_all_token (f : string -> string -> Exc string) (key post : string) :
  is_identifier key = true ->
  replace_all f (token key +:+ post) = exc_app (f (token key) key) (replace_all f post).
Proof.
  intros Hid. rewrite replace_all_step.
  now rewrite (proj2 (match_token_Some _ key post) (conj Hid eq_refl)).
Qed.

(** The scan produces the specified rendering. *)
Lemma replace_all_renders (f : string -> string -> Exc string) (s : string) :
  Renders (fun key => f (token key) key) s (replace_all f s).
Proof.
  remember (String.length s) as n eqn:Hn. revert s Hn.
  induction n as [n IH] using lt_wf_ind. intros s ->.
  rewrite replace_all_step.
  destruct (match_token s) as [[key rest]|] eqn:Hs.
  - pose proof (match_token_shorter _ _ _ Hs) as Hlt.
    apply match_token_Some in Hs as [Hid ->].
    apply (renders_token (fun key => f (token key) key)); [exact Hid|].
    eapply IH; [exact Hlt | reflexivity].
  - destruct s as [|c s]; [constructor|].
    constructor.
    + intros key rest' Hid Heq.
      rewrite (proj2 (match_token_Some _ key rest') (conj Hid Heq)) in Hs.
      discriminate.
    + eapply IH; [|reflexivity]. simpl. lia.
Qed.

(** What a text renders to is determined: it is what the scan gives. *)
Lemma Renders_replace_all (sub : string -> Exc string) (s : string) (a : Exc string) :
  Renders sub s a -> a = replace_all (fun _ key => sub key) s.
Proof.
  induction 1 as [|key rest out Hid _ IH|c rest out Hno _ IH].
  - reflexivity.
  - rewrite replace_all_token by exact Hid. now rewrite IH.
  - rewrite replace_all_step.
    destruct (match_token (String c rest)) as [[key rest']|] eqn:Hm.
    + apply match_token_Some in Hm as [Hid Heq]. now destruct (Hno key rest' Hid).
    + now rewrite IH.
Qed.

Lemma Renders_unique (sub : string -> Exc string) (s : string) (a b : Exc string) :
  Renders sub s a -> Renders sub s b -> a = b.
Proof.
  intros Ha%Renders_replace_all Hb%Renders_replace_all. congruence.
Qed.

(** A token cannot begin before a later token and reach into it: the text
    that precedes a token is scanned as if it stood alone. *)
Lemma straddle (k s x r : string) :
  all_word k = true ->
  s +:+ String "{" x = k +:+ String "}" (String "}" r) ->
  exists r', s = k +:+ String "}" (String "}" r').
Proof.
  revert s. induction k as [|c k IH]; intros s Hk.
  - rewrite append_nil.
    destruct s as [|a s]; [rewrite append_nil; discriminate|].
    rewrite append_cons. intros [= -> Hs].
    destruct s as [|b s]; [rewrite append_nil in Hs; discriminate|].
    rewrite append_cons in Hs. injection Hs as -> Hs.
    exists s. reflexivity.
  - simpl in Hk. apply andb_true_iff in Hk as [Hc Hk].
    destruct s as [|a s].
    + rewrite append_nil, append_cons. intros [= <- _]. discriminate.
    + rewrite !append_cons. intros [= -> Hs].
      destruct (IH s Hk Hs) as [r' ->]. exists r'. reflexivity.
Qed.

Lemma match_token_before_token (s key post : string) :
  s <> "" ->
  match_token (s +:+ token key +:+ post) =
  match match_token s with
  | Some (k, r) => Some (k, r +:+ token key +:+ post)
  | None => None
  end.
Proof.
  intros Hs.
  destruct (match_token s) as [[k r]|] eqn:Hm.
  - apply match_token_Some in Hm as [Hid ->].
    apply match_token_Some. split; [exact Hid|]. now rewrite append_assoc.
  - destruct (match_token (s +:+ token key +:+ post)) as [[k r]|] eqn:Hm';
      [exfalso|reflexivity].
    apply match_token_Some in Hm' as [Hid Heq].
    rewrite !token_unfold in Heq.
    unfold is_identifier in Hid. apply andb_true_iff in Hid as [Hne Hall].
    destruct s as [|a s]; [congruence|].
    rewrite append_cons in Heq. injection Heq as -> Heq.
    destruct s as [|b s].
    + rewrite append_nil in Heq. injection Heq as Heq.
      destruct k as [|c k]; [discriminate|].
      rewrite append_cons in Heq. injection Heq as <- _.
      simpl in Hall. discriminate.
    + rewrite append_cons in Heq. injection Heq as -> Heq.
      destruct (straddle _ _ _ _ Hall Heq) as [r' ->].
      assert (match_token (token k +:+ r') = Some (k, r')) as Hyes.
      { apply match_token_Some. split; [|reflexivity].
        unfold is_identifier. now rewrite Hne, Hall. }
      rewrite token_unfold in Hyes. congruence.
Qed.

Lemma replace_all_before_token (f : string -> string -> Exc string)
    (pre key post : string) :
  replace_all f (pre +:+ token key +:+ post) =
  exc_app (replace_all f pre) (replace_all f (token key +:+ post)).
Proof.
  remember (String.length pre) as n eqn:Hn. revert pre Hn.
  induction n as [n IH] using lt_wf_ind. intros pre ->.
  destruct pre as [|c pre]; [now rewrite append_nil, exc_app_nil|].
  rewrite (replace_all_step f (String c pre +:+ _)), (replace_all_step f (String c pre)).
  rewrite match_token_before_token by discriminate.
  destruct (match_token (String c pre)) as [[k r]|] eqn:Hm.
  - apply match_token_shorter in Hm.
    rewrite exc_app_assoc. f_equal. eapply IH; [exact Hm | reflexivity].
  - rewrite append_cons, exc_app_cons. f_equal. eapply IH; [|reflexivity]. simpl. lia.
Qed.

Lemma to_string_str (h : Heap) (s : string) : to_string h (JStr s) = Ok s.
Proof. reflexivity. Qed.

(** The callback of [interpolateTemplate] renders [substitution]. *)
Lemma lookup_key_substitution (realm : Realm) (h : Heap) (context : WorkflowContext)
    (key : string) :
  (v <- lookup_key realm h context (token key) key ;; member_string h v)%exc
  = substitution realm h context key.
Proof.
  unfold lookup_key, substitution.
  destruct (Js.get realm h (variables context) key) as [a|e]; cbn [exc_bind];
    [|reflexivity].
  destruct (truthy_member a); [reflexivity|].
  destruct (Js.get realm h (JObject (previousResults context)) key) as [b|e];
    cbn [exc_bind]; [|reflexivity].
  destruct (truthy_member b); reflexivity.
Qed.

Lemma interpolateTemplate_replace_all (realm : Realm) (h : Heap) (template : string)
    (context : WorkflowContext) :
  interpolateTemplate realm h template context =
  replace_all
    (fun matched key =>
       (v <- lookup_key realm h context matched key ;; member_string h v)%exc)
    template.
Proof.
  unfold interpolateTemplate.
  destruct (String.eqb_spec template "") as [->|_]; reflexivity.
Qed.

(** Interpolation splits at a token. *)
Lemma interpolateTemplate_token (realm : Realm) (h : Heap) (context : WorkflowContext)
    (pre key post : string) :
  is_identifier key = true ->
  interpolateTemplate realm h (pre +:+ token key +:+ post) context =
  exc_app (interpolateTemplate realm h pre context)
    (exc_app (substitution realm h context key)
       (interpolateTemplate realm h post context)).
Proof.
  intros Hid. rewrite !interpolateTemplate_replace_all.
  rewrite replace_all_before_token, replace_all_token by exact Hid.
  now rewrite lookup_key_substitution.
Qed.

(** The scan finds the tokens. *)
Lemma tokens_fuel_enough (n m : nat) (s : string) :
  String.length s < n -> String.length s < m -> tokens_fuel n s = tokens_fuel m s.
Proof.
  revert m s. induction n as [|n IH]; intros m s Hn Hm; [lia|].
  destruct m as [|m]; [lia|]. simpl.
  destruct (match_token s) as [[key rest]|] eqn:Hs.
  - apply match_token_shorter in Hs. f_equal. apply IH; lia.
  - destruct s as [|c s]; [reflexivity|]. simpl in Hn, Hm. apply IH; lia.
Qed.

Lemma tokens_step (s : string) :
  tokens s =
  match match_token s with
  | Some (key, rest) => key :: tokens rest
  | None =>
      match s with
      | EmptyString => []
      | String _ s' => tokens s'
      end
  end.
Proof.
  unfold tokens at 1. simpl.
  destruct (match_token s) as [[key rest]|] eqn:Hs.
  - apply match_token_shorter in Hs. f_equal. apply tokens_fuel_enough; lia.
  - destruct s as [|c s]; [reflexivity|]. apply tokens_fuel_enough; simpl; lia.
Qed.

(** A scan whose callback gives every token of the text back leaves the
    text as it is. *)
Lemma replace_all_identity (f : string -> string -> Exc string) (s : string) :
  Forall (fun key => f (token key) key = Ok (token key)) (tokens s) ->
  replace_all f s = Ok s.
Proof.
  remember (String.length s) as n eqn:Hn. revert s Hn.
  induction n as [n IH] using lt_wf_ind. intros s ->.
  rewrite replace_all_step, tokens_step.
  destruct (match_token s) as [[key rest]|] eqn:Hs.
  - pose proof (match_token_shorter _ _ _ Hs) as Hlt.
    apply match_token_Some in Hs as [Hid ->].
    intros [Hkey Hrest]%Forall_cons. rewrite Hkey.
    rewrite (IH _ Hlt rest eq_refl Hrest). reflexivity.
  - destruct s as [|c s]; [reflexivity|]. intros Hrest.
    rewrite (IH (String.length s)); [reflexivity | simpl; lia | reflexivity | exact Hrest].
Qed.

Lemma tokens_no_brace (s : string) : no_open_brace s = true -> tokens s = [].
Proof.
  induction s as [|c s IH]; [reflexivity|]. simpl.
  intros [Hc Hs]%andb_true_iff. rewrite tokens_step.
  assert (match_token (String c s) = None) as ->.
  { unfold match_token.
    destruct (Ascii.eqb_spec c "{") as [->|Hne]; [discriminate|].
    destruct c as [[] [] [] [] [] [] [] []]; try reflexivity. now contradict Hne. }
  exact (IH Hs).
Qed.

(** ** The claims on interpolation *)

Lemma Renders_ext (sub sub' : string -> Exc string) (template : string)
    (out : Exc string) :
  (forall key, sub key = sub' key) ->
  Renders sub template out -> Renders sub' template out.
Proof.
  intros Hext. induction 1 as [|key rest out Hid _ IH|c rest out Hno _ IH].
  - constructor.
  - rewrite Hext. now constructor.
  - now constructor.
Qed.

(** C3, as amended.  For every template string and context,
    [interpolateTemplate] replaces each token [{{identifier}}], scanning left
    to right, by the string representation of the first truthy value among
    [context.variables[identifier]] and [context.previousResults[identifier]]
    (own or inherited), leaves the token as it is when neither is truthy,
    and copies every other character; it throws only what such a lookup or
    conversion throws. *)
Theorem C3_interpolation_truthy_lookup (realm : Realm) (h : Heap) (template : string)
    (context : WorkflowContext) :
  Renders (substitution realm h context) template
    (interpolateTemplate realm h template context).
Proof.
  rewrite interpolateTemplate_replace_all.
  eapply Renders_ext; [|apply replace_all_renders].
  intros key. apply lookup_key_substitution.
Qed.

(** C3, as stated, fails: [n] is found in [variables], bound to the number
    zero, and the token is not replaced by ["0"]. *)
Lemma C3_found_but_falsy_not_substituted :
  Js.own Bench.zero_heap (variables Bench.zero_context) "n" = Some (JNum "0") /\
  interpolate_as_specified Bench.zero_heap "Count: {{n}}" Bench.zero_context
    = Ok "Count: 0" /\
  interpolateTemplate Bench.realm Bench.zero_heap "Count: {{n}}" Bench.zero_context
    = Ok "Count: {{n}}".
Proof. repeat split; vm_compute; reflexivity. Qed.

(** The examples P1 and P2 of the specification. *)
Example interpolate_P1 :
  interpolateTemplate Bench.realm
    {| objects := {[ 0 := {[ "name" := JStr "Ana" ]} ]}; arrays := ∅; fresh := 2 |}
    "Hi {{name}}"
    {| executionId := "e"; variables := JObject 0; previousResults := 1 |}
  = Ok "Hi Ana".
Proof. vm_compute. reflexivity. Qed.

Example interpolate_P2 :
  interpolateTemplate Bench.realm
    {| objects := ∅; arrays := ∅; fresh := 2 |} "{{missing}}"
    {| executionId := "e"; variables := JObject 0; previousResults := 1 |}
  = Ok "{{missing}}".
Proof. vm_compute. reflexivity. Qed.

(** Braces that enclose no identifier are text. *)
Example interpolate_stray_braces :
  interpolateTemplate Bench.realm
    {| objects := {[ 0 := {[ "name" := JStr "Ana" ]} ]}; arrays := ∅; fresh := 2 |}
    "{{{name}}} {{a b}} {{}} {{name}"
    {| executionId := "e"; variables := JObject 0; previousResults := 1 |}
  = Ok "{Ana} {{a b}} {{}} {{name}".
Proof. vm_compute. reflexivity. Qed.

(** A token that names a member of [Object.prototype] is found in every
    object, the empty one too, and replaced by the text of the member. *)
Example interpolate_inherited :
  interpolateTemplate Bench.realm
    {| objects := ∅; arrays := ∅; fresh := 2 |} "{{constructor}} and {{missing}}"
    {| executionId := "e"; variables := JObject 0; previousResults := 1 |}
  = Ok "function Object() { [native code] } and {{missing}}".
Proof. vm_compute. reflexivity. Qed.

(** A value with a [toString] property of its own has no string
    representation: interpolation throws. *)
Example interpolate_unconvertible :
  interpolateTemplate Bench.realm
    {| objects := {[ 0 := {[ "x" := JObject 2 ]}; 2 := {[ "toString" := JNum "1" ]} ]};
       arrays := ∅; fresh := 3 |}
    "{{x}}"
    {| executionId := "e"; variables := JObject 0; previousResults := 1 |}
  = Throw (ThrowError "Cannot convert object to primitive value").
Proof. vm_compute. reflexivity. Qed.

(** The units of a string that is the variables. *)
Example interpolate_string_variables :
  interpolateTemplate Bench.realm
    {| objects := ∅; arrays := ∅; fresh := 2 |} "{{length}}:{{0}}:{{3}}"
    {| executionId := "e"; variables := JStr "abc"; previousResults := 1 |}
  = Ok "3:a:{{3}}".
Proof. vm_compute. reflexivity. Qed.

(** C10.  A token whose identifier [context.variables] gives a falsy value
    (or nothing) is not replaced by that value: the lookup goes on to
    [context.previousResults], whose value is used when it is truthy; when
    that one is falsy or absent too, the token is kept.  The text before and
    after the token is interpolated on its own. *)
Theorem C10_falsy_lookup_falls_through (realm : Realm) (h : Heap)
    (context : WorkflowContext) (pre key post : string) (a : Member) :
  is_identifier key = true ->
  Js.get realm h (variables context) key = Ok a ->
  truthy_member a = false ->
  interpolateTemplate realm h (pre +:+ token key +:+ post) context =
  exc_app (interpolateTemplate realm h pre context)
    (exc_app
       (b <- Js.get realm h (JObject (previousResults context)) key ;;
        if truthy_member b then member_string h b else Ok (token key))%exc
       (interpolateTemplate realm h post context)).
Proof.
  intros Hid Hget Hfalsy. rewrite interpolateTemplate_token by exact Hid.
  unfold substitution. rewrite Hget. cbn [exc_bind]. now rewrite Hfalsy.
Qed.

Lemma C10_witness :
  interpolateTemplate Bench.realm Bench.zero_heap ("Count: " +:+ token "n" +:+ "!")
    Bench.zero_context =
  exc_app (interpolateTemplate Bench.realm Bench.zero_heap "Count: " Bench.zero_context)
    (exc_app
       (b <- Js.get Bench.realm Bench.zero_heap
               (JObject (previousResults Bench.zero_context)) "n" ;;
        if truthy_member b then member_string Bench.zero_heap b else Ok (token "n"))%exc
       (interpolateTemplate Bench.realm Bench.zero_heap "!" Bench.zero_context)).
Proof.
  apply (C10_falsy_lookup_falls_through Bench.realm Bench.zero_heap Bench.zero_context
           "Count: " "n" "!" (Data (JNum "0")));
    vm_compute; reflexivity.
Defined.

(** The four falsy values, and a truthy value that is found second. *)
Example falsy_values_fall_through :
  let h :=
    {| objects :=
         {[ 0 := {[ "a" := JStr ""; "b" := JNum "0"; "c" := JBool false;
                    "d" := JNull; "e" := JNum "0" ]};
            1 := {[ "e" := JStr "second"; "d" := JNum "0" ]} ]};
       arrays := ∅; fresh := 2 |} in
  interpolateTemplate Bench.realm h "{{a}}{{b}}{{c}}{{d}}{{e}}"
    {| executionId := "e"; variables := JObject 0; previousResults := 1 |}
  = Ok "{{a}}{{b}}{{c}}{{d}}second".
Proof. vm_compute. reflexivity. Qed.

(** ** What the traversal is specified to do *)

(** A handler invocation that succeeded. *)
Definition ok_call (c : string * NodeExecutionResult) : Prop := success c.2 = true.

(** The [previousResults] that a list of invocations leaves: every success
    writes its data under its node id, a failure writes nothing. *)
Definition record_successes (m : gmap string JsValue)
    (calls : list (string * NodeExecutionResult)) : gmap string JsValue :=
  foldl (fun m c => if success c.2 then <[c.1 := data c.2]> m else m) m calls.

(** There is an edge from [a] to [b]. *)
Definition edge_between (edges : list WorkflowEdge) (a b : string) : Prop :=
  exists e, e ∈ edges /\ edge_source e = a /\ edge_target e = b.

(** The number of edges that come into a node. *)
Definition indegree (edges : list WorkflowEdge) (id : string) : nat :=
  List.length (List.filter (fun e => String.eqb (edge_target e) id) edges).

(** How often the handler of a node was invoked. *)
Definition invocations (id : string) (calls : list (string * NodeExecutionResult))
    : nat :=
  List.length (List.filter (fun c => String.eqb c.1 id) calls).

(** [h'] is [h] with more objects: what was allocated in [h] is in [h'] as
    it was. *)
Definition heap_extends (h h' : Heap) : Prop :=
  fresh h <= fresh h' /\
  forall l, l < fresh h -> props h' l = props h l /\ items h' l = items h l.

(** A call that writes to no object that exists already. *)
Definition leaves {World X : Type} (c : Machine World -> X * Machine World) : Prop :=
  forall m, heap_extends (heap m) (heap (c m).2).

(** Services and scripts that write to no object that exists already: they
    read what they are handed, and they may create objects. *)
Record quiet {World : Type} (sv : Services World) : Prop := {
  quiet_openai_chat : forall o, leaves (openai_chat sv o);
  quiet_generateResponse : forall p m t c, leaves (llm_generateResponse sv p m t c);
  quiet_processPDF : forall f p, leaves (lc_processPDF sv f p);
  quiet_processCSV : forall f d, leaves (lc_processCSV sv f d);
  quiet_scrapeURL : forall u s, leaves (lc_scrapeURL sv u s);
  quiet_createPineconeStore : forall a e i, leaves (lc_createPineconeStore sv a e i);
  quiet_createWeaviateStore : forall u c, leaves (lc_createWeaviateStore sv u c);
  quiet_chatWithOpenAI : forall a b c d, leaves (lc_chatWithOpenAI sv a b c d);
  quiet_chatWithAnthropic : forall a b c, leaves (lc_chatWithAnthropic sv a b c);
  quiet_createConversationMemory : forall k t, leaves (lc_createConversationMemory sv k t);
  quiet_webSearch : forall q e r, leaves (lc_webSearch sv q e r);
  quiet_executeCode : forall c l t, leaves (lc_executeCode sv c l t);
  quiet_run_function : forall b v p, leaves (run_function sv b v p)
}.

(** ** What the lifecycle is specified to do *)

(** Between [before] and [after] the execution [id] was created and then
    updated exactly once, to [status], which it still has. *)
Definition settled (before after : MemStorage) (id status : string) : Prop :=
  exists updates tail execution,
    storage_calls after =
      storage_calls before ++ CreateExecution id :: UpdateExecution id updates :: tail /\
    upd_status updates = Some status /\
    Forall (fun c => match c with UpdateExecution _ _ => False | _ => True end) tail /\
    workflowExecutions after !! id = Some execution /\
    exec_status execution = status.

(** Between [before] and [after] the execution [id] was created, is still
    running and has never been updated. *)
Definition unsettled (before after : MemStorage) (id : string) : Prop :=
  storage_calls after = storage_calls before ++ [CreateExecution id] /\
  exec_status <$> workflowExecutions after !! id = Some "running".

(** A call that never comes back: whatever the depth allowed, it is still
    pending, its record is still running and has never been updated. *)
Definition never_settles {World : Type} (run : nat -> Observed World)
    (before : MemStorage) (id : string) : Prop :=
  forall fuel,
    outcome (run fuel) = Pending /\
    unsettled before (sys_storage (final_sys (run fuel))) id.

(** What the specification says of the schedule trigger: its data carries
    every variable of the context. *)
Definition passes_variables (h : Heap) (context : WorkflowContext)
    (result : NodeExecutionResult) : Prop :=
  forall k v,
    Js.own h (variables context) k = Some v ->
    Js.own h (data result) k = Some v.

(** ** The monad: facts *)

Section MonadFacts.

Context {World : Type}.

Lemma bind_Ok {A B : Type} (c : M World A) (k : A -> M World B)
    (m m' : Machine World) (b : B) :
  bind c k m = (Some (Ok b), m') ->
  exists a m1, c m = (Some (Ok a), m1) /\ k a m1 = (Some (Ok b), m').
Proof.
  unfold bind. destruct (c m) as [[[a|e]|] m1]; [eauto | discriminate | discriminate].
Qed.

Lemma bind_Throw {A B : Type} (c : M World A) (k : A -> M World B)
    (m m' : Machine World) (e : Thrown) :
  bind c k m = (Some (Throw e), m') ->
  c m = (Some (Throw e), m') \/
  exists a m1, c m = (Some (Ok a), m1) /\ k a m1 = (Some (Throw e), m').
Proof.
  unfold bind. destruct (c m) as [[[a|e']|] m1];
    [eauto | intros [= <- <-]; now left | discriminate].
Qed.

Lemma bind_None {A B : Type} (c : M World A) (k : A -> M World B)
    (m m' : Machine World) :
  bind c k m = (None, m') ->
  c m = (None, m') \/ exists a m1, c m = (Some (Ok a), m1) /\ k a m1 = (None, m').
Proof.
  unfold bind. destruct (c m) as [[[a|e']|] m1];
    [eauto | discriminate | intros [= <-]; now left].
Qed.

Lemma ret_Ok {A : Type} (a b : A) (m m' : Machine World) :
  ret a m = (Some (Ok b), m') -> a = b /\ m = m'.
Proof. unfold ret. intros [= <- <-]. now split. Qed.

Lemma eval_Ok {A : Type} (e : Heap -> Exc A) (a : A) (m m' : Machine World) :
  eval e m = (Some (Ok a), m') -> e (heap m) = Ok a /\ m' = m.
Proof. unfold eval. intros [= -> <-]. now split. Qed.

Lemma eval_Throw {A : Type} (e : Heap -> Exc A) (t : Thrown) (m m' : Machine World) :
  eval e m = (Some (Throw t), m') -> e (heap m) = Throw t /\ m' = m.
Proof. unfold eval. intros [= -> <-]. now split. Qed.

(** A [try] whose [catch] returns a value gives what its body gave, the
    value of the [catch] for what the body threw, or nothing when the body
    never returned. *)
Lemma try_catch_ret {A : Type} (c : M World A) (h : Thrown -> A) (m : Machine World) :
  (exists a m',
     try_catch c (fun e => ret (h e)) m = (Some (Ok a), m') /\
     (c m = (Some (Ok a), m') \/ exists e, c m = (Some (Throw e), m') /\ a = h e)) \/
  (exists m', try_catch c (fun e => ret (h e)) m = (None, m') /\ c m = (None, m')).
Proof.
  unfold try_catch, ret. destruct (c m) as [[[a|e]|] m'].
  - left. exists a, m'. split; [reflexivity | now left].
  - left. exists (h e), m'. split; [reflexivity|]. right. exists e. now split.
  - right. exists m'. now split.
Qed.

(** A computation that comes back, whatever the machine. *)
Definition settles {A : Type} (c : M World A) : Prop := forall m, (c m).1 <> None.

Lemma settles_ret {A : Type} (a : A) : settles (ret (World := World) a).
Proof. intros m. discriminate. Qed.

Lemma settles_throw {A : Type} (t : Thrown) : settles (throw (World := World) (A := A) t).
Proof. intros m. discriminate. Qed.

Lemma settles_eval {A : Type} (e : Heap -> Exc A) : settles (eval (World := World) e).
Proof. intros m. discriminate. Qed.

Lemma settles_await {A : Type} (c : T World A) : settles (await c).
Proof. intros m. unfold await. destruct (c m). discriminate. Qed.

Lemma settles_new_object (l : list (string * JsValue)) :
  settles (new_object (World := World) l).
Proof. intros m. discriminate. Qed.

Lemma settles_new_array (l : list JsValue) : settles (new_array (World := World) l).
Proof. intros m. discriminate. Qed.

Lemma settles_bind {A B : Type} (c : M World A) (k : A -> M World B) :
  settles c -> (forall a, settles (k a)) -> settles (bind c k).
Proof.
  intros Hc Hk m. unfold bind. specialize (Hc m).
  destruct (c m) as [[[a|e]|] m1]; simpl in *; [apply Hk | discriminate | congruence].
Qed.

Lemma settles_try_catch {A : Type} (c : M World A) (h : Thrown -> M World A) :
  settles c -> (forall e, settles (h e)) -> settles (try_catch c h).
Proof.
  intros Hc Hh m. unfold try_catch. specialize (Hc m).
  destruct (c m) as [[[a|e]|] m1]; simpl in *; [discriminate | apply Hh | congruence].
Qed.

Lemma settles_mapM {A B : Type} (f : A -> M World B) (l : list A) :
  (forall a, settles (f a)) -> settles (mapM f l).
Proof.
  intros Hf. induction l as [|x l IH]; simpl; [apply settles_ret|].
  apply settles_bind; [apply Hf|]. intros y.
  apply settles_bind; [exact IH|]. intros ys. apply settles_ret.
Qed.

(** A [try] whose body comes back and whose [catch] returns a value
    returns a value. *)
Lemma settles_caught {A : Type} (c : M World A) (h : Thrown -> A) (m : Machine World) :
  settles c ->
  exists a m', try_catch c (fun e => ret (h e)) m = (Some (Ok a), m').
Proof.
  intros Hc. destruct (try_catch_ret c h m) as [(a & m' & Heq & _)|(m' & _ & Hnone)].
  - eauto.
  - specialize (Hc m). rewrite Hnone in Hc. now contradict Hc.
Qed.

(** *** Calls that leave the objects of the heap alone *)

Lemma heap_extends_refl (h : Heap) : heap_extends h h.
Proof. split; [lia | now intros l _]. Qed.

Lemma heap_extends_trans (h1 h2 h3 : Heap) :
  heap_extends h1 h2 -> heap_extends h2 h3 -> heap_extends h1 h3.
Proof.
  intros [F1 C1] [F2 C2]. split; [lia|]. intros l Hl.
  destruct (C1 l Hl) as [P1 I1]. destruct (C2 l ltac:(lia)) as [P2 I2].
  split; congruence.
Qed.

Lemma alloc_object_extends (p : gmap string JsValue) (h : Heap) :
  heap_extends h (alloc_object p h).2.
Proof.
  split; [simpl; lia|]. intros l Hl. unfold props, items. simpl.
  rewrite lookup_insert_ne by lia. now split.
Qed.

Lemma alloc_array_extends (l0 : list JsValue) (h : Heap) :
  heap_extends h (alloc_array l0 h).2.
Proof.
  split; [simpl; lia|]. intros l Hl. unfold props, items. simpl.
  rewrite lookup_insert_ne by lia. now split.
Qed.

Lemma leaves_ret {A : Type} (a : A) : leaves (ret (World := World) a).
Proof. intros m. apply heap_extends_refl. Qed.

Lemma leaves_throw {A : Type} (t : Thrown) : leaves (throw (World := World) (A := A) t).
Proof. intros m. apply heap_extends_refl. Qed.

Lemma leaves_eval {A : Type} (e : Heap -> Exc A) : leaves (eval (World := World) e).
Proof. intros m. apply heap_extends_refl. Qed.

Lemma leaves_await {A : Type} (c : T World A) : leaves c -> leaves (await c).
Proof. intros Hc m. specialize (Hc m). unfold await. now destruct (c m). Qed.

Lemma leaves_new_object (l : list (string * JsValue)) :
  leaves (new_object (World := World) l).
Proof. intros m. apply alloc_object_extends. Qed.

Lemma leaves_new_array (l : list JsValue) : leaves (new_array (World := World) l).
Proof. intros m. apply alloc_array_extends. Qed.

Lemma leaves_bind {A B : Type} (c : M World A) (k : A -> M World B) :
  leaves c -> (forall a, leaves (k a)) -> leaves (bind c k).
Proof.
  intros Hc Hk m. unfold bind. specialize (Hc m).
  destruct (c m) as [[[a|e]|] m1]; simpl in *; [|exact Hc|exact Hc].
  eapply heap_extends_trans; [exact Hc | apply Hk].
Qed.

Lemma leaves_try_catch {A : Type} (c : M World A) (h : Thrown -> M World A) :
  leaves c -> (forall e, leaves (h e)) -> leaves (try_catch c h).
Proof.
  intros Hc Hh m. unfold try_catch. specialize (Hc m).
  destruct (c m) as [[[a|e]|] m1]; simpl in *; [exact Hc | | exact Hc].
  eapply heap_extends_trans; [exact Hc | apply Hh].
Qed.

Lemma leaves_mapM {A B : Type} (f : A -> M World B) (l : list A) :
  (forall a, leaves (f a)) -> leaves (mapM f l).
Proof.
  intros Hf. induction l as [|x l IH]; simpl; [apply leaves_ret|].
  apply leaves_bind; [apply Hf|]. intros y.
  apply leaves_bind; [exact IH|]. intros ys. apply leaves_ret.
Qed.

End MonadFacts.

(** Steps through a handler that returned a value. *)
Ltac handler_steps :=
  repeat match goal with
         | H : bind _ _ _ = (Some (Ok _), _) |- _ =>
             let a := fresh "a" in
             let m := fresh "m" in
             let Ha := fresh "Ha" in
             apply bind_Ok in H as (a & m & Ha & H)
         | H : ret _ _ = (Some (Ok _), _) |- _ => apply ret_Ok in H as [<- <-]
         | H : (if ?b then _ else _) _ = (Some (Ok _), _) |- _ => destruct b eqn:?
         end.

(** The structure of a computation, for a property that its parts have. *)
Ltac through bind_rule try_rule leaf :=
  repeat first
    [ leaf
    | apply bind_rule; [|intros ?]
    | apply try_rule; [|intros ?]
    | match goal with
      | |- context [if ?b then _ else _] => destruct b
      | |- context [match ?x with _ => _ end] => destruct x
      end ].

(** ** Handlers: facts *)

(** A result is well formed when a failure carries no data. *)
Definition failure_without_data (r : NodeExecutionResult) : Prop :=
  success r = false -> data r = JUndefined.

Lemma failure_wd (e : string) : failure_without_data (failure e).
Proof. intros _. reflexivity. Qed.

Lemma succeeded_wd (d : JsValue) : failure_without_data (succeeded d).
Proof. intros Hs. discriminate. Qed.

Lemma is_str_eq (v : JsValue) (s : string) : is_str v s = true -> v = JStr s.
Proof.
  destruct v; simpl; try discriminate. now intros ->%String.eqb_eq.
Qed.

Section HandlerFacts.

Context (realm : Realm) {World : Type} (sv : Services World).

(** *** Handlers leave the objects of the heap alone when the services do *)

Lemma leaves_clock : leaves (clock sv).
Proof. intros m. unfold clock. destruct (now sv (world m)). apply heap_extends_refl. Qed.

Lemma leaves_or_new_object (v : JsValue) : leaves (or_new_object (World := World) v).
Proof.
  unfold or_new_object. destruct (truthy v); [apply leaves_ret | apply leaves_new_object].
Qed.

Lemma leaves_interpolate_message (context : WorkflowContext) (msg : JsValue) :
  leaves (interpolate_message realm (World := World) context msg).
Proof.
  unfold interpolate_message.
  apply leaves_bind; [apply leaves_eval|]. intros content.
  apply leaves_bind; [apply leaves_eval|]. intros content'.
  intros m. apply alloc_object_extends.
Qed.

Ltac leaves_leaf Hq :=
  first [ apply leaves_ret | apply leaves_throw | apply leaves_eval
        | apply leaves_new_object | apply leaves_new_array | apply leaves_clock
        | apply leaves_or_new_object | apply leaves_interpolate_message
        | apply leaves_mapM; intros ?
        | apply leaves_await; apply Hq | apply Hq ].

Ltac leaves_tac Hq :=
  through (@leaves_bind World) (@leaves_try_catch World) ltac:(leaves_leaf Hq).

Lemma executeNode_leaves (node : WorkflowNode) (context : WorkflowContext) :
  quiet sv -> leaves (executeNode realm sv node context).
Proof.
  intros Hq. unfold executeNode, executeLangChainNode.
  unfold executeManualTrigger, executeWebhook, executeSchedule, executeOpenAI,
    executeAgent, executeVectorSearch, executeCode, executeCondition, executeMerge,
    executeEmail, executeWebhookResponse,
    executePDFLoader, executeCSVLoader, executeURLScraper,
    executePineconeStore, executeWeaviateStore, executeOpenAIChat,
    executeAnthropicChat, executeConversationMemory, executeWebSearch,
    executeCodeExecutor, from_service, interpolate_messages,
    interpolateTemplate_any, text_of, read.
  leaves_tac Hq.
Qed.

(** *** Failures carry no data *)

(** What a [try]/[catch] handler returns came out of its body, or is the
    failure its [catch] makes. *)
Lemma caught (body : M World NodeExecutionResult) (msg : Thrown -> string)
    (m m' : Machine World) (r : NodeExecutionResult) (P : NodeExecutionResult -> Prop) :
  (forall e, P (failure (msg e))) ->
  (body m = (Some (Ok r), m') -> P r) ->
  try_catch body (fun e => ret (failure (msg e))) m = (Some (Ok r), m') ->
  P r.
Proof.
  intros Hfail Hbody Hrun.
  destruct (try_catch_ret body (fun e => failure (msg e)) m)
    as [(a & m1 & Heq & [Hok | (e & _ & ->)])|(m1 & Heq & _)];
    rewrite Heq in Hrun; [| |discriminate]; injection Hrun as <- <-; auto.
Qed.

Lemma from_service_wd (result : JsValue) (payload : M World (list (string * JsValue)))
    (m m' : Machine World) (r : NodeExecutionResult) :
  from_service result payload m = (Some (Ok r), m') -> failure_without_data r.
Proof.
  unfold from_service. intros H. handler_steps; [apply succeeded_wd|].
  intros _. reflexivity.
Qed.

(** Every failure that a handler returns is without data. *)
Lemma executeNode_failure_without_data (node : WorkflowNode)
    (context : WorkflowContext) (m m' : Machine World) (r : NodeExecutionResult) :
  executeNode realm sv node context m = (Some (Ok r), m') -> failure_without_data r.
Proof.
  unfold executeNode.
  destruct (isLangChainNode node).
  - unfold executeLangChainNode.
    apply caught; [intros; apply failure_wd|].
    intros H. apply bind_Ok in H as (config & m1 & _ & H).
    repeat match type of H with
           | (if ?b then _ else _) _ = _ => destruct b
           end;
      try (unfold executePDFLoader, executeCSVLoader, executeURLScraper,
             executePineconeStore, executeWeaviateStore, executeOpenAIChat,
             executeAnthropicChat, executeConversationMemory, executeWebSearch,
             executeCodeExecutor in H;
           revert H; apply caught; [intros; apply failure_wd|]; intros H;
           handler_steps; eapply from_service_wd; eassumption).
    handler_steps. apply failure_wd.
  - intros H.
    repeat match type of H with
           | (if ?b then _ else _) _ = _ => destruct b
           end.
    + apply ret_Ok in H as [<- _]. apply succeeded_wd.
    + apply ret_Ok in H as [<- _]. apply succeeded_wd.
    + unfold executeSchedule in H. handler_steps. apply succeeded_wd.
    + unfold executeOpenAI in H. revert H. apply caught; [intros; apply failure_wd|].
      intros H. handler_steps; apply succeeded_wd.
    + unfold executeAgent in H. revert H. apply caught; [intros; apply failure_wd|].
      intros H. handler_steps; apply succeeded_wd.
    + unfold executeVectorSearch in H. handler_steps. apply succeeded_wd.
    + unfold executeCode in H. revert H. apply caught; [intros; apply failure_wd|].
      intros H. handler_steps; [apply succeeded_wd | apply failure_wd].
    + unfold executeCondition in H. revert H. apply caught; [intros; apply failure_wd|].
      intros H. handler_steps; apply succeeded_wd.
    + unfold executeMerge in H. handler_steps. apply succeeded_wd.
    + unfold executeEmail in H. handler_steps. apply succeeded_wd.
    + unfold executeWebhookResponse in H. handler_steps. apply succeeded_wd.
    + apply ret_Ok in H as [<- _]. apply failure_wd.
Qed.

End HandlerFacts.

(** ** Traversal: proofs *)

(** [h'] is [h] after the invocations [new] of a traversal whose results go
    to the object at [pr]: the successful ones are written there, in order,
    and every other object and array that [h] has is as it was. *)
Record written (pr : loc) (h h' : Heap) (new : list (string * NodeExecutionResult))
    : Prop := {
  wr_fresh : fresh h <= fresh h';
  wr_objects : forall l, l < fresh h -> l <> pr -> props h' l = props h l;
  wr_arrays : forall l, l < fresh h -> items h' l = items h l;
  wr_results : props h' pr = record_successes (props h pr) new
}.

Lemma written_extends (pr : loc) (h h' : Heap) :
  pr < fresh h -> heap_extends h h' -> written pr h h' [].
Proof.
  intros Hpr [Hf Hc]. split; [exact Hf | | |].
  - intros l Hl _. now apply Hc.
  - intros l Hl. now apply Hc.
  - now apply Hc.
Qed.

Lemma written_trans (pr : loc) (h1 h2 h3 : Heap) new1 new2 :
  written pr h1 h2 new1 -> written pr h2 h3 new2 -> written pr h1 h3 (new1 ++ new2).
Proof.
  intros [F1 O1 A1 R1] [F2 O2 A2 R2]. split.
  - lia.
  - intros l Hl Hne. rewrite O2 by (lia || exact Hne). now apply O1.
  - intros l Hl. rewrite A2 by lia. now apply A1.
  - unfold record_successes in *. now rewrite foldl_app, <- R1, <- R2.
Qed.

Lemma props_set_property (l l' : loc) (k : string) (v : JsValue) (h : Heap) :
  props (set_property l k v h) l' =
  if decide (l' = l) then <[k := v]> (props h l) else props h l'.
Proof.
  unfold props at 1. simpl. case_decide as Heq.
  - subst l'. now rewrite lookup_insert_eq.
  - now rewrite lookup_insert_ne by congruence.
Qed.

Lemma written_store (pr : loc) (h : Heap) (id : string) (r : NodeExecutionResult) :
  success r = true -> written pr h (set_property pr id (data r) h) [(id, r)].
Proof.
  intros Hs. split.
  - reflexivity.
  - intros l _ Hne. rewrite props_set_property.
    case_decide; [contradiction | reflexivity].
  - reflexivity.
  - rewrite props_set_property. case_decide; [|congruence].
    unfold record_successes. simpl. now rewrite Hs.
Qed.

Lemma written_failed (pr : loc) (h : Heap) (id : string) (r : NodeExecutionResult) :
  success r = false -> written pr h h [(id, r)].
Proof.
  intros Hs. split; try reflexivity. unfold record_successes. simpl. now rewrite Hs.
Qed.

Section Traversal.

Context (realm : Realm) {World : Type} (sv : Services World).
Context (allNodes : list WorkflowNode) (edges : list WorkflowEdge).

(** [st'] is [st] after the invocations [new]: they are appended to the
    list, the context is the same object, and when the services and scripts
    are quiet and the results object exists, the heap is the one that the
    invocations [new] have written. *)
Record extends (st st' : Run World) (new : list (string * NodeExecutionResult))
    : Prop := {
  ext_calls : run_calls st' = run_calls st ++ new;
  ext_context : run_context st' = run_context st;
  ext_heap :
    quiet sv ->
    previousResults (run_context st) < fresh (heap (run_machine st)) ->
    written (previousResults (run_context st)) (heap (run_machine st))
      (heap (run_machine st')) new
}.

Lemma extends_refl (st : Run World) : extends st st [].
Proof.
  split; [now rewrite app_nil_r | reflexivity |].
  intros _ Hpr. apply written_extends; [exact Hpr | apply heap_extends_refl].
Qed.

Lemma extends_trans (st1 st2 st3 : Run World) new1 new2 :
  extends st1 st2 new1 -> extends st2 st3 new2 -> extends st1 st3 (new1 ++ new2).
Proof.
  intros [C1 X1 H1] [C2 X2 H2]. split.
  - now rewrite C2, C1, app_assoc.
  - congruence.
  - intros Hq Hpr. specialize (H1 Hq Hpr). rewrite X1 in H2.
    eapply written_trans; [exact H1|]. apply H2; [exact Hq|].
    pose proof (wr_fresh _ _ _ _ H1). lia.
Qed.

(** The state after a handler has returned [result]. *)
Lemma extends_called (node : WorkflowNode) (result : NodeExecutionResult)
    (st : Run World) (o : option (Exc NodeExecutionResult)) (m : Machine World) :
  executeNode realm sv node (run_context st) (run_machine st) = (o, m) ->
  success result = false ->
  extends st (called node result m st) [(node_id node, result)].
Proof.
  intros Hnode Hf. split; try reflexivity.
  intros Hq Hpr. simpl.
  change [(node_id node, result)] with ([] ++ [(node_id node, result)]).
  eapply written_trans; [|now apply written_failed].
  apply written_extends; [exact Hpr|].
  pose proof (executeNode_leaves realm sv node (run_context st) Hq (run_machine st)) as Hl.
  now rewrite Hnode in Hl.
Qed.

Lemma extends_stored (node : WorkflowNode) (result : NodeExecutionResult)
    (st : Run World) (o : option (Exc NodeExecutionResult)) (m : Machine World) :
  executeNode realm sv node (run_context st) (run_machine st) = (o, m) ->
  success result = true ->
  extends st (stored node result (called node result m st)) [(node_id node, result)].
Proof.
  intros Hnode Hs. split; try reflexivity.
  intros Hq Hpr. simpl.
  change [(node_id node, result)] with ([] ++ [(node_id node, result)]).
  eapply written_trans; [|now apply written_store].
  apply written_extends; [exact Hpr|].
  pose proof (executeNode_leaves realm sv node (run_context st) Hq (run_machine st)) as Hl.
  now rewrite Hnode in Hl.
Qed.

Lemma extends_stuck (node : WorkflowNode) (st : Run World)
    (o : option (Exc NodeExecutionResult)) (m : Machine World) :
  executeNode realm sv node (run_context st) (run_machine st) = (o, m) ->
  extends st (stuck m st) [].
Proof.
  intros Hnode. split; [simpl; now rewrite app_nil_r | reflexivity |].
  intros Hq Hpr. simpl. apply written_extends; [exact Hpr|].
  pose proof (executeNode_leaves realm sv node (run_context st) Hq (run_machine st)) as Hl.
  now rewrite Hnode in Hl.
Qed.

(** What a traversal that gave [o] has invoked: when it returned a failure,
    that failure is the last invocation and the only one that failed; in
    every other case no invocation failed. *)
Definition fail_fast (o : option NodeExecutionResult)
    (new : list (string * NodeExecutionResult)) : Prop :=
  match o with
  | Some r =>
      if success r then Forall ok_call new
      else exists pre id, new = pre ++ [(id, r)] /\ Forall ok_call pre
  | None => Forall ok_call new
  end.

(** The loop over the outgoing edges, for a recursive call that is
    fail-fast. *)
Lemma follow_edges_shape
    (rec : WorkflowNode -> Run World -> option NodeExecutionResult * Run World)
    (result : NodeExecutionResult) :
  success result = true ->
  (forall n st, exists new,
     extends st (rec n st).2 new /\ fail_fast (rec n st).1 new) ->
  forall es st, exists new,
    extends st (follow_edges rec allNodes result es st).2 new /\
    fail_fast (follow_edges rec allNodes result es st).1 new /\
    (forall r, (follow_edges rec allNodes result es st).1 = Some r ->
       success r = true -> r = result).
Proof.
  intros Hres Hrec es. induction es as [|edge es IH]; intros st; simpl.
  - exists []. split; [apply extends_refl|]. split.
    + simpl. rewrite Hres. constructor.
    + now intros r [= <-].
  - destruct (find_node allNodes edge) as [nextNode|]; [|apply IH].
    destruct (Hrec nextNode st) as (new1 & Hext1 & Hff1).
    destruct (rec nextNode st) as [[nextResult|] st1]; simpl in *.
    + destruct (success nextResult) eqn:Hn; simpl.
      * destruct (IH st1) as (new2 & Hext2 & Hff2 & Hlast).
        exists (new1 ++ new2). split; [eapply extends_trans; eassumption|].
        split; [|exact Hlast].
        destruct (follow_edges rec allNodes result es st1) as [[r|] st2]; simpl in *.
        -- destruct (success r).
           ++ now apply Forall_app.
           ++ destruct Hff2 as (pre & id & -> & Hpre).
              exists (new1 ++ pre), id. split; [now rewrite app_assoc|].
              now apply Forall_app.
        -- now apply Forall_app.
      * exists new1. split; [exact Hext1|]. split.
        -- simpl. now rewrite Hn.
        -- intros r [= <-]. congruence.
    + exists new1. split; [exact Hext1|]. split; [exact Hff1|]. discriminate.
Qed.

(** The shape of every traversal, whatever the fuel. *)
Lemma executeFromNode_shape (fuel : nat) (node : WorkflowNode) (st : Run World) :
  exists new,
    extends st (executeFromNode realm sv fuel node allNodes edges st).2 new /\
    fail_fast (executeFromNode realm sv fuel node allNodes edges st).1 new.
Proof.
  revert node st. induction fuel as [|fuel IH]; intros node st; simpl.
  - exists []. split; [apply extends_refl|]. constructor.
  - destruct (executeNode realm sv node (run_context st) (run_machine st))
      as [[[result|e]|] m] eqn:Hnode.
    + destruct (success result) eqn:Hs; simpl.
      * destruct (follow_edges_shape
                    (fun n s => executeFromNode realm sv fuel n allNodes edges s)
                    result Hs IH (nextEdges node edges)
                    (stored node result (called node result m st)))
          as (new & Hext & Hff & _).
        exists ((node_id node, result) :: new). split.
        -- change ((node_id node, result) :: new) with ([(node_id node, result)] ++ new).
           eapply extends_trans; [eapply extends_stored; eassumption | exact Hext].
        -- destruct (follow_edges _ _ _ _ _) as [[r|] st']; simpl in *.
           ++ destruct (success r).
              ** constructor; [exact Hs | exact Hff].
              ** destruct Hff as (pre & id & -> & Hpre).
                 exists ((node_id node, result) :: pre), id. split; [reflexivity|].
                 constructor; [exact Hs | exact Hpre].
           ++ constructor; [exact Hs | exact Hff].
      * exists [(node_id node, result)]. split; [eapply extends_called; eassumption|].
        simpl. rewrite Hs. exists [], (node_id node). split; [reflexivity|constructor].
    + exists [(node_id node, failure (error_message e "Unknown error"))].
      split; [eapply extends_called; [eassumption | reflexivity]|].
      simpl. exists [], (node_id node). split; [reflexivity|constructor].
    + exists []. split; [eapply extends_stuck; eassumption | constructor].
Qed.

(** A failure among invocations that are fail-fast is the last of them and
    the result returned. *)
Lemma fail_fast_last (o : option NodeExecutionResult)
    (new pre post : list (string * NodeExecutionResult)) (id : string)
    (r : NodeExecutionResult) :
  fail_fast o new ->
  new = pre ++ (id, r) :: post ->
  success r = false ->
  post = [] /\ o = Some r.
Proof.
  intros Hff -> Hr.
  assert (~ Forall ok_call (pre ++ (id, r) :: post)) as Hno.
  { intros [_ Hbad]%Forall_app. inversion Hbad as [|? ? Hok _]; subst.
    unfold ok_call in Hok. simpl in Hok. congruence. }
  destruct o as [r'|]; simpl in Hff; [|contradiction].
  destruct (success r') eqn:Hr'; [contradiction|].
  destruct Hff as (pre' & id' & Heq & Hpre').
  clear Hno. revert pre Heq. induction Hpre' as [|c pre' Hc _ IH]; intros pre Heq.
  - destruct pre as [|c pre]; simpl in Heq.
    + injection Heq as -> -> <-. split; reflexivity.
    + injection Heq as _ Heq. destruct pre; discriminate.
  - destruct pre as [|c0 pre]; simpl in Heq.
    + injection Heq as <- _. unfold ok_call in Hc. simpl in Hc. congruence.
    + injection Heq as _ Heq. exact (IH _ Heq).
Qed.

(** A traversal that returns a success returns the result of the node it
    started from, whose handler was invoked first. *)
Lemma executeFromNode_first (fuel : nat) (node : WorkflowNode) (st : Run World)
    (r : NodeExecutionResult) :
  (executeFromNode realm sv fuel node allNodes edges st).1 = Some r ->
  success r = true ->
  exists rest,
    run_calls (executeFromNode realm sv fuel node allNodes edges st).2 =
    run_calls st ++ (node_id node, r) :: rest.
Proof.
  destruct fuel as [|fuel]; simpl; [discriminate|].
  destruct (executeNode realm sv node (run_context st) (run_machine st))
    as [[[result|e]|] m].
  - destruct (success result) eqn:Hs; simpl.
    + destruct (follow_edges_shape
                  (fun n s => executeFromNode realm sv fuel n allNodes edges s)
                  result Hs (executeFromNode_shape fuel) (nextEdges node edges)
                  (stored node result (called node result m st)))
        as (new & Hext & _ & Hlast).
      intros Ho Hr. rewrite (Hlast r Ho Hr). exists new.
      rewrite (ext_calls _ _ _ Hext). simpl. now rewrite <- app_assoc.
    + intros [= <-] Hr. congruence.
  - intros [= <-] Hr. discriminate.
  - discriminate.
Qed.

(** The first invocation of a traversal is that of the node it starts
    from. *)
Lemma executeFromNode_head (fuel : nat) (node : WorkflowNode) (st : Run World)
    (new : list (string * NodeExecutionResult)) :
  run_calls (executeFromNode realm sv fuel node allNodes edges st).2 = run_calls st ++ new ->
  match new with
  | [] => True
  | c :: _ => c.1 = node_id node
  end.
Proof.
  destruct fuel as [|fuel]; simpl.
  - intros H. rewrite <- (app_nil_r (run_calls st)) in H at 1.
    apply app_inv_head in H. now subst.
  - assert (forall (result : NodeExecutionResult)
                   (calls : list (string * NodeExecutionResult)),
              (exists more, calls = (run_calls st ++ [(node_id node, result)]) ++ more) ->
              calls = run_calls st ++ new ->
              match new with
              | [] => True
              | c :: _ => c.1 = node_id node
              end) as Hone.
    { intros result calls [more Hmore] Hnew.
      rewrite Hmore, <- app_assoc in Hnew. apply app_inv_head in Hnew. now subst. }
    destruct (executeNode realm sv node (run_context st) (run_machine st))
      as [[[result|e]|] m].
    + destruct (success result) eqn:Hs; simpl.
      * destruct (follow_edges_shape
                    (fun n s => executeFromNode realm sv fuel n allNodes edges s)
                    result Hs (executeFromNode_shape fuel) (nextEdges node edges)
                    (stored node result (called node result m st)))
          as (more & Hext & _).
        intros H. refine (Hone result _ _ H).
        exists more. exact (ext_calls _ _ _ Hext).
      * intros H. refine (Hone result _ _ H). exists []. now rewrite app_nil_r.
    + simpl. intros H.
      refine (Hone (failure (error_message e "Unknown error")) _ _ H).
      exists []. now rewrite app_nil_r.
    + simpl. intros H. rewrite <- (app_nil_r (run_calls st)) in H at 1.
      apply app_inv_head in H. now subst.
Qed.

Lemma find_node_id (edge : WorkflowEdge) (n : WorkflowNode) :
  find_node allNodes edge = Some n -> node_id n = edge_target edge.
Proof.
  unfold find_node. intros [_ Heq]%find_some. now apply String.eqb_eq.
Qed.

Lemma nextEdges_spec (node : WorkflowNode) (e : WorkflowEdge) :
  In e (nextEdges node edges) <-> In e edges /\ edge_source e = node_id node.
Proof.
  unfold nextEdges. rewrite filter_In. now rewrite String.eqb_eq.
Qed.

(** *** Termination on acyclic edges *)

Lemma follow_edges_returns
    (rec : WorkflowNode -> Run World -> option NodeExecutionResult * Run World)
    (result : NodeExecutionResult) (es : list WorkflowEdge) :
  (forall e n st, In e es -> find_node allNodes e = Some n -> (rec n st).1 <> None) ->
  forall st, (follow_edges rec allNodes result es st).1 <> None.
Proof.
  induction es as [|edge es IH]; intros Hrec st; simpl; [discriminate|].
  destruct (find_node allNodes edge) as [nextNode|] eqn:Hfind.
  - pose proof (Hrec edge nextNode st (or_introl eq_refl) Hfind) as Hret.
    destruct (rec nextNode st) as [[nextResult|] st1]; simpl in *; [|congruence].
    destruct (success nextResult); simpl; [|discriminate].
    apply IH. intros e n st' He. apply Hrec. now right.
  - apply IH. intros e n st' He. apply Hrec. now right.
Qed.

(** When every edge goes down some measure of the nodes and every handler
    comes back, a traversal with more fuel than the measure of its first
    node returns. *)
Lemma executeFromNode_returns (rank : string -> nat) :
  (forall node context, settles (executeNode realm sv node context)) ->
  Forall (fun e => rank (edge_target e) < rank (edge_source e)) edges ->
  forall fuel node st,
    rank (node_id node) < fuel ->
    (executeFromNode realm sv fuel node allNodes edges st).1 <> None.
Proof.
  intros Hsettles Hrank. rewrite Forall_forall in Hrank.
  induction fuel as [|fuel IH]; intros node st Hlt; [lia|]. simpl.
  pose proof (Hsettles node (run_context st) (run_machine st)) as Hnode.
  destruct (executeNode realm sv node (run_context st) (run_machine st))
    as [[[result|e]|] m]; [|discriminate|now contradict Hnode].
  destruct (success result); simpl; [|discriminate].
  apply follow_edges_returns. intros e n st' [He Hsrc]%nextEdges_spec Hfind.
  apply IH. rewrite (find_node_id _ _ Hfind).
  apply list_elem_of_In in He. specialize (Hrank e He). rewrite Hsrc in Hrank. lia.
Qed.

End Traversal.

(** *** Graphs in which no node has two incoming edges *)

Section SingleParent.

Context (realm : Realm) {World : Type} (sv : Services World).
Context (allNodes : list WorkflowNode) (edges : list WorkflowEdge).

Hypothesis single_parent : forall id, indegree edges id <= 1.

Local Abbreviation E := (edge_between edges).

Lemma in_edge_unique (e1 e2 : WorkflowEdge) :
  In e1 edges -> In e2 edges -> edge_target e1 = edge_target e2 -> e1 = e2.
Proof.
  intros H1 H2 Heq. pose proof (single_parent (edge_target e1)) as Hle.
  unfold indegree in Hle.
  assert (In e1 (List.filter (fun e => String.eqb (edge_target e) (edge_target e1)) edges))
    as I1 by (apply filter_In; split; [exact H1 | apply String.eqb_refl]).
  assert (In e2 (List.filter (fun e => String.eqb (edge_target e) (edge_target e1)) edges))
    as I2 by (apply filter_In; split; [exact H2 | now apply String.eqb_eq]).
  destruct (List.filter _ edges) as [|a [|b l]]; simpl in *; [tauto| |lia].
  destruct I1 as [<-|[]], I2 as [<-|[]]. reflexivity.
Qed.

Lemma parent_unique (a b x : string) : E a x -> E b x -> a = b.
Proof.
  intros (e1 & H1 & <- & T1) (e2 & H2 & <- & T2).
  apply list_elem_of_In in H1, H2.
  now rewrite (in_edge_unique e1 e2 H1 H2) by congruence.
Qed.

Lemma tc_last (x z : string) : tc E x z -> exists y, rtc E x y /\ E y z.
Proof.
  revert z. apply tc_ind_r.
  - intros z Hxz. exists x. split; [reflexivity | exact Hxz].
  - intros y z Hxy Hyz _. exists y. split; [now apply tc_rtc | exact Hyz].
Qed.

(** Two nodes that reach a common node lie on one path. *)
Lemma comparable (a b x : string) :
  rtc E a x -> rtc E b x -> rtc E a b \/ rtc E b a.
Proof.
  intros Ha. revert x Ha b.
  refine (rtc_ind_r (fun x => forall b, rtc E b x -> rtc E a b \/ rtc E b a) a _ _).
  - intros b Hb. now right.
  - intros y z Hay Hyz IH b Hb. apply rtc_inv_r in Hb as [->|(y' & Hby' & Hy'z)].
    + left. eapply rtc_r; eassumption.
    + rewrite (parent_unique y' y z Hy'z Hyz) in Hby'. now apply IH.
Qed.

Lemma child_acyclic (n c : string) : E n c -> ~ tc E n n -> ~ tc E c c.
Proof.
  intros Hnc Hn (p & Hcp & Hpc)%tc_last.
  rewrite (parent_unique p n c Hpc Hnc) in Hcp.
  apply Hn. eapply tc_rtc_r; [apply tc_once; exact Hnc | exact Hcp].
Qed.

Lemma siblings_disjoint (n c1 c2 x : string) :
  ~ tc E n n -> E n c1 -> E n c2 -> c1 <> c2 ->
  rtc E c1 x -> rtc E c2 x -> False.
Proof.
  intros Hn H1 H2 Hne R1 R2.
  destruct (comparable c1 c2 x R1 R2) as [R|R];
    apply rtc_inv_r in R as [Heq|(p & Rp & Ep)]; try congruence.
  - rewrite (parent_unique p n c2 Ep H2) in Rp.
    apply Hn. eapply tc_rtc_r; [apply tc_once; exact H1 | exact Rp].
  - rewrite (parent_unique p n c1 Ep H1) in Rp.
    apply Hn. eapply tc_rtc_r; [apply tc_once; exact H2 | exact Rp].
Qed.

Lemma targets_nodup (l : list WorkflowEdge) :
  (forall id,
     List.length (List.filter (fun e => String.eqb (edge_target e) id) l) <= 1) ->
  NoDup (map edge_target l).
Proof.
  induction l as [|e l IH]; intros Hle; simpl; constructor.
  - intros (e' & Heq & He')%list_elem_of_In%in_map_iff.
    specialize (Hle (edge_target e)). simpl in Hle.
    rewrite String.eqb_refl in Hle. simpl in Hle.
    assert (In e' (List.filter (fun e0 => String.eqb (edge_target e0) (edge_target e)) l))
      as Hin by (apply filter_In; split; [exact He' | now apply String.eqb_eq]).
    destruct (List.filter _ l); simpl in *; [tauto | lia].
  - apply IH. intros id. specialize (Hle id). simpl in Hle.
    destruct (String.eqb (edge_target e) id); simpl in Hle; lia.
Qed.

Lemma filter_filter_length {A : Type} (p q : A -> bool) (l : list A) :
  List.length (List.filter q (List.filter p l)) <= List.length (List.filter q l).
Proof.
  induction l as [|x l IH]; simpl; [lia|].
  destruct (p x), (q x) eqn:Hq; simpl; rewrite ?Hq; simpl; lia.
Qed.

Lemma nextEdges_targets (node : WorkflowNode) :
  NoDup (map edge_target (nextEdges node edges)).
Proof.
  apply targets_nodup. intros id. unfold nextEdges.
  etransitivity; [apply filter_filter_length | apply single_parent].
Qed.

(** The invocations a traversal adds: no node twice, and only nodes that
    the first one reaches. *)
Definition once_from (c : string) (st st' : Run World) : Prop :=
  exists new,
    run_calls st' = run_calls st ++ new /\
    NoDup new.*1 /\
    forall id, id ∈ new.*1 -> rtc E c id.

Lemma follow_edges_once
    (rec : WorkflowNode -> Run World -> option NodeExecutionResult * Run World)
    (result : NodeExecutionResult) (n : string) (es : list WorkflowEdge) :
  ~ tc E n n ->
  (forall e, In e es -> In e edges /\ edge_source e = n) ->
  NoDup (map edge_target es) ->
  (forall c st, ~ tc E (node_id c) (node_id c) ->
     once_from (node_id c) st (rec c st).2) ->
  forall st, exists new,
    run_calls (follow_edges rec allNodes result es st).2 = run_calls st ++ new /\
    NoDup new.*1 /\
    forall id, id ∈ new.*1 -> exists e, In e es /\ rtc E (edge_target e) id.
Proof.
  intros Hn. induction es as [|edge es IH]; intros Hes Hnd Hrec st; simpl.
  - exists []. split; [now rewrite app_nil_r|]. split; [constructor|].
    intros id Hid. inversion Hid.
  - simpl in Hnd. apply NoDup_cons in Hnd as [Hfresh Hnd].
    assert (forall e, In e es -> In e edges /\ edge_source e = n) as Hes'
      by (intros e He; apply Hes; now right).
    destruct (Hes edge (or_introl eq_refl)) as [Hedge Hsrc].
    assert (E n (edge_target edge)) as Hchild.
    { exists edge. split; [now apply list_elem_of_In|]. now split. }
    destruct (find_node allNodes edge) as [nextNode|] eqn:Hfind.
    + pose proof (find_node_id allNodes _ _ Hfind) as Hid.
      destruct (Hrec nextNode st) as (new1 & C1 & N1 & R1).
      { rewrite Hid. now apply (child_acyclic n). }
      rewrite Hid in R1.
      destruct (rec nextNode st) as [[nextResult|] st1]; simpl in *.
      * destruct (success nextResult); simpl.
        -- destruct (IH Hes' Hnd Hrec st1) as (new2 & C2 & N2 & R2).
           exists (new1 ++ new2). split; [now rewrite C2, C1, app_assoc|].
           split.
           ++ rewrite fmap_app. apply NoDup_app. split; [exact N1|]. split; [|exact N2].
              intros id H1 H2. destruct (R2 id H2) as (e & He & Re).
              destruct (Hes' e He) as [He' Hsrc'].
              eapply (siblings_disjoint n (edge_target edge) (edge_target e) id);
                [exact Hn | exact Hchild | | | now apply R1 | exact Re].
              ** exists e. split; [now apply list_elem_of_In|]. now split.
              ** intros Heq. apply Hfresh. rewrite Heq.
                 apply list_elem_of_In, in_map. exact He.
           ++ intros id H. rewrite fmap_app in H. apply elem_of_app in H as [H|H].
              ** exists edge. split; [now left | now apply R1].
              ** destruct (R2 id H) as (e & He & Re). exists e. split; [now right | exact Re].
        -- exists new1. split; [exact C1|]. split; [exact N1|].
           intros id H. exists edge. split; [now left | now apply R1].
      * exists new1. split; [exact C1|]. split; [exact N1|].
        intros id H. exists edge. split; [now left | now apply R1].
    + destruct (IH Hes' Hnd Hrec st) as (new & C & N & R).
      exists new. split; [exact C|]. split; [exact N|].
      intros id H. destruct (R id H) as (e & He & Re). exists e. split; [now right | exact Re].
Qed.

Lemma executeFromNode_once (fuel : nat) (node : WorkflowNode) (st : Run World) :
  ~ tc E (node_id node) (node_id node) ->
  once_from (node_id node) st (executeFromNode realm sv fuel node allNodes edges st).2.
Proof.
  revert node st. induction fuel as [|fuel IH]; intros node st Hn; simpl.
  - exists []. split; [now rewrite app_nil_r|]. split; [constructor|].
    intros id Hid. inversion Hid.
  - assert (forall (result : NodeExecutionResult) (m : Machine World),
              once_from (node_id node) st (called node result m st)) as Hone.
    { intros result m. exists [(node_id node, result)]. split; [reflexivity|].
      split; [repeat constructor; intros Hin; inversion Hin|].
      intros id ->%list_elem_of_singleton. reflexivity. }
    destruct (executeNode realm sv node (run_context st) (run_machine st))
      as [[[result|e]|] m]; [|apply Hone|].
    + destruct (success result); simpl; [|apply Hone].
      destruct (follow_edges_once
                  (fun n s => executeFromNode realm sv fuel n allNodes edges s)
                  result (node_id node) (nextEdges node edges) Hn
                  (fun e He => proj1 (nextEdges_spec edges node e) He)
                  (nextEdges_targets node) IH
                  (stored node result (called node result m st)))
        as (new & C & N & R).
      exists ((node_id node, result) :: new). split.
      { rewrite C. simpl. now rewrite <- app_assoc. }
      assert (forall id, id ∈ new.*1 -> tc E (node_id node) id) as Hdown.
      { intros id Hid. destruct (R id Hid) as (e & [He Hsrc]%nextEdges_spec & Re).
        eapply tc_rtc_r; [|exact Re]. apply tc_once.
        exists e. split; [now apply list_elem_of_In|]. now split. }
      split.
      * simpl. constructor; [|exact N]. intros Hid. exact (Hn (Hdown _ Hid)).
      * intros id [->|Hid]%elem_of_cons; [reflexivity|]. apply tc_rtc. now apply Hdown.
    + exists []. split; [simpl; now rewrite app_nil_r|]. split; [constructor|].
      intros id Hid. inversion Hid.
Qed.

(** A start node is on no cycle. *)
Lemma start_acyclic (nodes : list WorkflowNode) (start : WorkflowNode) :
  In start (startNodes nodes edges) -> ~ tc E (node_id start) (node_id start).
Proof.
  unfold startNodes. intros [_ Hno]%filter_In (p & _ & e & He & _ & Ht)%tc_last.
  apply negb_true_iff in Hno.
  assert (existsb (fun edge => String.eqb (edge_target edge) (node_id start)) edges = true)
    as Hyes; [|congruence].
  apply existsb_exists. exists e. split; [now apply list_elem_of_In|].
  now apply String.eqb_eq.
Qed.

End SingleParent.

(** ** The claims on the handlers *)

(** C8, as amended.  For every context the manual and the webhook trigger
    return success with [context.variables] as data, the object itself; the
    schedule trigger returns success with a new object as data, which holds
    a timestamp and nothing else. *)
Theorem C8_trigger_handlers {World : Type} (sv : Services World)
    (node : WorkflowNode) (context : WorkflowContext) (m : Machine World) :
  executeManualTrigger node context m = (Some (Ok (succeeded (variables context))), m) /\
  executeWebhook node context m = (Some (Ok (succeeded (variables context))), m) /\
  exists m',
    executeSchedule sv node context m =
      (Some (Ok (succeeded (JObject (fresh (heap m))))), m') /\
    world m' = (now sv (world m)).2 /\
    props (heap m') (fresh (heap m)) = {[ "timestamp" := JStr (now sv (world m)).1 ]} /\
    heap_extends (heap m) (heap m').
Proof.
  split; [reflexivity|]. split; [reflexivity|].
  unfold executeSchedule, bind, clock, new_object, ret.
  destruct (now sv (world m)) as [t w]. cbn [heap world alloc_object fst snd].
  eexists. split; [reflexivity|]. split; [reflexivity|]. split.
  - unfold props. simpl. rewrite lookup_insert_eq. simpl.
    now rewrite insert_empty.
  - apply (alloc_object_extends _ (heap m)).
Qed.

(** C8, as stated, fails for the schedule trigger: the variable [message] of
    the context is not in its data. *)
Lemma C8_schedule_drops_variables :
  exists result m',
    executeSchedule (Bench.services (Ok "")) (Bench.node "S" "schedule" [])
      Bench.hi_context Bench.machine = (Some (Ok result), m') /\
    props (heap m') 5 = {[ "timestamp" := JStr Bench.clock ]} /\
    data result = JObject 5 /\
    ~ passes_variables (heap m') Bench.hi_context result.
Proof.
  eexists _, _. split; [reflexivity|]. split; [vm_compute; reflexivity|].
  split; [reflexivity|].
  intros Hpass. specialize (Hpass "message" (JStr "hi") eq_refl).
  vm_compute in Hpass. discriminate.
Qed.

(** C9.  A node whose type is none of the built-in handler types and whose
    [data.type] is none of the LangChain types is not executed: the result is
    the failure [Unknown node type: <type>], returned and not thrown, and the
    heap and the world are left as they were. *)
Theorem C9_unknown_node_type (realm : Realm) {World : Type} (sv : Services World)
    (node : WorkflowNode) (context : WorkflowContext) (m : Machine World) :
  node_type node ∉ NodeTypeEnum ->
  isLangChainNode node = false ->
  executeNode realm sv node context m =
    (Some (Ok {| success := false; data := JUndefined;
                 error := Some ("Unknown node type: " +:+ node_type node) |}), m).
Proof.
  intros Htype Hlang. unfold executeNode. rewrite Hlang.
  repeat match goal with
         | |- context [String.eqb (node_type node) ?t] =>
             destruct (String.eqb_spec (node_type node) t) as [Heq|_];
               [exfalso; apply Htype; rewrite Heq; unfold NodeTypeEnum;
                repeat (first [apply list_elem_of_here | apply list_elem_of_further])|]
         end.
  reflexivity.
Qed.

Lemma C9_witness :
  executeNode Bench.realm (Bench.services (Ok "")) (Bench.node "X" "bogus" [])
    Bench.hi_context Bench.machine =
    (Some (Ok {| success := false; data := JUndefined;
                 error := Some ("Unknown node type: " +:+ "bogus") |}), Bench.machine).
Proof.
  apply (C9_unknown_node_type Bench.realm (Bench.services (Ok ""))
           (Bench.node "X" "bogus" [])).
  - unfold NodeTypeEnum. simpl. intros H.
    repeat (apply elem_of_cons in H as [H|H]; [discriminate|]).
    inversion H.
  - reflexivity.
Defined.

(** ** The claims on the traversal *)

(** The services of the bench write to no object that exists already. *)
Lemma leaves_answer (l : list (string * JsValue)) : leaves (Bench.answer l).
Proof. intros m. apply alloc_object_extends. Qed.

Lemma bench_services_quiet (chat : Exc string) : quiet (Bench.services chat).
Proof.
  split; simpl; intros;
    first [ apply leaves_answer
          | intros ?; simpl; apply heap_extends_refl
          | destruct chat; apply leaves_answer ].
Qed.



(** The example P3 of the specification, at the traversal: in the chain
    A -> B -> C, where the handler of B fails with "boom", the handlers of A
    and B are invoked and that of C is not, the failure of B is returned, and
    [previousResults] holds the result of A only. *)
Example chain_fail_fast :
  let run :=
    executeFromNode Bench.realm (Bench.services (Throw (ThrowError "boom"))) 3
      (Bench.node "A" "manual" []) Bench.chain_nodes Bench.chain_edges
      {| run_context := Bench.hi_context; run_machine := Bench.machine;
         run_calls := [] |} in
  run.1 = Some (failure "boom") /\
  run_calls run.2 =
    [("A", succeeded Bench.scenario_input); ("B", failure "boom")] /\
  props (heap (run_machine run.2)) 4 = {[ "A" := Bench.scenario_input ]}.
Proof. repeat split; vm_compute; reflexivity. Qed.

Lemma invocations_nodup (id : string) (calls : list (string * NodeExecutionResult)) :
  NoDup calls.*1 -> invocations id calls <= 1.
Proof.
  unfold invocations. induction calls as [|[id' r] calls IH]; simpl; [lia|].
  intros [Hfresh Hnd]%NoDup_cons. specialize (IH Hnd).
  destruct (String.eqb_spec id' id) as [->|_]; simpl; [|exact IH].
  assert (List.filter (fun c : string * NodeExecutionResult => String.eqb c.1 id) calls = [])
    as ->; [|simpl; lia].
  clear IH Hnd. induction calls as [|[id2 r2] calls IH]; simpl; [reflexivity|].
  simpl in Hfresh. apply not_elem_of_cons in Hfresh as [Hne Hfresh].
  destruct (String.eqb_spec id2 id) as [->|_]; [congruence | now apply IH].
Qed.

Lemma indegree_everywhere (edges : list WorkflowEdge) :
  Forall (fun e => indegree edges (edge_target e) <= 1) edges ->
  forall id, indegree edges id <= 1.
Proof.
  intros Hall id. rewrite Forall_forall in Hall. unfold indegree in *.
  destruct (List.filter (fun e => String.eqb (edge_target e) id) edges)
    as [|e l] eqn:Hf; [simpl; lia|].
  assert (In e (List.filter (fun e => String.eqb (edge_target e) id) edges))
    as [He Heq]%filter_In by (rewrite Hf; now left).
  apply String.eqb_eq in Heq. subst id. rewrite <- Hf.
  apply Hall. now apply list_elem_of_In.
Qed.

(** The record, the storage and the state with which [executeWorkflow]
    starts the traversal. *)
Definition created {World : Type} (sv : Services World) (workflowId : string)
    (input : JsValue) (s : Sys World) : WorkflowExecution :=
  (create_run sv workflowId input s).1.1.

Definition initial_run {World : Type} (sv : Services World) (workflowId : string)
    (input : JsValue) (s : Sys World) : Run World :=
  (create_run sv workflowId input s).2.

(** What a call of [executeWorkflow] has invoked and the context it leaves
    are those of the traversal from the first start node. *)
Lemma executeWorkflow_traversal (realm : Realm) {World : Type} (sv : Services World)
    (fuel : nat) (workflowId : string) (nodes : list WorkflowNode)
    (edges : list WorkflowEdge) (input : JsValue) (s : Sys World) :
  let ob := executeWorkflow realm sv fuel workflowId nodes edges input s in
  match startNodes nodes edges with
  | [] =>
      handler_calls ob = [] /\
      final_context ob = run_context (initial_run sv workflowId input s) /\
      sys_machine (final_sys ob) =
        (tick sv (run_machine (initial_run sv workflowId input s))).2
  | start :: _ =>
      let run :=
        executeFromNode realm sv fuel start nodes edges
          (initial_run sv workflowId input s) in
      handler_calls ob = run_calls run.2 /\
      final_context ob = run_context run.2 /\
      sys_machine (final_sys ob) =
        match run.1 with
        | Some _ => (tick sv (run_machine run.2)).2
        | None => run_machine run.2
        end
  end.
Proof.
  unfold executeWorkflow, initial_run.
  destruct (create_run sv workflowId input s) as [[execution storage] run0]. simpl.
  destruct (startNodes nodes edges) as [|start others].
  - unfold fail_execution. simpl. destruct (tick sv (run_machine run0)) as [t m].
    unfold updateWorkflowExecution. simpl.
    destruct (workflowExecutions storage !! exec_id execution); repeat split.
  - simpl. destruct (executeFromNode realm sv fuel start nodes edges run0)
      as [[result|] run]; simpl; [|repeat split].
    destruct (tick sv (run_machine run)) as [t m].
    unfold updateWorkflowExecution, getWorkflowExecution. simpl.
    destruct (workflowExecutions storage !! exec_id execution); simpl; repeat split.
Qed.




(** ** The claims on the lifecycle *)

Section LifecycleFacts.

Context (realm : Realm) {World : Type} (sv : Services World).
Context (fuel : nat) (workflowId : string).
Context (nodes : list WorkflowNode) (edges : list WorkflowEdge).
Context (input : JsValue) (s : Sys World).

Local Abbreviation ob := (executeWorkflow realm sv fuel workflowId nodes edges input s).
Local Abbreviation run0 := (initial_run sv workflowId input s).
Local Abbreviation record0 := (created sv workflowId input s).
Local Abbreviation storage0 := (create_run sv workflowId input s).1.2.

(** What [executeWorkflow] has done when the traversal starts: the record
    is created running, under a new id, for this workflow; the context
    carries its id; no handler has been invoked; the results are a new
    object, without properties. *)
Lemma create_run_spec :
  exec_status record0 = "running" /\
  exec_workflowId record0 = workflowId /\
  exec_output record0 = JNull /\
  exec_error record0 = None /\
  workflowExecutions storage0 =
    <[exec_id record0 := record0]> (workflowExecutions (sys_storage s)) /\
  storage_calls storage0 =
    storage_calls (sys_storage s) ++ [CreateExecution (exec_id record0)] /\
  executionId (run_context run0) = exec_id record0 /\
  run_calls run0 = [] /\
  previousResults (run_context run0) < fresh (heap (run_machine run0)) /\
  props (heap (run_machine run0)) (previousResults (run_context run0)) = ∅.
Proof.
  unfold created, initial_run, create_run, createWorkflowExecution, or_object.
  simpl.
  destruct (truthy input) eqn:Hinput; simpl;
    destruct (randomUUID sv (world (sys_machine s))) as [uuid w1]; simpl;
    rewrite ?Hinput; simpl;
    destruct (now sv w1) as [t w2]; simpl;
    repeat (split; [reflexivity || lia|]);
    unfold props; simpl; now rewrite lookup_insert_eq.
Qed.

Lemma created_running : exec_status record0 = "running".
Proof. apply create_run_spec. Qed.

(** A traversal that returns, with a success or with a failure, leaves the
    record completed. *)
Lemma executeWorkflow_returned (start : WorkflowNode) (others : list WorkflowNode)
    (result : NodeExecutionResult) (run : Run World) :
  startNodes nodes edges = start :: others ->
  executeFromNode realm sv fuel start nodes edges run0 = (Some result, run) ->
  exists execution,
    outcome ob = Returned execution /\
    workflowExecutions (sys_storage (final_sys ob)) !! exec_id record0 = Some execution /\
    exec_id execution = exec_id record0 /\
    exec_workflowId execution = workflowId /\
    exec_status execution = "completed" /\
    exec_output execution = data result /\
    exec_error execution = None /\
    settled (sys_storage s) (sys_storage (final_sys ob)) (exec_id record0) "completed".
Proof.
  destruct create_run_spec as (_ & Hwf & _ & Herr & Hmap & Hcalls & _).
  revert Hwf Herr Hmap Hcalls.
  unfold executeWorkflow, initial_run, created.
  destruct (create_run sv workflowId input s) as [[execution storage] st0]. simpl.
  intros Hwf Herr Hmap Hcalls -> ->.
  destruct (tick sv (run_machine run)) as [t m].
  unfold updateWorkflowExecution, getWorkflowExecution. simpl.
  rewrite Hmap, lookup_insert_eq. simpl. rewrite lookup_insert_eq. simpl.
  eexists. split; [reflexivity|]. split; [first [reflexivity | apply lookup_insert_eq]|].
  split; [reflexivity|]. split; [exact Hwf|]. split; [reflexivity|].
  split; [reflexivity|]. split; [simpl; now rewrite Herr|].
  eexists _, [GetExecution (exec_id execution)], _. simpl.
  split; [rewrite Hcalls; now rewrite <- !app_assoc|].
  split; [reflexivity|]. split; [repeat constructor|].
  split; [first [reflexivity | apply lookup_insert_eq] | reflexivity].
Qed.

(** A traversal that has not returned leaves the record running. *)
Lemma executeWorkflow_pending (start : WorkflowNode) (others : list WorkflowNode)
    (run : Run World) :
  startNodes nodes edges = start :: others ->
  executeFromNode realm sv fuel start nodes edges run0 = (None, run) ->
  outcome ob = Pending /\
  unsettled (sys_storage s) (sys_storage (final_sys ob)) (exec_id record0).
Proof.
  destruct create_run_spec as (Hst & _ & _ & _ & Hmap & Hcalls & _).
  revert Hst Hmap Hcalls.
  unfold executeWorkflow, initial_run, created, unsettled.
  destruct (create_run sv workflowId input s) as [[execution storage] st0]. simpl.
  intros Hst Hmap Hcalls -> ->. simpl.
  split; [reflexivity|]. split; [exact Hcalls|].
  now rewrite Hmap, lookup_insert_eq, <- Hst.
Qed.

(** With no start node the call throws, and leaves the record failed. *)
Lemma executeWorkflow_no_start :
  startNodes nodes edges = [] ->
  outcome ob = Threw (ThrowError "No start node found in workflow") /\
  handler_calls ob = [] /\
  settled (sys_storage s) (sys_storage (final_sys ob)) (exec_id record0) "failed" /\
  exists execution,
    workflowExecutions (sys_storage (final_sys ob)) !! exec_id record0 = Some execution /\
    exec_id execution = exec_id record0 /\
    exec_workflowId execution = workflowId /\
    exec_status execution = "failed" /\
    exec_error execution = Some "No start node found in workflow".
Proof.
  destruct create_run_spec as (_ & Hwf & _ & _ & Hmap & Hcalls & _).
  revert Hwf Hmap Hcalls.
  unfold executeWorkflow, initial_run, created, fail_execution.
  destruct (create_run sv workflowId input s) as [[execution storage] st0]. simpl.
  intros Hwf Hmap Hcalls ->.
  destruct (tick sv (run_machine st0)) as [t m].
  unfold updateWorkflowExecution. simpl. rewrite Hmap, lookup_insert_eq. simpl.
  split; [reflexivity|]. split; [reflexivity|]. split.
  - eexists _, [], _. simpl. split; [rewrite Hcalls; now rewrite <- !app_assoc|].
    split; [reflexivity|]. split; [constructor|].
    split; [first [reflexivity | apply lookup_insert_eq] | reflexivity].
  - eexists. split; [first [reflexivity | apply lookup_insert_eq]|]. repeat split. exact Hwf.
Qed.

End LifecycleFacts.

(** C1: what the code does where the claim fails.  In the chain
    A -> B -> C the handler of B returns the failure "boom"; the traversal
    returns that failure, and [executeWorkflow], which does not look at
    [result.success], records the execution as completed, with no error and
    an undefined output: the message "boom" is in no field of the record. *)
Theorem C1_handler_failure_recorded_as_completed :
  let ob :=
    executeWorkflow Bench.realm (Bench.services (Throw (ThrowError "boom"))) 3 "wf"
      Bench.chain_nodes Bench.chain_edges Bench.scenario_input Bench.empty_sys in
  handler_calls ob =
    [("A", succeeded Bench.scenario_input); ("B", failure "boom")] /\
  exists execution,
    outcome ob = Returned execution /\
    workflowExecutions (sys_storage (final_sys ob)) !! "execution-1" = Some execution /\
    exec_status execution = "completed" /\
    exec_error execution = None /\
    exec_output execution = JUndefined.
Proof.
  split; [vm_compute; reflexivity|].
  eexists. split; [vm_compute; reflexivity|].
  repeat split; vm_compute; reflexivity.
Qed.

Lemma startNodes_none (nodes : list WorkflowNode) (edges : list WorkflowEdge) :
  Forall (fun n => Exists (fun e => edge_target e = node_id n) edges) nodes ->
  startNodes nodes edges = [].
Proof.
  unfold startNodes. induction 1 as [|n nodes Hn _ IH]; simpl; [reflexivity|].
  assert (existsb (fun edge => String.eqb (edge_target edge) (node_id n)) edges = true)
    as ->; [|exact IH].
  apply Exists_exists in Hn as (e & He & Heq).
  apply existsb_exists. exists e. split; [now apply list_elem_of_In|].
  now apply String.eqb_eq.
Qed.

Lemma startNodes_in (nodes : list WorkflowNode) (edges : list WorkflowEdge)
    (start : WorkflowNode) (others : list WorkflowNode) :
  startNodes nodes edges = start :: others -> start ∈ nodes.
Proof.
  intros Hs. apply list_elem_of_In.
  assert (In start (startNodes nodes edges)) as Hin by (rewrite Hs; now left).
  unfold startNodes in Hin. now apply filter_In in Hin.
Qed.

(** C7.  When every node of the workflow is the target of an edge,
    [executeWorkflow] invokes no handler, throws the error
    [No start node found in workflow], and leaves the record of the execution
    in status failed with that message as its error. *)
Theorem C7_no_start_node (realm : Realm) {World : Type} (sv : Services World)
    (fuel : nat) (workflowId : string) (nodes : list WorkflowNode)
    (edges : list WorkflowEdge) (input : JsValue) (s : Sys World) :
  Forall (fun n => Exists (fun e => edge_target e = node_id n) edges) nodes ->
  let ob := executeWorkflow realm sv fuel workflowId nodes edges input s in
  outcome ob = Threw (ThrowError "No start node found in workflow") /\
  handler_calls ob = [] /\
  exists execution,
    workflowExecutions (sys_storage (final_sys ob)) !! executionId (final_context ob)
      = Some execution /\
    exec_id execution = executionId (final_context ob) /\
    exec_workflowId execution = workflowId /\
    exec_status execution = "failed" /\
    exec_error execution = Some "No start node found in workflow".
Proof.
  intros Hnone%startNodes_none ob.
  pose proof (executeWorkflow_traversal realm sv fuel workflowId nodes edges input s)
    as Htr.
  simpl in Htr. rewrite Hnone in Htr. destruct Htr as (_ & Hctx & _).
  destruct (executeWorkflow_no_start realm sv fuel workflowId nodes edges input s Hnone)
    as (Hout & Hcalls & _ & Hrec).
  destruct (create_run_spec sv workflowId input s) as (_ & _ & _ & _ & _ & _ & Hid & _).
  subst ob. rewrite Hctx, Hid. auto.
Qed.

Lemma C7_witness :
  let ob :=
    executeWorkflow Bench.realm (Bench.services (Ok "")) 5 "wf" Bench.ring_nodes
      Bench.ring_edges Bench.scenario_input Bench.empty_sys in
  outcome ob = Threw (ThrowError "No start node found in workflow") /\
  handler_calls ob = [] /\
  exists execution,
    workflowExecutions (sys_storage (final_sys ob)) !! executionId (final_context ob)
      = Some execution /\
    exec_id execution = executionId (final_context ob) /\
    exec_workflowId execution = "wf" /\
    exec_status execution = "failed" /\
    exec_error execution = Some "No start node found in workflow".
Proof.
  apply (C7_no_start_node Bench.realm (Bench.services (Ok "")) 5 "wf" Bench.ring_nodes
           Bench.ring_edges Bench.scenario_input Bench.empty_sys).
  unfold Bench.ring_nodes, Bench.ring_edges.
  constructor; [apply Exists_cons_tl, Exists_cons_hd; reflexivity|].
  constructor; [apply Exists_cons_hd; reflexivity|].
  constructor.
Defined.

Lemma all_succeeded_returns_success (realm : Realm) {World : Type}
    (sv : Services World) (allNodes : list WorkflowNode) (edges : list WorkflowEdge)
    (fuel : nat) (node : WorkflowNode) (st : Run World) (result : NodeExecutionResult) :
  run_calls st = [] ->
  (executeFromNode realm sv fuel node allNodes edges st).1 = Some result ->
  Forall ok_call (run_calls (executeFromNode realm sv fuel node allNodes edges st).2) ->
  success result = true.
Proof.
  intros Hempty Ho Hall.
  destruct (executeFromNode_shape realm sv allNodes edges fuel node st)
    as (new & Hext & Hff).
  rewrite (ext_calls _ _ _ _ Hext), Hempty in Hall. simpl in Hall.
  rewrite Ho in Hff. simpl in Hff.
  destruct (success result) eqn:Hs; [reflexivity|].
  destruct Hff as (pre & id & -> & _).
  apply Forall_app in Hall as [_ Hlast]. inversion Hlast as [|? ? Hok _]; subst.
  unfold ok_call in Hok. simpl in Hok. congruence.
Qed.

(** What a call that has come back was: a traversal from the first start
    node that returned, or no start node at all. *)
Lemma executeWorkflow_outcome (realm : Realm) {World : Type} (sv : Services World)
    (fuel : nat) (workflowId : string) (nodes : list WorkflowNode)
    (edges : list WorkflowEdge) (input : JsValue) (s : Sys World) :
  let ob := executeWorkflow realm sv fuel workflowId nodes edges input s in
  match outcome ob with
  | Returned execution =>
      exists start others result run,
        startNodes nodes edges = start :: others /\
        executeFromNode realm sv fuel start nodes edges
          (initial_run sv workflowId input s) = (Some result, run)
  | Threw e =>
      startNodes nodes edges = [] /\ e = ThrowError "No start node found in workflow"
  | Pending =>
      exists start others run,
        startNodes nodes edges = start :: others /\
        executeFromNode realm sv fuel start nodes edges
          (initial_run sv workflowId input s) = (None, run)
  end.
Proof.
  intros ob.
  destruct (startNodes nodes edges) as [|start others] eqn:Hstart.
  - destruct (executeWorkflow_no_start realm sv fuel workflowId nodes edges input s
                Hstart) as (Hout & _).
    subst ob. rewrite Hout. now split.
  - destruct (executeFromNode realm sv fuel start nodes edges
                (initial_run sv workflowId input s)) as [[result|] run] eqn:Hrun.
    + destruct (executeWorkflow_returned realm sv fuel workflowId nodes edges input s
                  start others result run Hstart Hrun) as (execution & Hout & _).
      subst ob. rewrite Hout. now exists start, others, result, run.
    + destruct (executeWorkflow_pending realm sv fuel workflowId nodes edges input s
                  start others run Hstart Hrun) as (Hout & _).
      subst ob. rewrite Hout. now exists start, others, run.
Qed.

(** C2, as amended.  When [executeWorkflow] returns the record of the
    execution and every handler invoked succeeded, the record is in status
    completed, the first handler invoked is that of the first start node,
    and the output of the record is the data of its result, the value
    itself (for an object, that object and not a copy), not that of a later
    node. *)
Theorem C2_output_is_start_node_data (realm : Realm) {World : Type}
    (sv : Services World) (fuel : nat) (workflowId : string)
    (nodes : list WorkflowNode) (edges : list WorkflowEdge) (input : JsValue)
    (s : Sys World) (execution : WorkflowExecution) :
  let ob := executeWorkflow realm sv fuel workflowId nodes edges input s in
  outcome ob = Returned execution ->
  Forall ok_call (handler_calls ob) ->
  exec_status execution = "completed" /\
  exists start others r0 rest,
    startNodes nodes edges = start :: others /\
    handler_calls ob = (node_id start, r0) :: rest /\
    exec_output execution = data r0.
Proof.
  intros ob Hret Hall.
  pose proof (executeWorkflow_outcome realm sv fuel workflowId nodes edges input s)
    as Hout.
  simpl in Hout. fold ob in Hout. rewrite Hret in Hout.
  destruct Hout as (start & others & result & run & Hstart & Hrun).
  pose proof (executeWorkflow_traversal realm sv fuel workflowId nodes edges input s)
    as Htr.
  simpl in Htr. rewrite Hstart in Htr. destruct Htr as [Hcalls _].
  destruct (executeWorkflow_returned realm sv fuel workflowId nodes edges input s
              start others result run Hstart Hrun)
    as (execution' & Hout & _ & _ & _ & Hstatus & Houtput & _).
  fold ob in Hout, Hcalls. rewrite Hret in Hout. injection Hout as <-.
  split; [exact Hstatus|].
  destruct (create_run_spec sv workflowId input s)
    as (_ & _ & _ & _ & _ & _ & _ & Hempty & _).
  pose proof (all_succeeded_returns_success realm sv nodes edges fuel start
                (initial_run sv workflowId input s) result Hempty) as Hsucc.
  pose proof (executeFromNode_first realm sv nodes edges fuel start
                (initial_run sv workflowId input s) result) as Hfirst.
  rewrite Hcalls in Hall. rewrite Hrun in Hsucc, Hfirst, Hall.
  simpl in Hsucc, Hfirst, Hall.
  destruct (Hfirst eq_refl (Hsucc eq_refl Hall)) as (rest & Hrest).
  rewrite Hempty in Hrest.
  exists start, others, result, rest.
  split; [exact Hstart|]. split; [|exact Houtput].
  rewrite Hcalls, Hrun. exact Hrest.
Qed.

Lemma C2_witness :
  let ob :=
    executeWorkflow Bench.realm (Bench.services (Ok "hello back")) 3 "wf"
      Bench.scenario_nodes Bench.scenario_edges Bench.scenario_input Bench.empty_sys in
  exists execution,
    outcome ob = Returned execution /\
    Forall ok_call (handler_calls ob) /\
    exec_status execution = "completed" /\
    exists start others r0 rest,
      startNodes Bench.scenario_nodes Bench.scenario_edges = start :: others /\
      handler_calls ob = (node_id start, r0) :: rest /\
      exec_output execution = data r0.
Proof.
  eexists. split; [vm_compute; reflexivity|].
  split; [vm_compute; repeat constructor|].
  apply (C2_output_is_start_node_data Bench.realm (Bench.services (Ok "hello back"))
           3 "wf" Bench.scenario_nodes Bench.scenario_edges Bench.scenario_input
           Bench.empty_sys).
  - vm_compute. reflexivity.
  - vm_compute. repeat constructor.
Defined.

(** C2, as stated, fails on the scenario of the specification: every
    handler succeeds, the chat service answers "hello back", the last result
    is that of the webhook response, and the output of the record is the
    input, which is the data of the manual trigger. *)
Lemma C2_output_is_not_final_result :
  let ob :=
    executeWorkflow Bench.realm (Bench.services (Ok "hello back")) 3 "wf"
      Bench.scenario_nodes Bench.scenario_edges Bench.scenario_input Bench.empty_sys in
  exists execution final,
    outcome ob = Returned execution /\
    exec_status execution = "completed" /\
    Forall ok_call (handler_calls ob) /\
    last (handler_calls ob) = Some ("webhook-response", final) /\
    data final = JStr "{{response}}" /\
    exec_output execution = Bench.scenario_input /\
    exec_output execution <> data final.
Proof.
  eexists _, _. split; [vm_compute; reflexivity|].
  split; [vm_compute; reflexivity|].
  split; [vm_compute; repeat constructor|].
  split; [vm_compute; reflexivity|].
  split; [reflexivity|].
  split; [vm_compute; reflexivity|].
  vm_compute. discriminate.
Qed.

(** The output of the record is the object itself: when the start node is
    a merge node, the output is the object whose [merged] is
    [context.previousResults], which by the end holds the results of all
    the nodes, that object among them. *)
Example output_is_the_live_object :
  let ob :=
    executeWorkflow Bench.realm (Bench.services (Ok "")) 2 "wf"
      [Bench.node "M" "merge" []; Bench.node "N" "manual" []] [Bench.edge "M" "N"]
      Bench.scenario_input Bench.empty_sys in
  let h := heap (sys_machine (final_sys ob)) in
  exists execution output results,
    outcome ob = Returned execution /\
    exec_output execution = JObject output /\
    props h output = {[ "merged" := JObject results ]} /\
    results = previousResults (final_context ob) /\
    props h results = {[ "M" := JObject output; "N" := Bench.scenario_input ]}.
Proof.
  eexists _, _, _. split; [vm_compute; reflexivity|].
  split; [vm_compute; reflexivity|].
  split; [vm_compute; reflexivity|].
  split; vm_compute; reflexivity.
Qed.


Lemma manual_node_result (sv : Services unit) (id : string)
    (context : WorkflowContext) (m : Machine unit) :
  executeNode Bench.realm sv (Bench.node id "manual" []) context m =
  (Some (Ok (succeeded (variables context))), m).
Proof. reflexivity. Qed.

(** The node B of the loop never returns. *)
Lemma loop_never_returns (fuel : nat) (st : Run unit) :
  (executeFromNode Bench.realm (Bench.services (Ok "")) fuel (Bench.node "B" "manual" [])
     Bench.loop_nodes Bench.loop_edges st).1 = None.
Proof.
  revert st. induction fuel as [|fuel IH]; intros st; [reflexivity|].
  simpl. rewrite manual_node_result. simpl.
  match goal with
  | |- context [executeFromNode ?r ?sv fuel ?n ?ns ?es ?st1] =>
      specialize (IH st1); destruct (executeFromNode r sv fuel n ns es st1) as [[r0|] st2]
  end; simpl in *; [discriminate | reflexivity].
Qed.


(** The same on a workflow without a cycle, one of whose nodes runs the
    script [while (true) {}]: the call never comes back, whatever the depth
    allowed, and the record stays running. *)
Example endless_script_never_settles :
  never_settles
    (fun fuel =>
       executeWorkflow Bench.realm Bench.scripted (S (S fuel)) "wf"
         (Bench.script_chain Bench.endless_script) Bench.chain_edges
         Bench.scenario_input Bench.empty_sys)
    (sys_storage Bench.empty_sys) "execution-1".
Proof.
  intros fuel.
  refine (executeWorkflow_pending Bench.realm Bench.scripted (S (S fuel)) "wf"
            (Bench.script_chain Bench.endless_script) Bench.chain_edges
            Bench.scenario_input Bench.empty_sys
            (Bench.node "A" "manual" []) [] _ eq_refl _).
  reflexivity.
Qed.

(** * Further properties of the engine *)

(** ** Interpolation *)

(** X1.  A template none of whose tokens has a truthy value in
    [context.variables] or in [context.previousResults], own or inherited
    (a token such as [{{constructor}}] has one in every context), is
    returned as it is, braces and tokens included. *)
Theorem X1_interpolate_without_bindings (realm : Realm) (h : Heap)
    (template : string) (context : WorkflowContext) :
  Forall (unbound realm h context) (tokens template) ->
  interpolateTemplate realm h template context = Ok template.
Proof.
  intros Hall. rewrite interpolateTemplate_replace_all.
  apply replace_all_identity. eapply Forall_impl; [exact Hall|].
  intros key (a & b & Ha & Hfa & Hb & Hfb).
  rewrite lookup_key_substitution. unfold substitution.
  rewrite Ha. cbn [exc_bind]. rewrite Hfa, Hb. cbn [exc_bind]. now rewrite Hfb.
Qed.

Lemma X1_witness :
  interpolateTemplate Bench.realm Bench.bench_heap "Dear {{name}}, {{{x}} }"
    Bench.hi_context
  = Ok "Dear {{name}}, {{{x}} }".
Proof.
  apply (X1_interpolate_without_bindings Bench.realm Bench.bench_heap
           "Dear {{name}}, {{{x}} }" Bench.hi_context).
  assert (tokens "Dear {{name}}, {{{x}} }" = ["name"; "x"]) as ->
    by (vm_compute; reflexivity).
  repeat (constructor; [eexists _, _; repeat split; reflexivity|]).
  constructor.
Defined.

(** X2.  A template that contains no opening brace is returned as it is in
    every context. *)
Theorem X2_interpolate_plain_text (realm : Realm) (h : Heap) (template : string)
    (context : WorkflowContext) :
  no_open_brace template = true ->
  interpolateTemplate realm h template context = Ok template.
Proof.
  intros Hplain. rewrite interpolateTemplate_replace_all.
  apply replace_all_identity. rewrite (tokens_no_brace _ Hplain). constructor.
Qed.

Lemma X2_witness :
  interpolateTemplate Bench.realm Bench.bench_heap "a } plain $1 text" Bench.hi_context
  = Ok "a } plain $1 text".
Proof.
  apply (X2_interpolate_plain_text Bench.realm Bench.bench_heap "a } plain $1 text"
           Bench.hi_context).
  reflexivity.
Defined.

(** X3.  [variables] take precedence: a token whose identifier
    [context.variables] gives a truthy value is replaced by the string of
    that value, whatever [context.previousResults] holds for it; the
    inserted text is not scanned again. *)
Theorem X3_variables_take_precedence (realm : Realm) (h : Heap)
    (context : WorkflowContext) (pre key post : string) (a : Member) :
  is_identifier key = true ->
  Js.get realm h (variables context) key = Ok a ->
  truthy_member a = true ->
  interpolateTemplate realm h (pre +:+ token key +:+ post) context =
  exc_app (interpolateTemplate realm h pre context)
    (exc_app (member_string h a) (interpolateTemplate realm h post context)).
Proof.
  intros Hid Hget Htruthy. rewrite interpolateTemplate_token by exact Hid.
  unfold substitution. rewrite Hget. cbn [exc_bind]. now rewrite Htruthy.
Qed.

Lemma X3_witness :
  let h :=
    {| objects :=
         {[ 0 := {[ "a" := JStr "{{b}}"; "b" := JStr "no" ]};
            1 := {[ "a" := JStr "shadowed" ]} ]};
       arrays := ∅; fresh := 2 |} in
  let context := {| executionId := "e"; variables := JObject 0; previousResults := 1 |} in
  interpolateTemplate Bench.realm h ("<" +:+ token "a" +:+ ">") context =
  exc_app (interpolateTemplate Bench.realm h "<" context)
    (exc_app (member_string h (Data (JStr "{{b}}")))
       (interpolateTemplate Bench.realm h ">" context)).
Proof.
  apply (X3_variables_take_precedence Bench.realm
           {| objects :=
                {[ 0 := {[ "a" := JStr "{{b}}"; "b" := JStr "no" ]};
                   1 := {[ "a" := JStr "shadowed" ]} ]};
              arrays := ∅; fresh := 2 |}
           {| executionId := "e"; variables := JObject 0; previousResults := 1 |}
           "<" "a" ">" (Data (JStr "{{b}}")));
    vm_compute; reflexivity.
Defined.

(** ** Traversal *)

(** The result of the last successful invocation of the handler of [id]. *)
Definition last_success (id : string) (calls : list (string * NodeExecutionResult))
    : option NodeExecutionResult :=
  last (map snd (List.filter (fun c => String.eqb c.1 id && success c.2) calls)).

(** An edge whose target is the id of a node of the workflow. *)
Definition known_target (allNodes : list WorkflowNode) (e : WorkflowEdge) : bool :=
  existsb (fun n => String.eqb (node_id n) (edge_target e)) allNodes.

(** The edges that are left when the dangling ones are removed. *)
Definition live_edges (allNodes : list WorkflowNode) (edges : list WorkflowEdge)
    : list WorkflowEdge :=
  List.filter (known_target allNodes) edges.

Lemma record_successes_lookup (m : gmap string JsValue)
    (calls : list (string * NodeExecutionResult)) (id : string) :
  record_successes m calls !! id =
  match last_success id calls with
  | Some r => Some (data r)
  | None => m !! id
  end.
Proof.
  induction calls as [|[id' r] calls IH] using rev_ind; [reflexivity|].
  unfold record_successes, last_success in *.
  rewrite foldl_app, List.filter_app, List.map_app. simpl.
  destruct (String.eqb_spec id' id) as [->|Hne]; simpl.
  - destruct (success r); simpl.
    + rewrite last_snoc. apply lookup_insert_eq.
    + now rewrite app_nil_r.
  - rewrite app_nil_r. destruct (success r); [|exact IH].
    rewrite lookup_insert_ne by exact Hne. exact IH.
Qed.

(** X4.  A traversal never gives [context.executionId], [context.variables]
    or [context.previousResults] another value.  When no service and no
    script writes to an object that exists already, every object and array
    that existed before the traversal, the results object apart, is after it
    what it was (the variables among them), and no key of
    [context.previousResults] is removed: whatever the depth reached, every
    key present before is present after. *)
Theorem X4_traversal_keeps_context (realm : Realm) {World : Type}
    (sv : Services World) (fuel : nat) (node : WorkflowNode)
    (allNodes : list WorkflowNode) (edges : list WorkflowEdge) (st : Run World) :
  let run := executeFromNode realm sv fuel node allNodes edges st in
  let before := heap (run_machine st) in
  let after := heap (run_machine run.2) in
  let results := previousResults (run_context st) in
  run_context run.2 = run_context st /\
  (quiet sv ->
   results < fresh before ->
   (forall l, l < fresh before -> l <> results -> props after l = props before l) /\
   (forall l, l < fresh before -> items after l = items before l) /\
   dom (props before results) ⊆ dom (props after results)).
Proof.
  intros run before after results. subst run before after results.
  destruct (executeFromNode_shape realm sv allNodes edges fuel node st)
    as (new & Hext & _).
  split; [apply Hext|]. intros Hq Hpr.
  destruct (ext_heap _ _ _ _ Hext Hq Hpr) as [_ Hobjects Harrays Hresults].
  split; [exact Hobjects|]. split; [exact Harrays|].
  intros id [v Hv]%elem_of_dom. apply elem_of_dom.
  rewrite Hresults, record_successes_lookup.
  destruct (last_success id new); [eauto | rewrite Hv; eauto].
Qed.

(** A script is handed the objects themselves: the script
    [context.injected = 1] of a code node adds a property to the variables
    of the context. *)
Example script_changes_variables :
  let run :=
    executeFromNode Bench.realm Bench.scripted 3 (Bench.node "A" "manual" [])
      (Bench.script_chain Bench.injecting_script) Bench.chain_edges
      {| run_context := Bench.hi_context; run_machine := Bench.machine;
         run_calls := [] |} in
  props (heap (run_machine run.2)) 0 =
    {[ "message" := JStr "hi"; "injected" := JNum "1" ]}.
Proof. vm_compute. reflexivity. Qed.


(** The join of a diamond is written twice; the second result stays. *)
Example diamond_join_overwritten :
  let run :=
    executeFromNode Bench.realm (Bench.services (Ok "")) 4 (Bench.node "A" "manual" [])
      Bench.diamond_nodes Bench.diamond_edges
      {| run_context := Bench.hi_context; run_machine := Bench.machine;
         run_calls := [] |} in
  dom (props (heap (run_machine run.2)) 4) = {[ "A"; "B"; "C"; "D" ]}.
Proof. vm_compute. reflexivity. Qed.

Section Reachability.

Context (realm : Realm) {World : Type} (sv : Services World).
Context (allNodes : list WorkflowNode) (edges : list WorkflowEdge).

Local Abbreviation E := (edge_between edges).

(** The invocations a traversal adds are of nodes that the first one
    reaches along the edges. *)
Definition reached_from (c : string) (st st' : Run World) : Prop :=
  exists new,
    run_calls st' = run_calls st ++ new /\
    forall id, id ∈ new.*1 -> rtc E c id.

Lemma follow_edges_reach
    (rec : WorkflowNode -> Run World -> option NodeExecutionResult * Run World)
    (result : NodeExecutionResult) (n : string) (es : list WorkflowEdge) :
  (forall e, In e es -> In e edges /\ edge_source e = n) ->
  (forall c st, reached_from (node_id c) st (rec c st).2) ->
  forall st, reached_from n st (follow_edges rec allNodes result es st).2.
Proof.
  intros Hes Hrec. induction es as [|edge es IH]; intros st; simpl.
  - exists []. split; [now rewrite app_nil_r|]. intros id Hid. inversion Hid.
  - assert (forall e, In e es -> In e edges /\ edge_source e = n) as Hes'
      by (intros e He; apply Hes; now right).
    destruct (Hes edge (or_introl eq_refl)) as [Hedge Hsrc].
    destruct (find_node allNodes edge) as [nextNode|] eqn:Hfind; [|now apply IH].
    pose proof (find_node_id allNodes _ _ Hfind) as Hid.
    assert (reached_from n st (rec nextNode st).2) as (new1 & C1 & R1).
    { destruct (Hrec nextNode st) as (new1 & C1 & R1). exists new1. split; [exact C1|].
      intros id Hin. eapply rtc_l; [|exact (R1 id Hin)].
      exists edge. split; [now apply list_elem_of_In|]. now rewrite Hid. }
    destruct (rec nextNode st) as [[nextResult|] st1]; simpl in *;
      [|exists new1; now split].
    destruct (success nextResult); simpl; [|exists new1; now split].
    destruct (IH Hes' st1) as (new2 & C2 & R2).
    exists (new1 ++ new2). split; [now rewrite C2, C1, app_assoc|].
    intros id Hin. rewrite fmap_app in Hin. apply elem_of_app in Hin as [Hin|Hin]; auto.
Qed.

Lemma executeFromNode_reach (fuel : nat) (node : WorkflowNode) (st : Run World) :
  reached_from (node_id node) st (executeFromNode realm sv fuel node allNodes edges st).2.
Proof.
  revert node st. induction fuel as [|fuel IH]; intros node st; simpl.
  - exists []. split; [now rewrite app_nil_r|]. intros id Hid. inversion Hid.
  - assert (forall (result : NodeExecutionResult) (m : Machine World),
              reached_from (node_id node) st (called node result m st)) as Hone.
    { intros result m. exists [(node_id node, result)]. split; [reflexivity|].
      intros id ->%list_elem_of_singleton. reflexivity. }
    destruct (executeNode realm sv node (run_context st) (run_machine st))
      as [[[result|e]|] m]; [|apply Hone|].
    + destruct (success result); simpl; [|apply Hone].
      destruct (follow_edges_reach
                  (fun n s => executeFromNode realm sv fuel n allNodes edges s)
                  result (node_id node) (nextEdges node edges)
                  (fun e He => proj1 (nextEdges_spec edges node e) He) IH
                  (stored node result (called node result m st)))
        as (new & C & R).
      exists ((node_id node, result) :: new). split.
      { rewrite C. simpl. now rewrite <- app_assoc. }
      intros id [->|Hid]%elem_of_cons; [reflexivity | now apply R].
    + exists []. split; [simpl; now rewrite app_nil_r|]. intros id Hid. inversion Hid.
Qed.

End Reachability.

(** A node that no edge comes into is reached from itself only. *)
Lemma source_only_reached_from_itself (edges : list WorkflowEdge) (a id : string) :
  existsb (fun edge => String.eqb (edge_target edge) id) edges = false ->
  rtc (edge_between edges) a id -> a = id.
Proof.
  intros Hno [->|(p & _ & e & He & _ & Ht)]%rtc_inv_r; [reflexivity|].
  assert (existsb (fun edge => String.eqb (edge_target edge) id) edges = true)
    as Hyes; [|congruence].
  apply existsb_exists. exists e. split; [now apply list_elem_of_In|].
  now apply String.eqb_eq.
Qed.

Lemma initial_run_calls {World : Type} (sv : Services World) (workflowId : string)
    (input : JsValue) (s : Sys World) :
  run_calls (initial_run sv workflowId input s) = [].
Proof. apply create_run_spec. Qed.

(** X6.  Only the first start node is executed.  Every handler that
    [executeWorkflow] invokes belongs to a node reached from the first node
    that has no incoming edge; a further start node (with another id) is
    never executed, whatever the depth reached. *)
Theorem X6_only_first_start_node_runs (realm : Realm) {World : Type}
    (sv : Services World) (fuel : nat) (workflowId : string)
    (nodes : list WorkflowNode) (edges : list WorkflowEdge) (input : JsValue)
    (s : Sys World) (start : WorkflowNode) (others : list WorkflowNode) :
  startNodes nodes edges = start :: others ->
  let ob := executeWorkflow realm sv fuel workflowId nodes edges input s in
  (forall id, id ∈ (handler_calls ob).*1 ->
     rtc (edge_between edges) (node_id start) id) /\
  (forall other, other ∈ others -> node_id other <> node_id start ->
     node_id other ∉ (handler_calls ob).*1).
Proof.
  intros Hstart ob.
  pose proof (executeWorkflow_traversal realm sv fuel workflowId nodes edges input s)
    as Htr.
  simpl in Htr. rewrite Hstart in Htr. destruct Htr as [Hcalls _].
  destruct (executeFromNode_reach realm sv nodes edges fuel start
              (initial_run sv workflowId input s)) as (new & Hnew & Hreach).
  rewrite initial_run_calls in Hnew. simpl in Hnew. subst ob. rewrite Hcalls, Hnew.
  split; [exact Hreach|].
  intros other Hother Hne Hin. apply Hne. symmetry.
  apply (source_only_reached_from_itself edges); [|now apply Hreach].
  assert (In other (startNodes nodes edges)) as Hs
    by (rewrite Hstart; right; now apply list_elem_of_In).
  unfold startNodes in Hs. apply filter_In in Hs as [_ Hs].
  now apply negb_true_iff in Hs.
Qed.

Lemma X6_witness :
  let nodes :=
    [Bench.node "A" "manual" []; Bench.node "B" "manual" []; Bench.node "C" "manual" []] in
  let edges := [Bench.edge "A" "C"] in
  let ob :=
    executeWorkflow Bench.realm (Bench.services (Ok "")) 3 "wf" nodes edges
      Bench.scenario_input Bench.empty_sys in
  (forall id, id ∈ (handler_calls ob).*1 ->
     rtc (edge_between edges) (node_id (Bench.node "A" "manual" [])) id) /\
  (forall other, other ∈ [Bench.node "B" "manual" []] ->
     node_id other <> node_id (Bench.node "A" "manual" []) ->
     node_id other ∉ (handler_calls ob).*1).
Proof.
  apply (X6_only_first_start_node_runs Bench.realm (Bench.services (Ok "")) 3 "wf"
           [Bench.node "A" "manual" []; Bench.node "B" "manual" [];
            Bench.node "C" "manual" []]
           [Bench.edge "A" "C"] Bench.scenario_input Bench.empty_sys
           (Bench.node "A" "manual" []) [Bench.node "B" "manual" []]).
  reflexivity.
Defined.

(** *** Dangling edges *)

Lemma find_node_known (allNodes : list WorkflowNode) (e : WorkflowEdge) :
  known_target allNodes e = false -> find_node allNodes e = None.
Proof.
  unfold known_target, find_node. induction allNodes as [|n l IH]; simpl; [reflexivity|].
  destruct (String.eqb (node_id n) (edge_target e)); [discriminate | exact IH].
Qed.

Lemma follow_edges_live {World : Type}
    (rec rec' : WorkflowNode -> Run World -> option NodeExecutionResult * Run World)
    (allNodes : list WorkflowNode) (result : NodeExecutionResult)
    (es : list WorkflowEdge) :
  (forall n st, rec n st = rec' n st) ->
  forall st,
    follow_edges rec allNodes result es st =
    follow_edges rec' allNodes result (List.filter (known_target allNodes) es) st.
Proof.
  intros Hrec. induction es as [|edge es IH]; intros st; simpl; [reflexivity|].
  destruct (known_target allNodes edge) eqn:Hk; simpl.
  - destruct (find_node allNodes edge) as [nextNode|]; [|apply IH].
    rewrite Hrec. destruct (rec' nextNode st) as [[nextResult|] st1]; [|reflexivity].
    destruct (success nextResult); simpl; [apply IH | reflexivity].
  - rewrite (find_node_known _ _ Hk). apply IH.
Qed.

Lemma filter_comm {A : Type} (p q : A -> bool) (l : list A) :
  List.filter p (List.filter q l) = List.filter q (List.filter p l).
Proof.
  induction l as [|x l IH]; simpl; [reflexivity|].
  destruct (p x) eqn:Hp, (q x) eqn:Hq; simpl; rewrite ?Hp, ?Hq, IH; reflexivity.
Qed.

Lemma executeFromNode_live (realm : Realm) {World : Type} (sv : Services World)
    (fuel : nat) (node : WorkflowNode) (allNodes : list WorkflowNode)
    (edges : list WorkflowEdge) (st : Run World) :
  executeFromNode realm sv fuel node allNodes edges st =
  executeFromNode realm sv fuel node allNodes (live_edges allNodes edges) st.
Proof.
  revert node st. induction fuel as [|fuel IH]; intros node st; simpl; [reflexivity|].
  destruct (executeNode realm sv node (run_context st) (run_machine st))
    as [[[result|e]|] m]; [|reflexivity|reflexivity].
  destruct (success result); simpl; [|reflexivity].
  unfold live_edges, nextEdges. rewrite filter_comm.
  apply follow_edges_live. intros n s. apply IH.
Qed.

Lemma startNodes_live (nodes : list WorkflowNode) (edges : list WorkflowEdge) :
  startNodes nodes (live_edges nodes edges) = startNodes nodes edges.
Proof.
  unfold startNodes. apply filter_ext_in. intros node Hnode. f_equal.
  unfold live_edges. induction edges as [|e edges IH]; simpl; [reflexivity|].
  destruct (known_target nodes e) eqn:Hk; simpl; [now rewrite IH|].
  rewrite IH. destruct (String.eqb_spec (edge_target e) (node_id node)) as [Heq|_];
    [|reflexivity].
  exfalso. unfold known_target in Hk.
  assert (existsb (fun n => String.eqb (node_id n) (edge_target e)) nodes = true)
    as Hyes; [|congruence].
  apply existsb_exists. exists node. split; [exact Hnode|]. now apply String.eqb_eq.
Qed.

(** X7.  Edges whose target is the id of no node of the workflow are
    skipped: [executeWorkflow] behaves on a workflow exactly as on the same
    workflow without its dangling edges (same outcome, same storage, same
    heap, same context, same handler invocations). *)
Theorem X7_dangling_edges_are_skipped (realm : Realm) {World : Type}
    (sv : Services World) (fuel : nat) (workflowId : string)
    (nodes : list WorkflowNode) (edges : list WorkflowEdge) (input : JsValue)
    (s : Sys World) :
  executeWorkflow realm sv fuel workflowId nodes edges input s =
  executeWorkflow realm sv fuel workflowId nodes (live_edges nodes edges) input s.
Proof.
  unfold executeWorkflow. rewrite startNodes_live.
  destruct (create_run sv workflowId input s) as [[execution storage] run0].
  destruct (startNodes nodes edges) as [|start others]; [reflexivity|].
  now rewrite <- executeFromNode_live.
Qed.

(** A dangling edge out of the only node: the node is treated as the end of
    the workflow. *)
Example dangling_edge_example :
  let ob :=
    executeWorkflow Bench.realm (Bench.services (Ok "")) 2 "wf"
      [Bench.node "A" "manual" []] [Bench.edge "A" "ghost"] Bench.scenario_input
      Bench.empty_sys in
  (handler_calls ob).*1 = ["A"] /\
  exec_status <$> workflowExecutions (sys_storage (final_sys ob)) !! "execution-1"
    = Some "completed".
Proof. split; vm_compute; reflexivity. Qed.

(** ** Lifecycle *)

(** X8.  [executeWorkflow] throws exactly when the workflow has no start
    node: then it throws the error [No start node found in workflow]; when
    there is a start node it never throws, whatever the handlers do (their
    failures and exceptions come back as results). *)
Theorem X8_throws_only_without_start_node (realm : Realm) {World : Type}
    (sv : Services World) (fuel : nat) (workflowId : string)
    (nodes : list WorkflowNode) (edges : list WorkflowEdge) (input : JsValue)
    (s : Sys World) :
  let ob := executeWorkflow realm sv fuel workflowId nodes edges input s in
  match startNodes nodes edges with
  | [] => outcome ob = Threw (ThrowError "No start node found in workflow")
  | _ :: _ => forall e, outcome ob <> Threw e
  end.
Proof.
  intros ob. destruct (startNodes nodes edges) as [|start others] eqn:Hstart.
  - now destruct (executeWorkflow_no_start realm sv fuel workflowId nodes edges input s
                    Hstart).
  - intros e. subst ob.
    destruct (executeFromNode realm sv fuel start nodes edges
                (initial_run sv workflowId input s)) as [[result|] run] eqn:Hrun.
    + destruct (executeWorkflow_returned realm sv fuel workflowId nodes edges input s
                  start others result run Hstart Hrun) as (execution & -> & _).
      discriminate.
    + destruct (executeWorkflow_pending realm sv fuel workflowId nodes edges input s
                  start others run Hstart Hrun) as (-> & _).
      discriminate.
Qed.

Lemma updateWorkflowExecution_other {World : Type} (id' : string)
    (updates : ExecutionUpdates) (s : Sys World) (id : string) :
  id <> id' ->
  workflowExecutions (sys_storage (updateWorkflowExecution id' updates s).2) !! id
  = workflowExecutions (sys_storage s) !! id.
Proof.
  intros Hne. unfold updateWorkflowExecution.
  destruct (workflowExecutions (sys_storage s) !! id') as [execution|];
    cbn [fst snd sys_storage workflowExecutions]; [|reflexivity].
  apply lookup_insert_ne. congruence.
Qed.

(** The context of a call carries the id of the record that the call
    created. *)
Lemma executeWorkflow_executionId (realm : Realm) {World : Type}
    (sv : Services World) (fuel : nat) (workflowId : string)
    (nodes : list WorkflowNode) (edges : list WorkflowEdge) (input : JsValue)
    (s : Sys World) :
  executionId (final_context (executeWorkflow realm sv fuel workflowId nodes edges input s))
  = exec_id (created sv workflowId input s).
Proof.
  pose proof (executeWorkflow_traversal realm sv fuel workflowId nodes edges input s)
    as Htr.
  simpl in Htr.
  destruct (create_run_spec sv workflowId input s) as (_ & _ & _ & _ & _ & _ & Hid & _).
  destruct (startNodes nodes edges) as [|start others].
  - destruct Htr as (_ & -> & _). exact Hid.
  - destruct Htr as (_ & -> & _).
    destruct (executeFromNode_shape realm sv nodes edges fuel start
                (initial_run sv workflowId input s)) as (new & Hext & _).
    now rewrite (ext_context _ _ _ _ Hext).
Qed.

(** X9.  [executeWorkflow] touches no record but its own: every execution
    stored under another id than the one it generated is after the call what
    it was before. *)
Theorem X9_other_executions_untouched (realm : Realm) {World : Type}
    (sv : Services World) (fuel : nat) (workflowId : string)
    (nodes : list WorkflowNode) (edges : list WorkflowEdge) (input : JsValue)
    (s : Sys World) (id : string) :
  let ob := executeWorkflow realm sv fuel workflowId nodes edges input s in
  id <> executionId (final_context ob) ->
  workflowExecutions (sys_storage (final_sys ob)) !! id =
  workflowExecutions (sys_storage s) !! id.
Proof.
  intros ob. subst ob. rewrite executeWorkflow_executionId.
  destruct (create_run_spec sv workflowId input s) as (_ & _ & _ & _ & Hmap & _).
  revert Hmap. unfold executeWorkflow, created, fail_execution.
  destruct (create_run sv workflowId input s) as [[execution storage] run0].
  cbn [fst snd]. intros Hmap Hne.
  assert (workflowExecutions storage !! id = workflowExecutions (sys_storage s) !! id)
    as <- by (rewrite Hmap; apply lookup_insert_ne; congruence).
  destruct (startNodes nodes edges) as [|start others].
  - cbn [sys_machine]. destruct (tick sv (run_machine run0)) as [t m].
    match goal with
    | |- context [updateWorkflowExecution ?i ?u ?s0] =>
        pose proof (updateWorkflowExecution_other i u s0 id Hne) as Hupd;
        destruct (updateWorkflowExecution i u s0) as [found s2]
    end.
    exact Hupd.
  - destruct (executeFromNode realm sv fuel start nodes edges run0) as [[result|] run];
      [|reflexivity].
    cbn [sys_machine]. destruct (tick sv (run_machine run)) as [t m].
    match goal with
    | |- context [updateWorkflowExecution ?i ?u ?s0] =>
        pose proof (updateWorkflowExecution_other i u s0 id Hne) as Hupd;
        destruct (updateWorkflowExecution i u s0) as [found s2]
    end.
    exact Hupd.
Qed.

Lemma X9_witness :
  let s :=
    {| sys_machine := Bench.machine;
       sys_storage :=
         {| workflowExecutions :=
              {[ "older" := {| exec_id := "older"; exec_workflowId := "wf";
                               exec_status := "running"; exec_input := JObject 4;
                               exec_output := JNull; exec_error := None;
                               exec_executionTime := Bench.clock;
                               exec_completedAt := None |} ]};
            storage_calls := [] |} |} in
  let ob :=
    executeWorkflow Bench.realm (Bench.services (Ok "")) 3 "wf" Bench.chain_nodes
      Bench.chain_edges Bench.scenario_input s in
  workflowExecutions (sys_storage (final_sys ob)) !! "older" =
  workflowExecutions (sys_storage s) !! "older".
Proof.
  apply (X9_other_executions_untouched Bench.realm (Bench.services (Ok "")) 3 "wf"
           Bench.chain_nodes Bench.chain_edges Bench.scenario_input
           {| sys_machine := Bench.machine;
              sys_storage :=
                {| workflowExecutions :=
                     {[ "older" := {| exec_id := "older"; exec_workflowId := "wf";
                                      exec_status := "running"; exec_input := JObject 4;
                                      exec_output := JNull; exec_error := None;
                                      exec_executionTime := Bench.clock;
                                      exec_completedAt := None |} ]};
                   storage_calls := [] |} |} "older").
  vm_compute. discriminate.
Defined.

Lemma follow_edges_wd {World : Type}
    (rec : WorkflowNode -> Run World -> option NodeExecutionResult * Run World)
    (allNodes : list WorkflowNode) (result : NodeExecutionResult)
    (es : list WorkflowEdge) :
  failure_without_data result ->
  (forall n st r, (rec n st).1 = Some r -> failure_without_data r) ->
  forall st r,
    (follow_edges rec allNodes result es st).1 = Some r -> failure_without_data r.
Proof.
  intros Hres Hrec. induction es as [|edge es IH]; intros st r; simpl.
  - now intros [= <-].
  - destruct (find_node allNodes edge) as [nextNode|]; [|apply IH].
    pose proof (Hrec nextNode st) as Hn.
    destruct (rec nextNode st) as [[nextResult|] st1]; simpl in *; [|discriminate].
    destruct (success nextResult); simpl; [apply IH|].
    intros [= <-]. now apply Hn.
Qed.

Lemma executeFromNode_wd (realm : Realm) {World : Type} (sv : Services World)
    (fuel : nat) (node : WorkflowNode) (allNodes : list WorkflowNode)
    (edges : list WorkflowEdge) (st : Run World) (r : NodeExecutionResult) :
  (executeFromNode realm sv fuel node allNodes edges st).1 = Some r ->
  failure_without_data r.
Proof.
  revert node st r. induction fuel as [|fuel IH]; intros node st r; simpl;
    [discriminate|].
  destruct (executeNode realm sv node (run_context st) (run_machine st))
    as [[[result|e]|] m] eqn:Hnode.
  - apply executeNode_failure_without_data in Hnode.
    destruct (success result); simpl; [|now intros [= <-]].
    apply follow_edges_wd; [exact Hnode|]. intros n s r'. apply IH.
  - simpl. intros [= <-]. apply failure_wd.
  - discriminate.
Qed.

(** X10.  Whenever [executeWorkflow] returns a record, the record is in
    status completed and its error is null; and if the handler of some node
    failed during the run, the output of the record is undefined: neither
    the failure nor its message is in the record. *)
Theorem X10_returned_record_is_completed (realm : Realm) {World : Type}
    (sv : Services World) (fuel : nat) (workflowId : string)
    (nodes : list WorkflowNode) (edges : list WorkflowEdge) (input : JsValue)
    (s : Sys World) (execution : WorkflowExecution) :
  let ob := executeWorkflow realm sv fuel workflowId nodes edges input s in
  outcome ob = Returned execution ->
  exec_status execution = "completed" /\
  exec_error execution = None /\
  (Exists (fun c => success c.2 = false) (handler_calls ob) ->
   exec_output execution = JUndefined).
Proof.
  intros ob Hout. subst ob.
  destruct (startNodes nodes edges) as [|start others] eqn:Hstart.
  { destruct (executeWorkflow_no_start realm sv fuel workflowId nodes edges input s
                Hstart) as (Hthrew & _). congruence. }
  pose proof (executeWorkflow_traversal realm sv fuel workflowId nodes edges input s)
    as Htr.
  simpl in Htr. rewrite Hstart in Htr. destruct Htr as [Hcalls _].
  destruct (executeFromNode_shape realm sv nodes edges fuel start
              (initial_run sv workflowId input s)) as (new & Hext & Hff).
  pose proof (executeFromNode_wd realm sv fuel start nodes edges
                (initial_run sv workflowId input s)) as Hwd.
  destruct (executeFromNode realm sv fuel start nodes edges
              (initial_run sv workflowId input s)) as [[result|] run] eqn:Hrun.
  - destruct (executeWorkflow_returned realm sv fuel workflowId nodes edges input s
                start others result run Hstart Hrun)
      as (execution' & Hout' & _ & _ & _ & Hstatus & Houtput & Herror & _).
    assert (execution' = execution) as -> by congruence.
    split; [exact Hstatus|]. split; [exact Herror|].
    rewrite Hcalls, Houtput. simpl in *.
    rewrite (ext_calls _ _ _ _ Hext), initial_run_calls. simpl.
    intros Hsome. apply (Hwd result eq_refl).
    destruct (success result); [|reflexivity].
    exfalso. apply Exists_exists in Hsome as (c & Hc & Hfail).
    rewrite Forall_forall in Hff. specialize (Hff c Hc). unfold ok_call in Hff.
    congruence.
  - destruct (executeWorkflow_pending realm sv fuel workflowId nodes edges input s
                start others run Hstart Hrun) as (Hpending & _).
    congruence.
Qed.

Lemma X10_witness :
  let ob :=
    executeWorkflow Bench.realm (Bench.services (Throw (ThrowError "boom"))) 3 "wf"
      Bench.chain_nodes Bench.chain_edges Bench.scenario_input Bench.empty_sys in
  let execution :=
    {| exec_id := "execution-1"; exec_workflowId := "wf"; exec_status := "completed";
       exec_input := Bench.scenario_input; exec_output := JUndefined;
       exec_error := None; exec_executionTime := Bench.clock;
       exec_completedAt := Some Bench.clock |} in
  exec_status execution = "completed" /\
  exec_error execution = None /\
  (Exists (fun c => success c.2 = false) (handler_calls ob) ->
   exec_output execution = JUndefined).
Proof.
  apply (X10_returned_record_is_completed Bench.realm
           (Bench.services (Throw (ThrowError "boom")))
           3 "wf" Bench.chain_nodes Bench.chain_edges Bench.scenario_input
           Bench.empty_sys).
  vm_compute. reflexivity.
Defined.

(** ** Handlers *)

Section HandlerErrors.

Context (realm : Realm) {World : Type} (sv : Services World).

Lemma caught_never_throws (body : M World NodeExecutionResult)
    (msg : Thrown -> string) (m m' : Machine World) (e : Thrown) :
  try_catch body (fun e => ret (failure (msg e))) m <> (Some (Throw e), m').
Proof.
  destruct (try_catch_ret body (fun e => failure (msg e)) m)
    as [(a & m1 & -> & _)|(m1 & -> & _)]; discriminate.
Qed.

Lemma interpolateTemplate_any_Ok (template : JsValue) (context : WorkflowContext)
    (m m' : Machine World) (t : string) :
  interpolateTemplate_any realm template context m = (Some (Ok t), m') ->
  interpolate_value realm (heap m) template context = Ok t /\ m' = m.
Proof.
  exact (eval_Ok (fun h => interpolate_value realm h template context) t m m').
Qed.

Lemma interpolateTemplate_any_Throw (template : JsValue) (context : WorkflowContext)
    (m m' : Machine World) (e : Thrown) :
  interpolateTemplate_any realm template context m = (Some (Throw e), m') ->
  interpolate_value realm (heap m) template context = Throw e /\ m' = m.
Proof.
  exact (eval_Throw (fun h => interpolate_value realm h template context) e m m').
Qed.

(** X11.  The handlers contain their errors: [executeNode] throws for an
    email or a webhook-response node only, and then what it throws is what
    the interpolation of one of the fields of the node has thrown ([to],
    [subject] or [body]; [responseData]), before the heap or anything
    outside the engine was touched.  Every other node, LangChain nodes
    included, gives a result or does not come back. *)
Theorem X11_only_output_nodes_throw (node : WorkflowNode)
    (context : WorkflowContext) (m m' : Machine World) (e : Thrown) :
  executeNode realm sv node context m = (Some (Throw e), m') ->
  isLangChainNode node = false /\
  m' = m /\
  ((node_type node = "email" /\
    exists f, f ∈ ["to"; "subject"; "body"] /\
      interpolate_value realm (heap m) (Js.or (field node f) (JStr "")) context
        = Throw e) \/
   (node_type node = "webhook-response" /\
    interpolate_value realm (heap m) (Js.or (field node "responseData") (JStr "{}"))
      context = Throw e)).
Proof.
  unfold executeNode.
  destruct (isLangChainNode node).
  { intros H. now apply caught_never_throws in H. }
  intros H. split; [reflexivity|].
  repeat match type of H with
         | (if String.eqb ?a ?b then _ else _) _ = _ =>
             destruct (String.eqb_spec a b)
         end;
    try discriminate;
    try (now apply caught_never_throws in H).
  - unfold executeSchedule, bind, clock in H. destruct (now sv (world m)). discriminate.
  - unfold executeEmail in H.
    apply bind_Throw in H as [H|(a1 & m1 & H1 & H)].
    { apply interpolateTemplate_any_Throw in H as [H ->]. split; [reflexivity|].
      left. split; [assumption|]. exists "to". split; [set_solver | exact H]. }
    apply interpolateTemplate_any_Ok in H1 as [_ ->].
    apply bind_Throw in H as [H|(a2 & m2 & H2 & H)].
    { apply interpolateTemplate_any_Throw in H as [H ->]. split; [reflexivity|].
      left. split; [assumption|]. exists "subject". split; [set_solver | exact H]. }
    apply interpolateTemplate_any_Ok in H2 as [_ ->].
    apply bind_Throw in H as [H|(a3 & m3 & H3 & H)].
    { apply interpolateTemplate_any_Throw in H as [H ->]. split; [reflexivity|].
      left. split; [assumption|]. exists "body". split; [set_solver | exact H]. }
    apply bind_Throw in H as [H|(a4 & m4 & H4 & H)]; discriminate.
  - unfold executeWebhookResponse in H.
    apply bind_Throw in H as [H|(a1 & m1 & H1 & H)]; [|discriminate].
    apply interpolateTemplate_any_Throw in H as [H ->]. split; [reflexivity|].
    right. now split.
Qed.

(** *** Handlers that come back *)

Lemma settles_clock : settles (clock sv).
Proof. intros m. unfold clock. destruct (now sv (world m)). discriminate. Qed.

Lemma settles_or_new_object (v : JsValue) : settles (or_new_object (World := World) v).
Proof.
  unfold or_new_object. destruct (truthy v); [apply settles_ret | apply settles_new_object].
Qed.

Lemma settles_interpolate_message (context : WorkflowContext) (msg : JsValue) :
  settles (interpolate_message realm (World := World) context msg).
Proof.
  unfold interpolate_message.
  apply settles_bind; [apply settles_eval|]. intros content.
  apply settles_bind; [apply settles_eval|]. intros content'.
  intros m. discriminate.
Qed.

Ltac settles_leaf Hs :=
  first [ apply settles_ret | apply settles_throw | apply settles_eval
        | apply settles_new_object | apply settles_new_array | apply settles_clock
        | apply settles_or_new_object | apply settles_interpolate_message
        | apply settles_mapM; intros ?
        | apply settles_await | apply Hs ].

Ltac settles_tac Hs :=
  through (@settles_bind World) (@settles_try_catch World) ltac:(settles_leaf Hs).

(** Every handler comes back when every script does. *)
Lemma executeNode_settles (node : WorkflowNode) (context : WorkflowContext) :
  (forall body variables results, settles (run_function sv body variables results)) ->
  settles (executeNode realm sv node context).
Proof.
  intros Hs. unfold executeNode, executeLangChainNode.
  unfold executeManualTrigger, executeWebhook, executeSchedule, executeOpenAI,
    executeAgent, executeVectorSearch, executeCode, executeCondition, executeMerge,
    executeEmail, executeWebhookResponse,
    executePDFLoader, executeCSVLoader, executeURLScraper,
    executePineconeStore, executeWeaviateStore, executeOpenAIChat,
    executeAnthropicChat, executeConversationMemory, executeWebSearch,
    executeCodeExecutor, from_service, interpolate_messages,
    interpolateTemplate_any, text_of, read.
  settles_tac Hs.
Qed.

(** A node that runs no script comes back. *)
Lemma executeNode_settles_without_script (node : WorkflowNode)
    (context : WorkflowContext) :
  node_type node <> "code" -> node_type node <> "condition" ->
  settles (executeNode realm sv node context).
Proof.
  intros Hcode Hcond. unfold executeNode, executeLangChainNode.
  destruct (isLangChainNode node).
  - unfold executePDFLoader, executeCSVLoader, executeURLScraper,
      executePineconeStore, executeWeaviateStore, executeOpenAIChat,
      executeAnthropicChat, executeConversationMemory, executeWebSearch,
      executeCodeExecutor, from_service, interpolate_messages,
      interpolateTemplate_any, text_of, read.
    settles_tac Hcode.
  - repeat match goal with
           | |- context [String.eqb (node_type node) ?t] =>
               destruct (String.eqb_spec (node_type node) t)
           end; try contradiction;
      unfold executeManualTrigger, executeWebhook, executeSchedule, executeOpenAI,
        executeAgent, executeVectorSearch, executeMerge,
        executeEmail, executeWebhookResponse, interpolateTemplate_any, text_of, read;
      settles_tac Hcode.
Qed.

Lemma executeLangChainNode_settles (node : WorkflowNode) (context : WorkflowContext) :
  settles (executeLangChainNode realm sv node context).
Proof.
  unfold executeLangChainNode.
  unfold executePDFLoader, executeCSVLoader, executeURLScraper,
    executePineconeStore, executeWeaviateStore, executeOpenAIChat,
    executeAnthropicChat, executeConversationMemory, executeWebSearch,
    executeCodeExecutor, from_service, interpolate_messages,
    interpolateTemplate_any, text_of, read.
  settles_tac I.
Qed.

(** *** LangChain results *)

(** A success carries [type] under [nodeType]. *)
Definition carries_type (h : Heap) (type : JsValue) (r : NodeExecutionResult) : Prop :=
  success r = true -> Js.prop h (data r) "nodeType" = Ok type.

Lemma new_object_prop (fields : list (string * JsValue)) (k : string) (v d : JsValue)
    (m m' : Machine World) :
  new_object fields m = (Some (Ok d), m') ->
  (list_to_map fields : gmap string JsValue) !! k = Some v ->
  Js.prop (heap m') d k = Ok v.
Proof.
  unfold new_object, alloc_object. intros [= <- <-] Hk.
  unfold Js.prop, own, props. simpl. rewrite lookup_insert_eq. simpl. now rewrite Hk.
Qed.

Lemma from_service_nodeType (result : JsValue)
    (payload : M World (list (string * JsValue))) (type : JsValue)
    (m m' : Machine World) (r : NodeExecutionResult) :
  (forall fields m1 m2,
     payload m1 = (Some (Ok fields), m2) ->
     (list_to_map fields : gmap string JsValue) !! "nodeType" = Some type) ->
  from_service result payload m = (Some (Ok r), m') ->
  carries_type (heap m') type r.
Proof.
  intros Hpayload H. unfold from_service in H.
  apply bind_Ok in H as (ok & m1 & _ & H).
  destruct (truthy ok).
  - apply bind_Ok in H as (fields & m2 & Hfields & H).
    apply bind_Ok in H as (d & m3 & Hd & H).
    apply ret_Ok in H as [<- <-]. intros _. simpl.
    eapply new_object_prop; [exact Hd|]. eapply Hpayload. exact Hfields.
  - apply bind_Ok in H as (e & m2 & _ & H).
    apply ret_Ok in H as [<- <-]. intros Hs. discriminate.
Qed.


End HandlerErrors.

Lemma X11_witness :
  let h :=
    {| objects := {[ 0 := {[ "x" := JObject 1 ]}; 1 := {[ "toString" := JNum "1" ]} ]};
       arrays := ∅; fresh := 3 |} in
  let context := {| executionId := "e"; variables := JObject 0; previousResults := 2 |} in
  let node := Bench.node "mail" "email" [("to", JStr "{{x}}")] in
  let m := {| heap := h; world := tt |} in
  isLangChainNode node = false /\
  m = m /\
  ((node_type node = "email" /\
    exists f, f ∈ ["to"; "subject"; "body"] /\
      interpolate_value Bench.realm (heap m) (Js.or (field node f) (JStr "")) context
        = Throw (ThrowError "Cannot convert object to primitive value")) \/
   (node_type node = "webhook-response" /\
    interpolate_value Bench.realm (heap m)
      (Js.or (field node "responseData") (JStr "{}")) context
      = Throw (ThrowError "Cannot convert object to primitive value"))).
Proof.
  apply (X11_only_output_nodes_throw Bench.realm (Bench.services (Ok ""))
           (Bench.node "mail" "email" [("to", JStr "{{x}}")])
           {| executionId := "e"; variables := JObject 0; previousResults := 2 |}
           {| heap :=
                {| objects :=
                     {[ 0 := {[ "x" := JObject 1 ]}; 1 := {[ "toString" := JNum "1" ]} ]};
                   arrays := ∅; fresh := 3 |};
              world := tt |}).
  vm_compute. reflexivity.
Defined.


(** An email node whose [to] is a number, and one whose [to] names a
    variable that cannot be converted to a string: the traversal turns what
    is thrown into a failure. *)
Example email_type_error_is_a_failure :
  (executeFromNode Bench.realm (Bench.services (Ok "")) 1
     (Bench.node "mail" "email" [("to", JNum "5")]) [] []
     {| run_context := Bench.hi_context; run_machine := Bench.machine;
        run_calls := [] |}).1
  = Some (failure "template.replace is not a function").
Proof. vm_compute. reflexivity. Qed.

(** * The services behind the handlers *)

(** [OpenAIService.chat], [LLMService.chat] and [generateResponse], and
    [LangChainService.executeCode], over what they call themselves: the
    [chat.completions.create] of the OpenAI client, taken with
    [response.choices[0].message.content] (a string or [null]; an answer of
    another shape makes that expression throw), and [JSON.stringify], which
    reads the heap and throws on a value that contains itself. *)

(** Calls that settle, one after another. *)
Definition tret {World A} (a : A) : T World A := fun m => (Ok a, m).

Definition tthrow {World A} (t : Thrown) : T World A := fun m => (Throw t, m).

Definition tbind {World A B} (c : T World A) (k : A -> T World B) : T World B :=
  fun m =>
    match c m with
    | (Ok a, m') => k a m'
    | (Throw t, m') => (Throw t, m')
    end.

Definition tcatch {World A} (c : T World A) (h : Thrown -> T World A) : T World A :=
  fun m =>
    match c m with
    | (Throw t, m') => h t m'
    | r => r
    end.

Definition teval {World A} (e : Heap -> Exc A) : T World A :=
  fun m => (e (heap m), m).

Definition tobject {World} (l : list (string * JsValue)) : T World JsValue :=
  fun m =>
    let (v, h) := alloc_object (list_to_map l) (heap m) in
    (Ok v, {| heap := h; world := world m |}).

Definition tarray {World} (l : list JsValue) : T World JsValue :=
  fun m =>
    let (v, h) := alloc_array l (heap m) in
    (Ok v, {| heap := h; world := world m |}).

Declare Scope service_scope.
Delimit Scope service_scope with service.
Notation "x <- c ;; k" := (tbind c (fun x => k))
  (at level 100, c at next level, right associativity) : service_scope.

Section ServiceModels.

Context (realm : Realm) {World : Type}.

Local Open Scope service_scope.

(** The elements that a spread [...v] gives: those of an array, the
    characters of a string; no other value of the model is iterable. *)
Definition spread_elements (h : Heap) (v : JsValue) : Exc (list JsValue) :=
  match v with
  | JArray l => Ok (items h l)
  | JStr s => Ok (JStr <$> code_points s)
  | _ => Throw (ThrowError "Spread syntax requires ...iterable[Symbol.iterator] to be a function")
  end.

(** The [messages] that both chat services build: the optional system
    message, then [...options.messages]. *)
Definition chat_messages (options : JsValue) : T World JsValue :=
  systemPrompt <- teval (fun h => prop h options "systemPrompt") ;;
  system <-
    (if truthy systemPrompt
     then message <- tobject [("role", JStr "system"); ("content", systemPrompt)] ;;
          tret [message]
     else tret []) ;;
  messages <- teval (fun h => prop h options "messages") ;;
  rest <- teval (fun h => spread_elements h messages) ;;
  tarray (system ++ rest).

(** The request that both chat services send, [maxTokens] apart. *)
Definition chat_request (options messages : JsValue) (maxTokens : string)
    : T World JsValue :=
  model <- teval (fun h => prop h options "model") ;;
  temperature <- teval (fun h => prop h options "temperature") ;;
  max_tokens <- teval (fun h => prop h options "maxTokens") ;;
  tobject [("model", Js.or model (JStr "gpt-4o"));
           ("messages", messages);
           ("temperature", Js.or temperature (JNum "0.7"));
           ("max_tokens", Js.or max_tokens (JNum maxTokens))].

(** [OpenAIService.chat]: whatever goes wrong is logged and replaced by one
    error. *)
Definition OpenAIService_chat (create : JsValue -> T World (option string))
    (options : JsValue) : T World string :=
  tcatch
    (messages <- chat_messages options ;;
     request <- chat_request options messages "150" ;;
     content <- create request ;;
     tret (default "" content))
    (fun _ => tthrow (ThrowError "Failed to process chat completion")).

(** The keys of [LLM_PROVIDERS]. *)
Definition LLM_PROVIDERS : list string :=
  ["openai"; "anthropic"; "google"; "cohere"; "mistral"].

(** Whether [LLM_PROVIDERS[provider]] is truthy: the key is the string of
    [provider]; an entry of the table is an object, and a key that is not in
    the table gives what a plain object inherits under it. *)
Definition provider_known (h : Heap) (provider : JsValue) : Exc bool :=
  (key <- to_string h provider ;;
   Ok (if existsb (String.eqb key) LLM_PROVIDERS then true
       else match inherited realm KObject key with
            | Some member => truthy_member member
            | None => false
            end))%exc.

(** [LLMService.chatOpenAI]; [getOpenAIClient], which throws without an API
    key, is part of [create]. *)
Definition chatOpenAI (create : JsValue -> T World (option string))
    (options : JsValue) : T World string :=
  tcatch
    (messages <- chat_messages options ;;
     request <- chat_request options messages "500" ;;
     content <- create request ;;
     tret (default "" content))
    (fun _ => tthrow (ThrowError "Failed to process OpenAI chat completion")).

(** The answer of a provider that is not wired to anything. *)
Definition placeholder (name : string) (options : JsValue) : T World string :=
  model <- teval (fun h => prop h options "model") ;;
  model <- teval (fun h => to_string h model) ;;
  tret ("[" +:+ name +:+ " " +:+ model
        +:+ "] This provider needs to be configured with API key and SDK.").

(** [LLMService.chat]: the provider is looked up in [LLM_PROVIDERS], then
    matched by the [switch], which compares with [===]. *)
Definition LLMService_chat (create : JsValue -> T World (option string))
    (options : JsValue) : T World string :=
  provider <- teval (fun h => prop h options "provider") ;;
  known <- teval (fun h => provider_known h provider) ;;
  if negb known
  then name <- teval (fun h => to_string h provider) ;;
       tthrow (ThrowError ("Unsupported provider: " +:+ name))
  else if is_str provider "openai" then chatOpenAI create options
  else if is_str provider "anthropic" then placeholder "Anthropic" options
  else if is_str provider "google" then placeholder "Google" options
  else if is_str provider "cohere" then placeholder "Cohere" options
  else if is_str provider "mistral" then placeholder "Mistral" options
  else name <- teval (fun h => to_string h provider) ;;
       tthrow (ThrowError ("Provider " +:+ name +:+ " not implemented yet")).

(** [LLMService.generateResponse]: the context is serialised when it is
    truthy, as the object that the engine hands over always is. *)
Definition LLMService_generateResponse (create : JsValue -> T World (option string))
    (stringify : Heap -> JsValue -> Exc string)
    (provider model : JsValue) (prompt : string) (context : JsValue)
    : T World string :=
  about <-
    (if truthy context
     then json <- teval (fun h => stringify h context) ;;
          tret ("Context: " +:+ json)
     else tret "") ;;
  let systemPrompt := "You are a helpful AI assistant. " +:+ about in
  message <- tobject [("role", JStr "user"); ("content", JStr prompt)] ;;
  messages <- tarray [message] ;;
  options <-
    tobject [("provider", provider); ("model", model); ("messages", messages);
             ("systemPrompt", JStr systemPrompt);
             ("temperature", JNum "0.7"); ("maxTokens", JNum "500")] ;;
  LLMService_chat create options.

(** [LangChainService.executeCode]: nothing is executed.  [code] is the
    string that the handler has interpolated; [substring(0, 50)] counts
    UTF-16 units. *)
Definition LangChainService_executeCode (code : string) (language timeout : JsValue)
    : T World JsValue :=
  tcatch
    (let language := default_to language (JStr "python") in
     if is_str language "python"
     then tobject [("success", JBool true);
                   ("result",
                    JStr ("Simulated Python execution result: "
                          +:+ substring0 50 code +:+ "..."))]
     else if is_str language "javascript"
     then tobject [("success", JBool true);
                   ("result",
                    JStr ("Simulated JavaScript execution result: "
                          +:+ substring0 50 code +:+ "..."))]
     else name <- teval (fun h => to_string h language) ;;
          tthrow (ThrowError ("Unsupported language: " +:+ name)))
    (fun e =>
       tobject [("success", JBool false);
                ("error", JStr (error_message e "Unknown error executing code"))]).

(** [OpenAIService.chat] throws one error only. *)
Lemma OpenAIService_chat_Throw (create : JsValue -> T World (option string))
    (options : JsValue) (m m' : Machine World) (e : Thrown) :
  OpenAIService_chat create options m = (Throw e, m') ->
  e = ThrowError "Failed to process chat completion".
Proof.
  unfold OpenAIService_chat, tcatch, tthrow.
  match goal with
  | |- context [match ?c m with _ => _ end] => destruct (c m) as [[a|e'] m1]
  end; [discriminate | now intros [= <- _]].
Qed.

End ServiceModels.

Section ServiceFacts.

Context (realm : Realm) {World : Type} (sv : Services World).
Context (create : JsValue -> T World (option string)).

Lemma await_Throw {A : Type} (c : T World A) (m m' : Machine World) (e : Thrown) :
  await c m = (Some (Throw e), m') -> c m = (Throw e, m').
Proof. unfold await. destruct (c m) as [r m1]. now intros [= -> ->]. Qed.

Lemma new_object_Ok (l : list (string * JsValue)) (m m' : Machine World) (d : JsValue) :
  new_object l m = (Some (Ok d), m') -> heap_extends (heap m) (heap m').
Proof. intros [= _ <-]. apply alloc_object_extends. Qed.


(** What a [code-executor] node gives for the text [code] and the language
    [language], in the heap [h] in which the service is called. *)
Definition simulated (h : Heap) (code : string) (language : JsValue)
    : string + string :=
  if is_str language "python"
  then inl ("Simulated Python execution result: " +:+ substring0 50 code +:+ "...")
  else if is_str language "javascript"
  then inl ("Simulated JavaScript execution result: " +:+ substring0 50 code +:+ "...")
  else inr match to_string h language with
           | Ok name => "Unsupported language: " +:+ name
           | Throw e => error_message e "Unknown error executing code"
           end.

Lemma or_truthy (a b : JsValue) : truthy b = true -> truthy (Js.or a b) = true.
Proof. unfold Js.or. destruct (truthy a) eqn:Ha; auto. Qed.

Lemma default_to_truthy (v d : JsValue) : truthy v = true -> default_to v d = v.
Proof. destruct v; try reflexivity. discriminate. Qed.

Lemma prop_truthy (h : Heap) (v : JsValue) (k : string) :
  truthy v = true -> Js.prop h v k = Ok (default JUndefined (own h v k)).
Proof. destruct v; try reflexivity; discriminate. Qed.

Lemma prop_new (h : Heap) (p : gmap string JsValue) (k : string) :
  Js.prop (alloc_object p h).2 (alloc_object p h).1 k = Ok (default JUndefined (p !! k)).
Proof.
  unfold Js.prop, own, props. simpl. now rewrite lookup_insert_eq.
Qed.

Lemma prop_object (h : Heap) (l : loc) (k : string) :
  Js.prop h (JObject l) k = Ok (default JUndefined (props h l !! k)).
Proof. reflexivity. Qed.

Lemma props_alloc (p : gmap string JsValue) (os : gmap loc (gmap string JsValue))
    (ars : gmap loc (list JsValue)) (l n : loc) :
  props {| objects := <[l := p]> os; arrays := ars; fresh := n |} l = p.
Proof. unfold props. simpl. now rewrite lookup_insert_eq. Qed.

Lemma from_service_success (result v : JsValue)
    (payload : M World (list (string * JsValue))) (m : Machine World) :
  Js.prop (heap m) result "success" = Ok v ->
  truthy v = true ->
  from_service result payload m =
  bind payload (fun fields => bind (new_object fields) (fun d => ret (succeeded d))) m.
Proof.
  intros Hv Ht. unfold from_service, bind at 1, read, eval. now rewrite Hv, Ht.
Qed.

Lemma from_service_failure (result v e : JsValue)
    (payload : M World (list (string * JsValue))) (m : Machine World) :
  Js.prop (heap m) result "success" = Ok v ->
  truthy v = false ->
  Js.prop (heap m) result "error" = Ok e ->
  from_service result payload m =
  (Some (Ok {| success := false; data := JUndefined; error := error_of e |}), m).
Proof.
  intros Hv Ht He. unfold from_service, bind, read, eval, ret. now rewrite Hv, Ht, He.
Qed.

Lemma tobject_spec (l : list (string * JsValue)) (m : Machine World) :
  exists d m',
    tobject l m = (Ok d, m') /\
    world m' = world m /\
    heap_extends (heap m) (heap m') /\
    forall k,
      Js.prop (heap m') d k =
      Ok (default JUndefined ((list_to_map l : gmap string JsValue) !! k)).
Proof.
  eexists _, _. split; [reflexivity|]. split; [reflexivity|].
  split; [apply alloc_object_extends|]. intros k. apply prop_new.
Qed.

Lemma new_object_spec (l : list (string * JsValue)) (m : Machine World) :
  exists d m',
    new_object l m = (Some (Ok d), m') /\
    world m' = world m /\
    heap_extends (heap m) (heap m') /\
    forall k,
      Js.prop (heap m') d k =
      Ok (default JUndefined ((list_to_map l : gmap string JsValue) !! k)).
Proof.
  eexists _, _. split; [reflexivity|]. split; [reflexivity|].
  split; [apply alloc_object_extends|]. intros k. apply prop_new.
Qed.

(** What [LangChainService.executeCode] answers. *)
Lemma LangChainService_executeCode_result (code : string) (language timeout : JsValue)
    (m : Machine World) :
  truthy language = true ->
  exists result m',
    LangChainService_executeCode code language timeout m = (Ok result, m') /\
    world m' = world m /\
    heap_extends (heap m) (heap m') /\
    match simulated (heap m) code language with
    | inl text =>
        Js.prop (heap m') result "success" = Ok (JBool true) /\
        Js.prop (heap m') result "result" = Ok (JStr text)
    | inr message =>
        Js.prop (heap m') result "success" = Ok (JBool false) /\
        Js.prop (heap m') result "error" = Ok (JStr message)
    end.
Proof.
  intros Hlang. unfold LangChainService_executeCode, simulated, tcatch.
  rewrite (default_to_truthy _ _ Hlang).
  destruct (is_str language "python");
    [|destruct (is_str language "javascript")].
  - match goal with
    | |- context [tobject ?l m] =>
        destruct (tobject_spec l m) as (d & m' & -> & Hw & Hh & Hd)
    end.
    exists d, m'. split; [reflexivity|]. split; [exact Hw|]. split; [exact Hh|].
    rewrite !Hd. split; reflexivity.
  - match goal with
    | |- context [tobject ?l m] =>
        destruct (tobject_spec l m) as (d & m' & -> & Hw & Hh & Hd)
    end.
    exists d, m'. split; [reflexivity|]. split; [exact Hw|]. split; [exact Hh|].
    rewrite !Hd. split; reflexivity.
  - unfold tbind, teval, tthrow.
    destruct (to_string (heap m) language) as [name|e];
      match goal with
      | |- context [tobject ?l m] =>
          destruct (tobject_spec l m) as (d & m' & -> & Hw & Hh & Hd)
      end;
      exists d, m'; (split; [reflexivity|]); (split; [exact Hw|]); (split; [exact Hh|]);
      rewrite !Hd; split; reflexivity.
Qed.

(** X14.  With [LangChainService.executeCode] as the code service, a
    [code-executor] node executes nothing: it gives a result and leaves the
    world and the objects of the heap as they were.  When the interpolation
    of [config.code] throws, the node fails with what was thrown.
    Otherwise, for the languages python and javascript the node succeeds,
    and its data carries as [result] a fixed sentence around the first fifty
    UTF-16 units of the interpolated code; for any other language it fails,
    with [Unsupported language: <language>], or with what the conversion of
    the language to a string has thrown. *)
Theorem X14_code_executor_executes_nothing (node : WorkflowNode)
    (context : WorkflowContext) (m : Machine World) :
  (forall code language timeout m0,
     lc_executeCode sv code language timeout m0 =
     LangChainService_executeCode code language timeout m0) ->
  field node "type" = JStr "code-executor" ->
  exists config m1 r m',
    or_new_object (field node "config") m = (Some (Ok config), m1) /\
    executeNode realm sv node context m = (Some (Ok r), m') /\
    world m' = world m /\
    heap_extends (heap m) (heap m') /\
    let h := heap m1 in
    let language := Js.or (default JUndefined (own h config "language")) (JStr "python") in
    match
      interpolate_value realm h
        (Js.or (default JUndefined (own h config "code")) (JStr "")) context
    with
    | Throw e =>
        r = failure (error_message e "Code executor execution failed")
    | Ok code =>
        match simulated h code language with
        | inl text =>
            success r = true /\
            Js.prop (heap m') (data r) "result" = Ok (JStr text) /\
            Js.prop (heap m') (data r) "language" = Ok language
        | inr message =>
            r = {| success := false; data := JUndefined; error := Some message |}
        end
    end.
Proof.
  intros Hservice Htype.
  assert (exists config m1,
            or_new_object (field node "config") m = (Some (Ok config), m1) /\
            truthy config = true /\ world m1 = world m /\
            heap_extends (heap m) (heap m1)) as (config & m1 & Hconfig & Htruthy & Hw1 & Hh1).
  { unfold or_new_object. destruct (truthy (field node "config")) eqn:Hc.
    - eexists _, _. split; [reflexivity|]. split; [exact Hc|]. split; [reflexivity|].
      apply heap_extends_refl.
    - eexists _, _. split; [reflexivity|]. split; [reflexivity|]. split; [reflexivity|].
      apply alloc_object_extends. }
  exists config, m1.
  unfold executeNode, isLangChainNode, executeLangChainNode. rewrite !Htype. simpl.
  cbv beta iota zeta delta
    [executeCodeExecutor try_catch bind read interpolateTemplate_any eval await].
  rewrite Hconfig. cbv beta iota. rewrite !(prop_truthy _ _ _ Htruthy).
  set (language := Js.or (default JUndefined (own (heap m1) config "language")) (JStr "python")).
  assert (truthy language = true) as Hlang by (now apply or_truthy).
  destruct (interpolate_value realm (heap m1)
              (Js.or (default JUndefined (own (heap m1) config "code")) (JStr "")) context)
    as [code|e] eqn:Hcode.
  - rewrite Hservice.
    match goal with
    | |- context [LangChainService_executeCode code language ?t m1] =>
        destruct (LangChainService_executeCode_result code language t m1 Hlang)
          as (result & m2 & -> & Hw2 & Hh2 & Hresult)
    end.
    destruct (simulated (heap m1) code language) as [text|message];
      destruct Hresult as [Hok Hres].
    + rewrite (from_service_success _ _ _ _ Hok eq_refl).
      unfold bind at 1, read, eval, bind at 1. rewrite Hres. unfold ret at 1.
      unfold bind.
      match goal with
      | |- context [new_object ?l m2] =>
          destruct (new_object_spec l m2) as (d & m3 & -> & Hw3 & Hh3 & Hd)
      end.
      eexists _, _. split; [reflexivity|]. split; [reflexivity|].
      split; [congruence|]. split.
      { eapply heap_extends_trans; [exact Hh1|].
        eapply heap_extends_trans; [exact Hh2 | exact Hh3]. }
      split; [reflexivity|]. simpl. rewrite !Hd. split; reflexivity.
    + rewrite (from_service_failure _ _ _ _ _ Hok eq_refl Hres).
      eexists _, _. split; [reflexivity|]. split; [reflexivity|].
      split; [congruence|]. split; [|reflexivity].
      eapply heap_extends_trans; [exact Hh1 | exact Hh2].
  - eexists _, _. split; [reflexivity|]. split; [reflexivity|]. split; [exact Hw1|].
    split; [exact Hh1 | reflexivity].
Qed.

(** The label of a provider that [LLMService] answers for itself. *)
Definition provider_label (provider : string) : option string :=
  if String.eqb provider "anthropic" then Some "Anthropic"
  else if String.eqb provider "google" then Some "Google"
  else if String.eqb provider "cohere" then Some "Cohere"
  else if String.eqb provider "mistral" then Some "Mistral"
  else None.

Lemma tarray_spec (l : list JsValue) (m : Machine World) :
  exists d m',
    tarray l m = (Ok d, m') /\
    world m' = world m /\
    heap_extends (heap m) (heap m').
Proof.
  eexists _, _. split; [reflexivity|]. split; [reflexivity|].
  apply alloc_array_extends.
Qed.

(** What [LLMService.generateResponse] answers for a provider that is not
    wired to anything: [m'] is the machine of the call with the three
    objects of the request, in which the model is converted. *)
Lemma LLMService_generateResponse_placeholder
    (stringify : Heap -> JsValue -> Exc string) (provider label : string)
    (model : JsValue) (prompt : string) (context : JsValue) (m : Machine World)
    (json : string) :
  provider_label provider = Some label ->
  truthy context = true ->
  stringify (heap m) context = Ok json ->
  exists m',
    LLMService_generateResponse realm create stringify (JStr provider) model prompt
      context m =
    (match to_string (heap m') model with
     | Ok name =>
         Ok ("[" +:+ label +:+ " " +:+ name
             +:+ "] This provider needs to be configured with API key and SDK.")
     | Throw e => Throw e
     end, m') /\
    world m' = world m /\
    heap_extends (heap m) (heap m').
Proof.
  intros Hlabel Htruthy Hjson.
  unfold LLMService_generateResponse. rewrite Htruthy.
  cbv beta iota delta [tbind teval tret]. rewrite Hjson. cbv beta iota.
  match goal with
  | |- context [tobject ?l m] =>
      destruct (tobject_spec l m) as (d1 & m1 & -> & Hw1 & Hh1 & _)
  end.
  cbv beta iota.
  destruct (tarray_spec [d1] m1) as (d2 & m2 & -> & Hw2 & Hh2).
  cbv beta iota.
  match goal with
  | |- context [tobject ?l m2] =>
      destruct (tobject_spec l m2) as (d3 & m3 & -> & Hw3 & Hh3 & Hd3)
  end.
  cbv beta iota.
  assert (heap_extends (heap m) (heap m3)) as Hext.
  { eapply heap_extends_trans; [exact Hh1|].
    eapply heap_extends_trans; [exact Hh2 | exact Hh3]. }
  assert (Js.prop (heap m3) d3 "provider" = Ok (JStr provider)) as Hp
    by (rewrite Hd3; reflexivity).
  assert (Js.prop (heap m3) d3 "model" = Ok model) as Hm
    by (rewrite Hd3; reflexivity).
  exists m3. split; [|split; [congruence | exact Hext]].
  unfold LLMService_chat. cbv beta iota delta [tbind teval tret]. rewrite Hp.
  cbv beta iota. unfold provider_known. rewrite to_string_str. cbn [exc_bind].
  unfold provider_label in Hlabel.
  repeat match type of Hlabel with
         | (if String.eqb ?a ?b then _ else _) = _ =>
             destruct (String.eqb_spec a b) as [->|?]
         end; try discriminate;
    injection Hlabel as <-; simpl;
    unfold placeholder; cbv beta iota delta [tbind teval tret];
    rewrite Hm; cbv beta iota;
    destruct (to_string (heap m3) model); reflexivity.
Qed.

(** X15.  With [LLMService.generateResponse] as the agent service, an
    [agent] node whose provider is anthropic, google, cohere or mistral
    contacts no model.  When its prompt interpolates and the earlier results
    can be serialised, the service builds its request (three objects more in
    the heap, [m0]) and converts the model to a string: the node succeeds
    with a fixed placeholder sentence around that string as response, leaves
    the world and the objects of the heap as they were, and its data carries
    as [context] the results object itself; when the conversion throws, the
    node fails with what was thrown. *)
Theorem X15_agent_placeholder_providers (stringify : Heap -> JsValue -> Exc string)
    (node : WorkflowNode) (context : WorkflowContext) (m : Machine World)
    (provider label prompt json : string) :
  (forall p mo t c m0,
     llm_generateResponse sv p mo t c m0 =
     LLMService_generateResponse realm create stringify p mo t c m0) ->
  node_type node = "agent" ->
  isLangChainNode node = false ->
  field node "provider" = JStr provider ->
  provider_label provider = Some label ->
  interpolate_value realm (heap m) (Js.or (field node "prompt") (JStr "")) context
    = Ok prompt ->
  stringify (heap m) (JObject (previousResults context)) = Ok json ->
  exists m0,
    world m0 = world m /\
    heap_extends (heap m) (heap m0) /\
    match to_string (heap m0) (default_to (field node "model") (JStr "gpt-4o")) with
    | Ok name =>
        exists r m',
          executeNode realm sv node context m = (Some (Ok r), m') /\
          world m' = world m /\
          heap_extends (heap m) (heap m') /\
          success r = true /\
          Js.prop (heap m') (data r) "response" =
            Ok (JStr ("[" +:+ label +:+ " " +:+ name
                      +:+ "] This provider needs to be configured with API key and SDK.")) /\
          Js.prop (heap m') (data r) "context" = Ok (JObject (previousResults context))
    | Throw e =>
        executeNode realm sv node context m =
        (Some (Ok (failure (error_message e "Agent execution failed"))), m0)
    end.
Proof.
  intros Hservice Htype Hlang Hprovider Hlabel Hprompt Hjson.
  destruct (LLMService_generateResponse_placeholder stringify provider label
              (default_to (field node "model") (JStr "gpt-4o")) prompt
              (JObject (previousResults context)) m json
              Hlabel eq_refl Hjson) as (m1 & Hgen & Hw1 & Hh1).
  exists m1. split; [exact Hw1|]. split; [exact Hh1|].
  assert (llm_generateResponse sv
            (default_to (field node "provider") (JStr "openai"))
            (default_to (field node "model") (JStr "gpt-4o")) prompt
            (JObject (previousResults context)) m =
          (match
             to_string (heap m1) (default_to (field node "model") (JStr "gpt-4o"))
           with
           | Ok name =>
               Ok ("[" +:+ label +:+ " " +:+ name
                   +:+ "] This provider needs to be configured with API key and SDK.")
           | Throw e => Throw e
           end, m1)) as Hcall.
  { rewrite Hservice, Hprovider. simpl default_to at 1. exact Hgen. }
  unfold executeNode. rewrite Hlang, Htype. simpl.
  unfold executeAgent.
  cbv beta iota zeta delta [try_catch bind interpolateTemplate_any eval await ret].
  rewrite Hprompt. cbv beta iota. rewrite Hcall.
  destruct (to_string (heap m1) (default_to (field node "model") (JStr "gpt-4o")))
    as [name|e]; cbv beta iota; [|reflexivity].
  match goal with
  | |- context [new_object ?l m1] =>
      destruct (new_object_spec l m1) as (d & m2 & -> & Hw2 & Hh2 & Hd)
  end.
  cbv beta iota.
  eexists _, _. split; [reflexivity|]. split; [congruence|]. split.
  { eapply heap_extends_trans; [exact Hh1 | exact Hh2]. }
  split; [reflexivity|]. simpl. rewrite !Hd. split; reflexivity.
Qed.

End ServiceFacts.

(** Services wired to the models above, with a client that always fails and
    a serialiser that fails on an object that contains itself. *)
Module Wired.

Definition rate_limited : JsValue -> T unit (option string) :=
  fun _ m => (Throw (ThrowError "429 rate limit exceeded"), m).

(** Whether [v] is reached again from itself, through objects and arrays;
    [fuel] bounds the depth. *)
Fixpoint cyclic (fuel : nat) (h : Heap) (stack : list JsValue) (v : JsValue) : bool :=
  match v with
  | JObject _ | JArray _ =>
      if bool_decide (v ∈ stack) then true
      else match fuel with
           | O => false
           | S fuel' =>
               existsb (cyclic fuel' h (v :: stack))
                 match v with
                 | JObject l => (map_to_list (props h l)).*2
                 | JArray l => items h l
                 | _ => []
                 end
           end
  | _ => false
  end.

(** A stand-in for [JSON.stringify] that fails where it does, and does not
    render the value. *)
Definition stringify (h : Heap) (v : JsValue) : Exc string :=
  if cyclic (fresh h) h [] v
  then Throw (ThrowError "Converting circular structure to JSON")
  else Ok "{}".

Definition services : Services unit :=
  {| openai_chat := OpenAIService_chat rate_limited;
     llm_generateResponse :=
       LLMService_generateResponse Bench.realm rate_limited stringify;
     lc_processPDF := lc_processPDF (Bench.services (Ok ""));
     lc_processCSV := lc_processCSV (Bench.services (Ok ""));
     lc_scrapeURL := lc_scrapeURL (Bench.services (Ok ""));
     lc_createPineconeStore := lc_createPineconeStore (Bench.services (Ok ""));
     lc_createWeaviateStore := lc_createWeaviateStore (Bench.services (Ok ""));
     lc_chatWithOpenAI := lc_chatWithOpenAI (Bench.services (Ok ""));
     lc_chatWithAnthropic := lc_chatWithAnthropic (Bench.services (Ok ""));
     lc_createConversationMemory := lc_createConversationMemory (Bench.services (Ok ""));
     lc_webSearch := lc_webSearch (Bench.services (Ok ""));
     lc_executeCode := LangChainService_executeCode;
     run_function := run_function (Bench.services (Ok ""));
     now := now (Bench.services (Ok ""));
     randomUUID := randomUUID (Bench.services (Ok "")) |}.

(** The heap of the bench, with the [config] of a code executor at 5. *)
Definition machine : Machine unit :=
  {| heap :=
       {| objects :=
            <[5 := {[ "code" := JStr "print('{{message}}')";
                      "language" := JStr "ruby" ]}]> (objects Bench.bench_heap);
          arrays := arrays Bench.bench_heap;
          fresh := 6 |};
     world := tt |}.

Definition openai_node : WorkflowNode :=
  Bench.node "ask" "openai" [("userMessage", JStr "{{message}}")].

Definition executor_node : WorkflowNode :=
  Bench.node "run" "tool" [("type", JStr "code-executor"); ("config", JObject 5)].

Definition agent_node (id : string) : WorkflowNode :=
  Bench.node id "agent" [("provider", JStr "anthropic"); ("prompt", JStr "Hello")].

End Wired.


(** The provider said "429 rate limit exceeded"; the node says something
    else. *)
Example openai_node_rate_limited :
  (executeNode Bench.realm Wired.services Wired.openai_node Bench.hi_context
     Bench.machine).1
  = Some (Ok (failure "Failed to process chat completion")).
Proof. vm_compute. reflexivity. Qed.

Lemma X14_witness :
  exists r m',
    executeNode Bench.realm Wired.services Wired.executor_node Bench.hi_context
      Wired.machine = (Some (Ok r), m') /\
    r = {| success := false; data := JUndefined;
           error := Some "Unsupported language: ruby" |}.
Proof.
  destruct (X14_code_executor_executes_nothing Bench.realm Wired.services
              Wired.executor_node Bench.hi_context Wired.machine
              ltac:(reflexivity) ltac:(reflexivity))
    as (config & m1 & r & m' & Hconfig & Hnode & _ & _ & Hr).
  exists r, m'. split; [exact Hnode|].
  injection Hconfig as <- <-. exact Hr.
Defined.

(** Fifty units of the code, not fifty bytes: a character outside the
    basic plane counts for two. *)
Example substring_counts_units :
  substring0 3 "a😀b" = "a😀" /\ substring0 2 "a😀b" <> "a😀".
Proof. split; [vm_compute; reflexivity | vm_compute; discriminate]. Qed.

Lemma X15_witness :
  exists r m',
    executeNode Bench.realm Wired.services (Wired.agent_node "agent") Bench.hi_context
      Bench.machine = (Some (Ok r), m') /\
    success r = true /\
    Js.prop (heap m') (data r) "response" =
      Ok (JStr "[Anthropic gpt-4o] This provider needs to be configured with API key and SDK.") /\
    Js.prop (heap m') (data r) "context"
      = Ok (JObject (previousResults Bench.hi_context)).
Proof.
  destruct (X15_agent_placeholder_providers Bench.realm Wired.services
              Wired.rate_limited Wired.stringify (Wired.agent_node "agent")
              Bench.hi_context Bench.machine "anthropic" "Anthropic" "Hello" "{}"
              ltac:(reflexivity) ltac:(reflexivity) ltac:(reflexivity)
              ltac:(reflexivity) ltac:(reflexivity) ltac:(reflexivity)
              ltac:(reflexivity))
    as (m0 & _ & _ & Hnode).
  change (to_string (heap m0)
            (default_to (field (Wired.agent_node "agent") "model") (JStr "gpt-4o")))
    with (Ok (A := string) "gpt-4o") in Hnode.
  destruct Hnode as (r & m' & Hrun & _ & _ & Hs & Hresponse & Hcontext).
  exists r, m'. auto.
Defined.

(** The data of an agent node holds the results object, and is stored in
    it: from then on the results contain themselves, and a second agent node
    fails where it serialises them. *)
Example second_agent_node_fails :
  let run :=
    executeFromNode Bench.realm Wired.services 2 (Wired.agent_node "first")
      [Wired.agent_node "first"; Wired.agent_node "second"]
      [Bench.edge "first" "second"]
      {| run_context := Bench.hi_context; run_machine := Bench.machine;
         run_calls := [] |} in
  (run_calls run.2).*1 = ["first"; "second"] /\
  run.1 = Some (failure "Converting circular structure to JSON").
Proof. split; vm_compute; reflexivity. Qed.

(** * The rest of the in-memory storage *)

(** ** A JavaScript [Map] with string keys

    The entries in insertion order: [set] on a key that is present replaces
    its value where it stands, on a new key it appends; the keys of a map
    built with [set] and [delete] are distinct. *)

Module JsMap.

Definition t (V : Type) : Type := list (string * V).

Fixpoint get {V : Type} (k : string) (m : t V) : option V :=
  match m with
  | [] => None
  | (k', v) :: m' => if String.eqb k' k then Some v else get k m'
  end.

Fixpoint set {V : Type} (k : string) (v : V) (m : t V) : t V :=
  match m with
  | [] => [(k, v)]
  | (k', v') :: m' =>
      if String.eqb k' k then (k, v) :: m' else (k', v') :: set k v m'
  end.

Definition delete {V : Type} (k : string) (m : t V) : t V :=
  List.filter (fun e => negb (String.eqb e.1 k)) m.

Definition has {V : Type} (k : string) (m : t V) : bool :=
  match get k m with
  | Some _ => true
  | None => false
  end.

(** [Array.from(m.values())] *)
Definition values {V : Type} (m : t V) : list V := map snd m.

End JsMap.

(** ** Users and workflows *)

Record User : Type := {
  user_id : string;
  user_username : string;
  user_password : string
}.

Record InsertUser : Type := {
  new_username : string;
  new_password : string
}.

(** A row of [workflows].  The [jsonb] columns [nodes] and [edges] hold what
    the engine is given, nodes and edges; a nullable column is an option. *)
Record Workflow : Type := {
  wf_id : string;
  wf_name : string;
  wf_description : option string;
  wf_userId : option string;
  wf_nodes : list WorkflowNode;
  wf_edges : list WorkflowEdge;
  wf_settings : JsValue;
  wf_isActive : bool;
  wf_createdAt : string;
  wf_updatedAt : string
}.

(** [InsertWorkflow]: all but the name may be absent; an absent [settings]
    is [undefined]. *)
Record InsertWorkflow : Type := {
  ins_name : string;
  ins_description : option string;
  ins_nodes : option (list WorkflowNode);
  ins_edges : option (list WorkflowEdge);
  ins_settings : JsValue;
  ins_isActive : option bool
}.

(** [Partial<InsertWorkflow>]: [None] is a key the object does not have. *)
Record WorkflowUpdates : Type := {
  set_name : option string;
  set_description : option (option string);
  set_nodes : option (list WorkflowNode);
  set_edges : option (list WorkflowEdge);
  set_settings : option JsValue;
  set_isActive : option bool
}.

(** The three maps of [MemStorage], in insertion order.  (The executions
    are the ones of [MemStorage] above, where only lookups matter.) *)
Record Store : Type := {
  users : JsMap.t User;
  workflows : JsMap.t Workflow;
  executions : JsMap.t WorkflowExecution
}.

Definition defaultUser : User :=
  {| user_id := "default-user"; user_username := "demo"; user_password := "demo123" |}.

(** [new MemStorage()] *)
Definition new_store : Store :=
  {| users := JsMap.set (user_id defaultUser) defaultUser [];
     workflows := [];
     executions := [] |}.

(** [description || null]: the empty string is falsy. *)
Definition or_null (d : option string) : option string :=
  match d with
  | Some t => if String.eqb t "" then None else Some t
  | None => None
  end.

(** [{...workflow, ...updates, updatedAt}] *)
Definition apply_workflow_updates (workflow : Workflow) (updates : WorkflowUpdates)
    (updatedAt : string) : Workflow :=
  {| wf_id := wf_id workflow;
     wf_name := default (wf_name workflow) (set_name updates);
     wf_description := default (wf_description workflow) (set_description updates);
     wf_userId := wf_userId workflow;
     wf_nodes := default (wf_nodes workflow) (set_nodes updates);
     wf_edges := default (wf_edges workflow) (set_edges updates);
     wf_settings := default (wf_settings workflow) (set_settings updates);
     wf_isActive := default (wf_isActive workflow) (set_isActive updates);
     wf_createdAt := wf_createdAt workflow;
     wf_updatedAt := updatedAt |}.

(** [Array.prototype.sort] with a comparator: the sort is stable, so with a
    consistent comparator its result is the one of any stable sort; this is
    insertion from the right. *)
Fixpoint insert_by {A : Type} (cmp : A -> A -> Z) (x : A) (l : list A) : list A :=
  match l with
  | [] => [x]
  | y :: l' => if (cmp x y <=? 0)%Z then x :: y :: l' else y :: insert_by cmp x l'
  end.

Definition sort_by {A : Type} (cmp : A -> A -> Z) (l : list A) : list A :=
  foldr (insert_by cmp) [] l.

Section MemStorageMethods.

Context {World : Type} (sv : Services World).

(** [new Date(d).getTime()] of a stored date. *)
Context (getTime : string -> Z).

Definition getUser (id : string) (st : Store) : option User :=
  JsMap.get id (users st).

Definition getUserByUsername (username : string) (st : Store) : option User :=
  List.find (fun user => String.eqb (user_username user) username)
    (JsMap.values (users st)).

Definition createUser (insertUser : InsertUser) (w : World) (st : Store)
    : User * World * Store :=
  let (id, w') := randomUUID sv w in
  let user :=
    {| user_id := id;
       user_username := new_username insertUser;
       user_password := new_password insertUser |} in
  (user, w',
   {| users := JsMap.set id user (users st);
      workflows := workflows st;
      executions := executions st |}).

(** [userId ? workflows.filter(w => w.userId === userId) : workflows] *)
Definition getWorkflows (userId : option string) (st : Store) : list Workflow :=
  let all := JsMap.values (workflows st) in
  match userId with
  | Some u =>
      if String.eqb u "" then all
      else List.filter
             (fun w => match wf_userId w with
                       | Some owner => String.eqb owner u
                       | None => false
                       end) all
  | None => all
  end.

Definition getWorkflow (id : string) (st : Store) : option Workflow :=
  JsMap.get id (workflows st).

Definition createWorkflow (insertWorkflow : InsertWorkflow) (m : Machine World)
    (st : Store) : Workflow * Machine World * Store :=
  let (id, w1) := randomUUID sv (world m) in
  let (t, w2) := now sv w1 in
  let (settings, h) := or_object (ins_settings insertWorkflow) (heap m) in
  let workflow :=
    {| wf_id := id;
       wf_name := ins_name insertWorkflow;
       wf_userId := Some "default-user";
       wf_description := or_null (ins_description insertWorkflow);
       wf_nodes := default [] (ins_nodes insertWorkflow);
       wf_edges := default [] (ins_edges insertWorkflow);
       wf_settings := settings;
       wf_isActive := default false (ins_isActive insertWorkflow);
       wf_createdAt := t;
       wf_updatedAt := t |} in
  (workflow, {| heap := h; world := w2 |},
   {| users := users st;
      workflows := JsMap.set id workflow (workflows st);
      executions := executions st |}).

Definition updateWorkflow (id : string) (updates : WorkflowUpdates) (w : World)
    (st : Store) : option Workflow * World * Store :=
  match JsMap.get id (workflows st) with
  | None => (None, w, st)
  | Some workflow =>
      let (t, w') := now sv w in
      let updatedWorkflow := apply_workflow_updates workflow updates t in
      (Some updatedWorkflow, w',
       {| users := users st;
          workflows := JsMap.set id updatedWorkflow (workflows st);
          executions := executions st |})
  end.

Definition deleteWorkflow (id : string) (st : Store) : bool * Store :=
  (JsMap.has id (workflows st),
   {| users := users st;
      workflows := JsMap.delete id (workflows st);
      executions := executions st |}).

(** The executions of a workflow, most recent first. *)
Definition getWorkflowExecutions (workflowId : string) (st : Store)
    : list WorkflowExecution :=
  sort_by
    (fun a b => (getTime (exec_executionTime b) - getTime (exec_executionTime a))%Z)
    (List.filter (fun execution => String.eqb (exec_workflowId execution) workflowId)
       (JsMap.values (executions st))).

(** The stores that the methods above make of a new one, when no generated
    id is the id of the default user. *)
Inductive Built : Store -> Prop :=
  | built_new : Built new_store
  | built_createUser insertUser w st :
      Built st ->
      (randomUUID sv w).1 <> "default-user" ->
      Built (createUser insertUser w st).2
  | built_createWorkflow insertWorkflow m st :
      Built st -> Built (createWorkflow insertWorkflow m st).2
  | built_updateWorkflow id updates w st :
      Built st -> Built (updateWorkflow id updates w st).2
  | built_deleteWorkflow id st :
      Built st -> Built (deleteWorkflow id st).2.

End MemStorageMethods.

(** ** The map *)

Section JsMapFacts.

Context {V : Type}.

Lemma get_set_eq (k : string) (v : V) (m : JsMap.t V) :
  JsMap.get k (JsMap.set k v m) = Some v.
Proof.
  induction m as [|[k' v'] m IH]; simpl.
  - now rewrite String.eqb_refl.
  - destruct (String.eqb_spec k' k) as [->|Hne]; simpl.
    + now rewrite String.eqb_refl.
    + destruct (String.eqb_spec k' k); [contradiction | exact IH].
Qed.

Lemma get_set_ne (k k' : string) (v : V) (m : JsMap.t V) :
  k' <> k -> JsMap.get k' (JsMap.set k v m) = JsMap.get k' m.
Proof.
  intros Hne. induction m as [|[k0 v0] m IH]; simpl.
  - destruct (String.eqb_spec k k'); [congruence | reflexivity].
  - destruct (String.eqb_spec k0 k) as [->|Hk]; simpl.
    + destruct (String.eqb_spec k k'); [congruence | reflexivity].
    + destruct (String.eqb_spec k0 k'); [reflexivity | exact IH].
Qed.

Lemma get_delete_eq (k : string) (m : JsMap.t V) :
  JsMap.get k (JsMap.delete k m) = None.
Proof.
  unfold JsMap.delete. induction m as [|[k' v'] m IH]; simpl; [reflexivity|].
  destruct (String.eqb_spec k' k) as [->|Hne]; simpl; [exact IH|].
  destruct (String.eqb_spec k' k); [contradiction | exact IH].
Qed.

Lemma get_delete_ne (k k' : string) (m : JsMap.t V) :
  k' <> k -> JsMap.get k' (JsMap.delete k m) = JsMap.get k' m.
Proof.
  intros Hne. unfold JsMap.delete. induction m as [|[k0 v0] m IH]; simpl; [reflexivity|].
  destruct (String.eqb_spec k0 k) as [->|Hk]; simpl.
  - destruct (String.eqb_spec k k'); [congruence | exact IH].
  - destruct (String.eqb_spec k0 k'); [reflexivity | exact IH].
Qed.

Lemma set_cons_ne (k k0 : string) (v v0 : V) (m : JsMap.t V) :
  k0 <> k -> JsMap.set k v ((k0, v0) :: m) = (k0, v0) :: JsMap.set k v m.
Proof.
  intros Hne. simpl. destruct (String.eqb_spec k0 k); [contradiction | reflexivity].
Qed.

(** Replacing the value of a key that is present keeps the order of the
    keys. *)
Lemma keys_set_present (k : string) (v : V) (m : JsMap.t V) :
  JsMap.has k m = true -> map fst (JsMap.set k v m) = map fst m.
Proof.
  unfold JsMap.has. induction m as [|[k' v'] m IH]; simpl; [discriminate|].
  destruct (String.eqb_spec k' k) as [->|Hne]; simpl; [reflexivity|].
  intros H. f_equal. exact (IH H).
Qed.

Lemma values_set_Forall (P : V -> Prop) (k : string) (v : V) (m : JsMap.t V) :
  P v -> Forall P (JsMap.values m) -> Forall P (JsMap.values (JsMap.set k v m)).
Proof.
  intros Hv. unfold JsMap.values. induction m as [|[k' v'] m IH]; simpl.
  - intros _. repeat constructor. exact Hv.
  - intros [Hv' Hm]%Forall_cons. destruct (String.eqb k' k); simpl.
    + now constructor.
    + constructor; [exact Hv' | now apply IH].
Qed.

Lemma values_delete_Forall (P : V -> Prop) (k : string) (m : JsMap.t V) :
  Forall P (JsMap.values m) -> Forall P (JsMap.values (JsMap.delete k m)).
Proof.
  unfold JsMap.values, JsMap.delete. induction m as [|[k' v'] m IH]; simpl; [auto|].
  intros [Hv' Hm]%Forall_cons. destruct (negb (String.eqb k' k)); simpl; auto.
Qed.

End JsMapFacts.

(** ** Workflows *)

Section MemStorageFacts.

Context {World : Type} (sv : Services World).

(** X16.  [createWorkflow] stores what it returns: the workflow is found
    under its id afterwards, it belongs to ["default-user"] (whatever the
    caller meant), every other workflow is as before, and users and
    executions are as before. *)
Theorem X16_createWorkflow_round_trip (insertWorkflow : InsertWorkflow)
    (m : Machine World) (st : Store) :
  let created := createWorkflow sv insertWorkflow m st in
  let workflow := created.1.1 in
  getWorkflow (wf_id workflow) created.2 = Some workflow /\
  wf_userId workflow = Some "default-user" /\
  wf_name workflow = ins_name insertWorkflow /\
  (forall id, id <> wf_id workflow -> getWorkflow id created.2 = getWorkflow id st) /\
  users created.2 = users st /\
  executions created.2 = executions st.
Proof.
  unfold createWorkflow, getWorkflow.
  destruct (randomUUID sv (world m)) as [id w1]. destruct (now sv w1) as [t w2].
  destruct (or_object (ins_settings insertWorkflow) (heap m)) as [settings h]. simpl.
  split; [apply get_set_eq|]. repeat (split; [reflexivity|]).
  split; [|split; reflexivity].
  intros id' Hne. now apply get_set_ne.
Qed.

(** Every workflow of a built store belongs to the default user. *)
Lemma Built_owner (st : Store) :
  Built sv st ->
  Forall (fun w => wf_userId w = Some "default-user") (JsMap.values (workflows st)).
Proof.
  induction 1 as [|insertUser w st _ IH _|insertWorkflow m st _ IH
                  |id updates w st _ IH|id st _ IH].
  - constructor.
  - unfold createUser. destruct (randomUUID sv w). exact IH.
  - unfold createWorkflow. destruct (randomUUID sv (world m)) as [id w1].
    destruct (now sv w1). destruct (or_object _ (heap m)). simpl.
    now apply values_set_Forall.
  - unfold updateWorkflow.
    destruct (JsMap.get id (workflows st)) as [workflow|] eqn:Hget; [|exact IH].
    destruct (now sv w). simpl. apply values_set_Forall; [|exact IH]. simpl.
    clear -Hget IH. unfold JsMap.values in IH.
    induction (workflows st) as [|[k v] m IHm]; simpl in *; [discriminate|].
    apply Forall_cons in IH as [Hv Hm].
    destruct (String.eqb k id); [now injection Hget as <- | now apply IHm].
  - simpl. now apply values_delete_Forall.
Qed.

(** X17.  In the in-memory storage every workflow belongs to
    ["default-user"]: on any store built by its methods, listing the
    workflows of another user gives nothing, and listing those of the
    default user gives them all. *)
Theorem X17_workflows_belong_to_default_user (st : Store) (userId : string) :
  Built sv st ->
  userId <> "" ->
  userId <> "default-user" ->
  getWorkflows (Some userId) st = [] /\
  getWorkflows (Some "default-user") st = getWorkflows None st.
Proof.
  intros Hbuilt%Built_owner Hne Hother. unfold getWorkflows. simpl.
  destruct (String.eqb_spec userId "") as [|_]; [contradiction|].
  induction Hbuilt as [|workflow l Howner _ [IH1 IH2]]; simpl; [now split|].
  rewrite Howner. rewrite String.eqb_refl.
  destruct (String.eqb_spec "default-user" userId) as [|_]; [congruence|].
  split; [exact IH1 | now rewrite IH2].
Qed.

(** X18.  [updateWorkflow] of an id that is not stored returns nothing and
    changes nothing (not even the clock is read).  Of a stored workflow it
    returns and stores the updated one: every field that the updates carry
    has the value they give it and every other field the value it had, but
    [updatedAt], which is the time of the update; so the workflow keeps its
    id, its owner and its creation time.  The order of the listing and
    every other workflow are as before. *)
Theorem X18_updateWorkflow (id : string) (updates : WorkflowUpdates) (w : World)
    (st : Store) :
  let updated := updateWorkflow sv id updates w st in
  match getWorkflow id st with
  | None => updated = (None, w, st)
  | Some workflow =>
      exists workflow',
        updated.1.1 = Some workflow' /\
        updated.1.2 = (now sv w).2 /\
        getWorkflow id updated.2 = Some workflow' /\
        wf_id workflow' = wf_id workflow /\
        wf_userId workflow' = wf_userId workflow /\
        wf_createdAt workflow' = wf_createdAt workflow /\
        wf_updatedAt workflow' = (now sv w).1 /\
        wf_name workflow' = default (wf_name workflow) (set_name updates) /\
        wf_description workflow' =
          default (wf_description workflow) (set_description updates) /\
        wf_nodes workflow' = default (wf_nodes workflow) (set_nodes updates) /\
        wf_edges workflow' = default (wf_edges workflow) (set_edges updates) /\
        wf_settings workflow' = default (wf_settings workflow) (set_settings updates) /\
        wf_isActive workflow' = default (wf_isActive workflow) (set_isActive updates) /\
        map fst (workflows updated.2) = map fst (workflows st) /\
        users updated.2 = users st /\
        executions updated.2 = executions st /\
        (forall id', id' <> id -> getWorkflow id' updated.2 = getWorkflow id' st)
  end.
Proof.
  unfold updateWorkflow, getWorkflow.
  destruct (JsMap.get id (workflows st)) as [workflow|] eqn:Hget; [|reflexivity].
  destruct (now sv w) as [t w']. simpl.
  eexists. split; [reflexivity|]. split; [reflexivity|]. split; [apply get_set_eq|].
  repeat (split; [reflexivity|]). split.
  - apply keys_set_present. unfold JsMap.has. now rewrite Hget.
  - repeat (split; [reflexivity|]). intros id' Hne. now apply get_set_ne.
Qed.

(** An update of the name and of nothing else. *)
Example rename_workflow :
  let created :=
    createWorkflow (Bench.services (Ok ""))
      {| ins_name := "draft"; ins_description := Some "first"; ins_nodes := None;
         ins_edges := None; ins_settings := JUndefined; ins_isActive := None |}
      Bench.machine new_store in
  let updated :=
    updateWorkflow (Bench.services (Ok "")) "execution-1"
      {| set_name := Some "final"; set_description := None; set_nodes := None;
         set_edges := None; set_settings := None; set_isActive := None |}
      tt created.2 in
  (fun w => (wf_name w, wf_description w, wf_updatedAt w)) <$> updated.1.1
  = Some ("final", Some "first", Bench.clock).
Proof. reflexivity. Qed.

(** X19.  [deleteWorkflow] answers whether the workflow was stored and
    removes it: it is not found afterwards, a second deletion answers false,
    every other workflow is as before, and the executions are not touched
    (those of the deleted workflow stay). *)
Theorem X19_deleteWorkflow (id : string) (st : Store) :
  let deleted := deleteWorkflow id st in
  deleted.1 = match getWorkflow id st with Some _ => true | None => false end /\
  getWorkflow id deleted.2 = None /\
  (deleteWorkflow id deleted.2).1 = false /\
  (forall id', id' <> id -> getWorkflow id' deleted.2 = getWorkflow id' st) /\
  executions deleted.2 = executions st.
Proof.
  unfold deleteWorkflow, getWorkflow, JsMap.has. simpl.
  split; [reflexivity|]. split; [apply get_delete_eq|].
  split; [now rewrite get_delete_eq|]. split; [|reflexivity].
  intros id' Hne. now apply get_delete_ne.
Qed.

(** ** Users *)

Lemma Built_default_user (st : Store) :
  Built sv st -> exists rest, users st = ("default-user", defaultUser) :: rest.
Proof.
  induction 1 as [|insertUser w st _ [rest IH] Hfresh|insertWorkflow m st _ IH
                  |id updates w st _ IH|id st _ IH].
  - now exists [].
  - unfold createUser. destruct (randomUUID sv w) as [uuid w'].
    cbn [fst snd users] in *. rewrite IH, set_cons_ne by congruence.
    eexists. reflexivity.
  - unfold createWorkflow. destruct (randomUUID sv (world m)) as [uuid w1].
    destruct (now sv w1). destruct (or_object _ (heap m)). exact IH.
  - unfold updateWorkflow. destruct (JsMap.get id (workflows st)); [|exact IH].
    destruct (now sv w). exact IH.
  - exact IH.
Qed.

(** X20.  The default user stays the user [demo]: on any store built by the
    methods of the storage (no generated id being ["default-user"]), looking
    up the username [demo] gives the default user with its password, also
    after other users were created under that name, since [createUser] does
    not look for a username that is taken and the lookup returns the first
    user created. *)
Theorem X20_default_user_is_demo (st : Store) :
  Built sv st ->
  getUserByUsername "demo" st = Some defaultUser /\
  getUser "default-user" st = Some defaultUser.
Proof.
  intros [rest Husers]%Built_default_user.
  unfold getUserByUsername, getUser. rewrite Husers. now split.
Qed.

End MemStorageFacts.

Lemma X17_witness :
  let st :=
    (createWorkflow (Bench.services (Ok ""))
       {| ins_name := "mine"; ins_description := Some ""; ins_nodes := None;
          ins_edges := None; ins_settings := JUndefined; ins_isActive := None |}
       Bench.machine new_store).2 in
  getWorkflows (Some "alice") st = [] /\
  getWorkflows (Some "default-user") st = getWorkflows None st.
Proof.
  apply (X17_workflows_belong_to_default_user (Bench.services (Ok ""))).
  - apply built_createWorkflow, built_new.
  - discriminate.
  - discriminate.
Defined.

Lemma X20_witness :
  let st :=
    (createUser (Bench.services (Ok ""))
       {| new_username := "demo"; new_password := "other" |} tt new_store).2 in
  getUserByUsername "demo" st = Some defaultUser /\
  getUser "default-user" st = Some defaultUser.
Proof.
  apply (X20_default_user_is_demo (Bench.services (Ok ""))).
  apply built_createUser; [apply built_new | discriminate].
Defined.

(** Two users named [demo] are stored; the lookup by name sees the first. *)
Example duplicate_username_is_accepted :
  let st :=
    (createUser (Bench.services (Ok ""))
       {| new_username := "demo"; new_password := "other" |} tt new_store).2 in
  map (fun u => (user_username u, user_password u)) (JsMap.values (users st))
  = [("demo", "demo123"); ("demo", "other")].
Proof. reflexivity. Qed.

(** ** Executions of a workflow *)

Section Sorting.

Context {A : Type} (time : A -> Z).

(** [b] is not more recent than [a]. *)
Definition not_after (a b : A) : Prop := (time b <= time a)%Z.

Definition by_time_desc (a b : A) : Z := (time b - time a)%Z.

Lemma insert_by_perm (cmp : A -> A -> Z) (x : A) (l : list A) :
  insert_by cmp x l ≡ₚ x :: l.
Proof.
  induction l as [|y l IH]; simpl; [reflexivity|].
  destruct (cmp x y <=? 0)%Z; [reflexivity|].
  rewrite IH. apply Permutation_swap.
Qed.

Lemma sort_by_perm (cmp : A -> A -> Z) (l : list A) : sort_by cmp l ≡ₚ l.
Proof.
  unfold sort_by. induction l as [|x l IH]; simpl; [reflexivity|].
  now rewrite insert_by_perm, IH.
Qed.

Lemma insert_by_sorted (x : A) (l : list A) :
  StronglySorted not_after l ->
  StronglySorted not_after (insert_by by_time_desc x l).
Proof.
  induction 1 as [|y l Hl IH Hy]; simpl; [repeat constructor|].
  unfold by_time_desc at 1.
  destruct (Z.leb_spec (time y - time x) 0) as [Hle|Hgt].
  - constructor; [now constructor|].
    constructor; [unfold not_after; lia|].
    eapply Forall_impl; [exact Hy|]. unfold not_after. intros z Hz. lia.
  - constructor; [exact IH|].
    rewrite insert_by_perm. constructor; [unfold not_after; lia | exact Hy].
Qed.

Lemma sort_by_sorted (l : list A) :
  StronglySorted not_after (sort_by by_time_desc l).
Proof.
  unfold sort_by. induction l as [|x l IH]; simpl; [constructor|].
  now apply insert_by_sorted.
Qed.

End Sorting.

(** X21.  [getWorkflowExecutions] returns the executions of the workflow,
    all of them and each as often as it is stored, and no other, most recent
    first: no execution of the list is followed by a more recent one. *)
Theorem X21_executions_most_recent_first (getTime : string -> Z)
    (workflowId : string) (st : Store) :
  getWorkflowExecutions getTime workflowId st
    ≡ₚ List.filter (fun e => String.eqb (exec_workflowId e) workflowId)
         (JsMap.values (executions st)) /\
  StronglySorted (not_after (fun e => getTime (exec_executionTime e)))
    (getWorkflowExecutions getTime workflowId st).
Proof.
  unfold getWorkflowExecutions. split.
  - apply sort_by_perm.
  - apply (sort_by_sorted (fun e => getTime (exec_executionTime e))).
Qed.


(** * The route that executes a workflow *)

(** What [POST /api/workflows/:id/execute] sends: a status and a JSON body,
    the execution or an error with its details. *)
Inductive ResponseBody : Type :=
  | JsonExecution (execution : WorkflowExecution)
  | JsonError (error : string) (details : option string).

Record Response : Type := {
  res_status : nat;
  res_body : ResponseBody
}.

(** [JSON.stringify(execution)], as [res.json] calls it: the fields of the
    record are strings, dates and [null], but [input] and [output], which
    are serialised in that order by [stringify], the [JSON.stringify] of
    the engine, a parameter here; it reads the heap, and it throws on a
    value that contains itself. *)
Definition serialise (stringify : Heap -> JsValue -> Exc string) (h : Heap)
    (execution : WorkflowExecution) : Exc unit :=
  (_ <- stringify h (exec_input execution) ;;
   _ <- stringify h (exec_output execution) ;;
   Ok tt)%exc.

(** The handler of the route, on the workflows of the storage and the
    system the engine runs in; [None] while the engine has not returned.
    [res.json(execution)] is inside the [try]: when it throws, the answer is
    the one of the [catch]. *)
Definition post_execute (realm : Realm) {World : Type} (sv : Services World)
    (stringify : Heap -> JsValue -> Exc string) (fuel : nat)
    (id : string) (body : JsValue) (st : Store) (s : Sys World)
    : option Response * Sys World :=
  let failed e :=
    {| res_status := 500;
       res_body :=
         JsonError "Workflow execution failed" (Some (error_message e "Unknown error")) |} in
  match getWorkflow id st with
  | None =>
      (Some {| res_status := 404; res_body := JsonError "Workflow not found" None |}, s)
  | Some workflow =>
      let ob :=
        executeWorkflow realm sv fuel (wf_id workflow) (wf_nodes workflow)
          (wf_edges workflow) body s in
      match outcome ob with
      | Returned execution =>
          match serialise stringify (heap (sys_machine (final_sys ob))) execution with
          | Ok _ =>
              (Some {| res_status := 200; res_body := JsonExecution execution |},
               final_sys ob)
          | Throw e => (Some (failed e), final_sys ob)
          end
      | Threw e => (Some (failed e), final_sys ob)
      | Pending => (None, final_sys ob)
      end
  end.

(** A traversal on edges without a cycle, whose scripts come back, comes
    back. *)
Lemma executeWorkflow_answers (realm : Realm) {World : Type} (sv : Services World)
    (rank : string -> nat) (fuel : nat) (workflowId : string)
    (nodes : list WorkflowNode) (edges : list WorkflowEdge) (input : JsValue)
    (s : Sys World) :
  (forall body variables results, settles (run_function sv body variables results)) ->
  Forall (fun e => rank (edge_target e) < rank (edge_source e)) edges ->
  Forall (fun n => rank (node_id n) < fuel) nodes ->
  outcome (executeWorkflow realm sv fuel workflowId nodes edges input s) <> Pending.
Proof.
  intros Hscripts Hrank Hfuel.
  pose proof (executeWorkflow_outcome realm sv fuel workflowId nodes edges input s)
    as Hout.
  simpl in Hout.
  destruct (outcome (executeWorkflow realm sv fuel workflowId nodes edges input s));
    try discriminate.
  destruct Hout as (start & others & run & Hstart & Hrun).
  rewrite Forall_forall in Hfuel.
  pose proof (executeFromNode_returns realm sv nodes edges rank
                (fun node context => executeNode_settles realm sv node context Hscripts)
                Hrank fuel start (initial_run sv workflowId input s)
                (Hfuel _ (startNodes_in _ _ _ _ Hstart))) as Hret.
  rewrite Hrun in Hret. now contradict Hret.
Qed.


(** A workflow whose start node is a merge node: the output of the record
    holds the results, which hold the output; the engine returns the record,
    completed, and the route answers 500. *)
Example route_fails_on_cyclic_output :
  let st :=
    (createWorkflow (Bench.services (Ok ""))
       {| ins_name := "merge";
          ins_description := None;
          ins_nodes := Some [Bench.node "M" "merge" []];
          ins_edges := None;
          ins_settings := JUndefined;
          ins_isActive := None |}
       Bench.machine new_store).2 in
  let answer :=
    post_execute Bench.realm (Bench.services (Ok "")) Wired.stringify 1 "execution-1"
      Bench.scenario_input st Bench.empty_sys in
  answer.1 =
    Some {| res_status := 500;
            res_body :=
              JsonError "Workflow execution failed"
                (Some "Converting circular structure to JSON") |} /\
  exec_status <$> workflowExecutions (sys_storage answer.2) !! "execution-1"
    = Some "completed".
Proof. split; vm_compute; reflexivity. Qed.

(** The scenario of the specification through the route. *)
Example route_answers_the_scenario :
  let st :=
    (createWorkflow (Bench.services (Ok ""))
       {| ins_name := "scenario";
          ins_description := None;
          ins_nodes := Some Bench.scenario_nodes;
          ins_edges := Some Bench.scenario_edges;
          ins_settings := JUndefined;
          ins_isActive := None |}
       Bench.machine new_store).2 in
  let answer :=
    post_execute Bench.realm (Bench.services (Ok "hello back")) Wired.stringify 3
      "execution-1" Bench.scenario_input st Bench.empty_sys in
  res_status <$> answer.1 = Some 200.
Proof. vm_compute. reflexivity. Qed.
